(** * Tilt: pod triage, runtime-state reconciliation and streaming reconcilers

    A shallow embedding of the control-loop code of
    [internal/engine/k8swatch] (pod and event triage), [internal/engine]
    (the pod reducers), [internal/engine/runtimelog] (the log-stream health
    check) and [internal/engine/portforward] (the port-forward diff).

    Conventions of the embedding.
    - Go [string]-based identifiers ([model.ManifestName], [types.UID],
      [k8s.PodID], [container.ID], [container.Name]) are [string]s; the
      zero value is the empty string, as in Go.
    - Go [int]/[int32] values that are only compared or copied (restart
      counts, ports) are [Z]; no arithmetic of the embedded code can wrap.
    - Go maps are stdpp [gmap]s.  A [for k, v := range m] loop visits the
      entries in an order chosen by the runtime; the order is a parameter
      ([range_order]) constrained only to be a permutation of the entries.
      No embedded function runs two order-sensitive loops over one map, so
      taking the order as a function of the map loses no behaviour.
    - A pointer into a map-owned object ([*store.Pod], [*store.ManifestTarget])
      is modelled by the key under which the object is stored; a write
      through the pointer is a write-back under that key, performed only
      while the object is still reachable from the map. *)

From stdpp Require Import gmap strings list fin_maps pretty.
From Stdlib Require Import ZArith Lia OrderedTypeEx.

Set Warnings "-clear-no-such-hyp".

Open Scope string_scope.
Open Scope Z_scope.

(** ** Identifiers and time *)

Abbreviation ManifestName := string (only parsing).
Abbreviation UID := string (only parsing).
Abbreviation PodID := string (only parsing).
Abbreviation Namespace := string (only parsing).
Abbreviation ContainerID := string (only parsing).
Abbreviation ContainerName := string (only parsing).
Abbreviation SpanID := string (only parsing).
Abbreviation PodPhase := string (only parsing).

(** [time.Time] as nanoseconds from the zero instant, [time.Duration] as
    nanoseconds. *)
Abbreviation Time := Z (only parsing).
Abbreviation Duration := Z (only parsing).

Definition IsZero (t : Time) : bool := bool_decide (t = 0).
Definition Add (t : Time) (d : Duration) : Time := t + d.

Definition Second : Duration := 1000000000.

Definition PodRunning : PodPhase := "Running".
Definition PodSucceeded : PodPhase := "Succeeded".
Definition PodFailed : PodPhase := "Failed".

(** ** package v1 (the cluster API objects, as far as the code reads them) *)

Module v1.

Record ContainerStatus := mkContainerStatus {
  cs_Name : ContainerName;
  cs_ContainerID : ContainerID;
  cs_Ready : bool;
  cs_Running : bool;
  cs_Terminated : bool;
  cs_RestartCount : Z;
}.

Record Pod := mkPod {
  Name : string;
  UID_ : UID;
  Namespace_ : Namespace;
  Labels : gmap string string;
  CreationTimestamp : Time;
  (** [*metav1.Time]: [None] is the nil pointer. *)
  DeletionTimestamp : option Time;
  Phase : PodPhase;
  Conditions : list string;
  InitContainerStatuses : list ContainerStatus;
  ContainerStatuses : list ContainerStatus;
}.

Record Event := mkEvent {
  ev_Name : string;
  ev_UID : UID;
  ev_Type : string;
  ev_Reason : string;
}.

End v1.

(** ** package model *)

Module model.

(** [model.PortForward]; the unexported link path plays no part in the
    forwarding code and is kept as a plain string so that value equality
    ([cmp.Equal] with [AllowUnexported]) is structural equality. *)
Record PortForward := mkPortForward {
  ContainerPort : Z;
  LocalPort : Z;
  Host : string;
  Name : string;
  path : string;
}.

#[global] Instance PortForward_eq_dec : EqDecision PortForward.
Proof. solve_decision. Defined.

Record Manifest := mkManifest {
  ManifestName_ : ManifestName;
  (** [m.K8sTarget().PortForwards] *)
  PortForwards : list PortForward;
}.

End model.

(** ** package store *)

Module store.

Record Container := mkContainer {
  Name : ContainerName;
  ID : ContainerID;
  Ports : list Z;
  Ready : bool;
  Running : bool;
  Terminated : bool;
  Restarts : Z;
}.

Record Pod := mkPod {
  PodID_ : PodID;
  Namespace_ : Namespace;
  StartedAt : Time;
  Status : string;
  Phase : PodPhase;
  Deleting : bool;
  StatusMessages : list string;
  Conditions : list string;
  InitContainers : list Container;
  Containers : list Container;
  BaselineRestarts : Z;
  SpanID_ : SpanID;
}.

(** The Go zero value [store.Pod{}]. *)
Definition zeroPod : Pod :=
  mkPod "" "" 0 "" "" false [] [] [] [] 0 "".

(** [&store.Pod{PodID: podID}] *)
Definition newPod (podID : PodID) : Pod :=
  mkPod podID "" 0 "" "" false [] [] [] [] 0 "".

Record K8sRuntimeState := mkK8sRuntimeState {
  Pods : gmap PodID Pod;
  PodAncestorUID : UID;
  DeployedUIDSet : gset UID;
  LastReadyOrSucceededTime : Time;
}.

Record ManifestState := mkManifestState {
  MSName : ManifestName;
  RuntimeState : K8sRuntimeState;
  NeedsRebuildFromCrash : bool;
  LiveUpdatedContainerIDs : gset ContainerID;
  (** [ms.LastBuild().SpanID] *)
  LastBuildSpanID : SpanID;
}.

Record ManifestTarget := mkManifestTarget {
  Manifest : model.Manifest;
  State : ManifestState;
}.

Inductive Level := InfoLvl | WarnLvl.

Record LogAction := mkLogAction {
  la_mn : ManifestName;
  la_span : SpanID;
  la_level : Level;
  la_msg : string;
}.

Definition NewLogAction (mn : ManifestName) (span : SpanID) (lvl : Level)
    (msg : string) : LogAction := mkLogAction mn span lvl msg.

Record EngineState := mkEngineState {
  ManifestTargets : gmap ManifestName ManifestTarget;
  (** [state.Targets()] lists the targets in manifest definition order. *)
  ManifestDefinitionOrder : list ManifestName;
  LogStore : list LogAction;
}.

(** Modelled from the spec: [K8sRuntimeState.PodLen] is not in the sources
    at hand; it is the number of tracked pods of the resource. *)
Definition PodLen (runtime : K8sRuntimeState) : nat := size (Pods runtime).

(** Field updates written the way the Go code assigns them. *)
Definition withPods (pods : gmap PodID Pod) (r : K8sRuntimeState) :=
  mkK8sRuntimeState pods (PodAncestorUID r) (DeployedUIDSet r)
    (LastReadyOrSucceededTime r).
Definition withPodAncestorUID (u : UID) (r : K8sRuntimeState) :=
  mkK8sRuntimeState (Pods r) u (DeployedUIDSet r) (LastReadyOrSucceededTime r).
Definition withLastReadyOrSucceededTime (t : Time) (r : K8sRuntimeState) :=
  mkK8sRuntimeState (Pods r) (PodAncestorUID r) (DeployedUIDSet r) t.

Definition withRuntimeState (r : K8sRuntimeState) (ms : ManifestState) :=
  mkManifestState (MSName ms) r (NeedsRebuildFromCrash ms)
    (LiveUpdatedContainerIDs ms) (LastBuildSpanID ms).
Definition withCrash (b : bool) (ids : gset ContainerID) (ms : ManifestState) :=
  mkManifestState (MSName ms) (RuntimeState ms) b ids (LastBuildSpanID ms).

Definition withState (ms : ManifestState) (mt : ManifestTarget) :=
  mkManifestTarget (Manifest mt) ms.

(** Modelled from the spec: [handleLogAction] is not in the sources at hand;
    a log action is appended to the engine's log store. *)
Definition handleLogAction (state : EngineState) (la : LogAction) : EngineState :=
  mkEngineState (ManifestTargets state) (ManifestDefinitionOrder state)
    (LogStore state ++ [la]).

Definition withTarget (mn : ManifestName) (mt : ManifestTarget)
    (state : EngineState) : EngineState :=
  mkEngineState (<[mn := mt]> (ManifestTargets state))
    (ManifestDefinitionOrder state) (LogStore state).

(** [store.ContainerInfo], as returned by [store.AllRunningContainers]. *)
Record ContainerInfo := mkContainerInfo {
  ci_PodID : PodID;
  ci_ContainerID : ContainerID;
  ci_ContainerName : ContainerName;
  ci_Namespace : Namespace;
}.

(** Functions of the packages [store], [k8s], [k8sconv] and [runtimelog]
    that the embedded code calls and whose bodies are not among the sources
    at hand.  The development is parametric in them: every theorem holds
    for all implementations.  ([PodStatusToString] and
    [PodStatusErrorMessages] only produce display strings that are stored
    in the pod record and never read back by the embedded code.) *)
Record Collaborators := mkCollaborators {
  MostRecentPod : ManifestState → Pod;
  AllContainerRestarts : Pod → Z;
  AllContainersReady : Pod → bool;
  AllContainerPorts : Pod → list Z;
  AllRunningContainers : ManifestTarget → list ContainerInfo;
  HasOKPodTemplateSpecHash : K8sRuntimeState → v1.Pod → bool;
  Targets : EngineState → list ManifestTarget;
  PodContainers : v1.Pod → list v1.ContainerStatus → list Container;
  PodIDFromPod : v1.Pod → PodID;
  NamespaceFromPod : v1.Pod → Namespace;
  SpanIDForPod : PodID → SpanID;
  PodStatusToString : v1.Pod → string;
  PodStatusErrorMessages : v1.Pod → list string;
}.

End store.

(** ** Iteration order of Go maps *)

(** An iteration order assigns to every map a listing of its entries. *)
Definition range_order := ∀ V : Type, gmap string V → list (string * V).

Definition range_ok (range : range_order) : Prop :=
  ∀ V (m : gmap string V), range V m ≡ₚ map_to_list m.

(** The order in which stdpp lists the entries is one admissible order. *)
Definition range_canonical : range_order := λ V m, map_to_list m.

(** ** package v1, the pod status read by the status printers *)

Module corev1.

Record ContainerStateWaiting := mkWaiting {
  w_Reason : string;
  w_Message : string;
}.

Record ContainerStateTerminated := mkTerminated {
  t_ExitCode : Z;
  t_Signal : Z;
  t_Reason : string;
  t_Message : string;
}.

(** [None] is the nil pointer. *)
Record ContainerState := mkContainerState {
  Waiting : option ContainerStateWaiting;
  Terminated : option ContainerStateTerminated;
}.

Record ContainerStatus := mkContainerStatus {
  State : ContainerState;
  LastTerminationState : ContainerState;
}.

(** [pod.Status] and [len(pod.Spec.InitContainers)]. *)
Record Pod := mkPod {
  Phase : PodPhase;
  Reason : string;
  InitContainerStatuses : list ContainerStatus;
  ContainerStatuses : list ContainerStatus;
  SpecInitContainers : nat;
}.

End corev1.

(** ** package k8swatch: triage of observed pods and events *)

Module k8swatch.

(** [labels.Selector] is an interface of the cluster client library; a
    selector is modelled by its [Matches] method. *)
Record Selector := mkSelector {
  Matches : gmap string string → bool;
}.

Record ExtraSelector := mkExtraSelector {
  name : ManifestName;
  labels : Selector;
}.

(** Modelled from the spec: [k8s.ObjectRefTree] is not in the sources at
    hand; [UIDs] is the owner chain, ordered from the object itself (nearest)
    to its farthest transitive owner. *)
Record ObjectRefTree := mkObjectRefTree {
  UIDs : list UID;
}.

Record watcherKnownState := mkWatcherKnownState {
  knownDeployedUIDs : gmap UID ManifestName;
}.

(** [store.UIDSet] is a [gset UID]; [set.Add] on a set stored in the index
    updates the index entry, since Go maps are references. *)
Record PodWatcher := mkPodWatcher {
  extraSelectors : list ExtraSelector;
  pw_watcherKnownState : watcherKnownState;
  knownDescendentPodUIDs : gmap UID (gset UID);
  knownPods : gmap UID v1.Pod;
}.

Record EventWatchManager := mkEventWatchManager {
  em_watcherKnownState : watcherKnownState;
  knownDescendentEventUIDs : gmap UID (gset UID);
  knownEvents : gmap UID v1.Event;
}.

Record PodChangeAction := mkPodChangeAction {
  Pod : v1.Pod;
  ManifestName_ : ManifestName;
  MatchedAncestorUID : UID;
}.

Definition upsertPod (w : PodWatcher) (pod : v1.Pod) : PodWatcher :=
  let uid := v1.UID_ pod in
  mkPodWatcher (extraSelectors w) (pw_watcherKnownState w)
    (knownDescendentPodUIDs w) (<[uid := pod]> (knownPods w)).

(** The body of both index loops:
    [set, ok := index[ownerUID]; if !ok { set = NewUIDSet(); index[ownerUID] = set }; set.Add(uid)]. *)
Definition addDescendant (uid ownerUID : UID) (index : gmap UID (gset UID))
    : gmap UID (gset UID) :=
  match index !! ownerUID with
  | Some set => <[ownerUID := set ∪ {[uid]}]> index
  | None => <[ownerUID := ∅ ∪ {[uid]}]> index
  end.

(** First loop of [triagePodTree]. *)
Fixpoint indexPodDescendant (uid : UID) (owners : list UID)
    (index : gmap UID (gset UID)) : gmap UID (gset UID) :=
  match owners with
  | [] => index
  | ownerUID :: rest =>
      if decide (uid = ownerUID) then indexPodDescendant uid rest index
      else indexPodDescendant uid rest (addDescendant uid ownerUID index)
  end.

(** First loop of [triageEventUpdate]. *)
Fixpoint indexEventDescendant (uid : UID) (owners : list UID)
    (index : gmap UID (gset UID)) : gmap UID (gset UID) :=
  match owners with
  | [] => index
  | ownerUID :: rest =>
      indexEventDescendant uid rest (addDescendant uid ownerUID index)
  end.

(** The "find the manifest name" loop, shared by both triage functions:
    [None] when the loop falls through. *)
Fixpoint findDeployed (known : gmap UID ManifestName) (owners : list UID)
    : option (ManifestName * UID) :=
  match owners with
  | [] => None
  | ownerUID :: rest =>
      match known !! ownerUID with
      | Some mn => Some (mn, ownerUID)
      | None => findDeployed known rest
      end
  end.

Fixpoint findSelector (selectors : list ExtraSelector)
    (podLabels : gmap string string) : option ManifestName :=
  match selectors with
  | [] => None
  | selector :: rest =>
      if Matches (labels selector) podLabels then Some (name selector)
      else findSelector rest podLabels
  end.

Definition triagePodTree (w : PodWatcher) (pod : v1.Pod) (objTree : ObjectRefTree)
    : PodWatcher * (ManifestName * UID) :=
  let uid := v1.UID_ pod in
  let w' := mkPodWatcher (extraSelectors w) (pw_watcherKnownState w)
              (indexPodDescendant uid (UIDs objTree) (knownDescendentPodUIDs w))
              (knownPods w) in
  match findDeployed (knownDeployedUIDs (pw_watcherKnownState w)) (UIDs objTree) with
  | Some (mn, ownerUID) => (w', (mn, ownerUID))
  | None =>
      let podLabels := v1.Labels pod in
      match findSelector (extraSelectors w) podLabels with
      | Some mn => (w', (mn, ""))
      | None => (w', ("", ""))
      end
  end.

Definition triageEventUpdate (m : EventWatchManager) (event : v1.Event)
    (objTree : ObjectRefTree) : EventWatchManager * ManifestName :=
  let uid := v1.ev_UID event in
  let m' := mkEventWatchManager (em_watcherKnownState m)
              (indexEventDescendant uid (UIDs objTree) (knownDescendentEventUIDs m))
              (<[uid := event]> (knownEvents m)) in
  match findDeployed (knownDeployedUIDs (em_watcherKnownState m)) (UIDs objTree) with
  | Some (mn, _) => (m', mn)
  | None => (m', "")
  end.

(** The descendants recorded under an ancestor; an absent entry is the
    empty set. *)
Definition descendants (index : gmap UID (gset UID)) (ancestor : UID) : gset UID :=
  default ∅ (index !! ancestor).

(** *** Dispatching and replaying *)

(** [store.NewK8sEventAction(event, mn)] *)
Record K8sEventAction := mkK8sEventAction {
  Event : v1.Event;
  ea_ManifestName : ManifestName;
}.

(** The order in which a [range] loop visits a [store.UIDSet]. *)
Definition set_order := gset UID → list UID.

Definition set_order_ok (rangeSet : set_order) : Prop :=
  ∀ s, rangeSet s ≡ₚ elements s.

Definition set_order_canonical : set_order := elements.

Definition withKnownDeployedUID (uid : UID) (mn : ManifestName)
    (known : watcherKnownState) : watcherKnownState :=
  mkWatcherKnownState (<[uid := mn]> (knownDeployedUIDs known)).

Section Replay.
Context (range : range_order) (rangeSet : set_order).

(** One iteration of the inner loop of [PodWatcher.setupNewUIDs]; [out]
    holds the actions dispatched so far. *)
Definition replayPod (w : PodWatcher) (mn : ManifestName) (uid : UID)
    (out : list PodChangeAction) (podUID : UID) : list PodChangeAction :=
  match knownPods w !! podUID with
  | Some pod => (out ++ [mkPodChangeAction pod mn uid])%list
  | None => out
  end.

(** One iteration of the outer loop of [PodWatcher.setupNewUIDs]. *)
Definition podSetupNewUID (acc : PodWatcher * list PodChangeAction)
    (kv : UID * ManifestName) : PodWatcher * list PodChangeAction :=
  let '(w, out) := acc in
  let '(uid, mn) := kv in
  let w := mkPodWatcher (extraSelectors w)
             (withKnownDeployedUID uid mn (pw_watcherKnownState w))
             (knownDescendentPodUIDs w) (knownPods w) in
  match knownPods w !! uid with
  | Some pod => (w, (out ++ [mkPodChangeAction pod mn uid])%list)
  | None =>
      let descendants := descendants (knownDescendentPodUIDs w) uid in
      (w, foldl (replayPod w mn uid) out (rangeSet descendants))
  end.

(** [PodWatcher.setupNewUIDs] returns the watcher as the call leaves it
    and the actions it dispatches, in order. *)
Definition podSetupNewUIDs (w : PodWatcher) (newUIDs : gmap UID ManifestName)
    : PodWatcher * list PodChangeAction :=
  foldl podSetupNewUID (w, []) (range _ newUIDs).

Definition replayEvent (m : EventWatchManager) (mn : ManifestName)
    (out : list K8sEventAction) (uid : UID) : list K8sEventAction :=
  match knownEvents m !! uid with
  | Some event => (out ++ [mkK8sEventAction event mn])%list
  | None => out
  end.

Definition eventSetupNewUID (acc : EventWatchManager * list K8sEventAction)
    (kv : UID * ManifestName) : EventWatchManager * list K8sEventAction :=
  let '(m, out) := acc in
  let '(uid, mn) := kv in
  let m := mkEventWatchManager
             (withKnownDeployedUID uid mn (em_watcherKnownState m))
             (knownDescendentEventUIDs m) (knownEvents m) in
  let descendants := descendants (knownDescendentEventUIDs m) uid in
  (m, foldl (replayEvent m mn) out (rangeSet descendants)).

(** [EventWatchManager.setupNewUIDs] *)
Definition eventSetupNewUIDs (m : EventWatchManager) (newUIDs : gmap UID ManifestName)
    : EventWatchManager * list K8sEventAction :=
  foldl eventSetupNewUID (m, []) (range _ newUIDs).

End Replay.

(** A line of the logger: the arguments of
    [Infof("Handling pod update (%q): %v", pod.Name, err)] and of
    [Infof("Error handling event update (%q): %v", event.Name, err)]. *)
Record ownerError := mkOwnerError {
  oe_object : string;
  oe_err : string;
}.

(** [PodWatcher.dispatchPodChange]; [fetched] is what
    [ownerFetcher.OwnerTreeOf] returned, [inr err] for an error.  The
    result is the watcher as the call leaves it, the actions dispatched and
    the lines written to the logger. *)
Definition dispatchPodChange (w : PodWatcher) (pod : v1.Pod)
    (fetched : ObjectRefTree + string)
    : PodWatcher * list PodChangeAction * list ownerError :=
  match fetched with
  | inr err => (w, [], [mkOwnerError (v1.Name pod) err])
  | inl objTree =>
      let '(w, (mn, ancestorUID)) := triagePodTree w pod objTree in
      if decide (mn = "") then (w, [], [])
      else
        match knownPods w !! v1.UID_ pod with
        | Some freshPod => (w, [mkPodChangeAction freshPod mn ancestorUID], [])
        | None => (w, [], [])
        end
  end.

(** [EventWatchManager.dispatchEventChange] *)
Definition dispatchEventChange (m : EventWatchManager) (event : v1.Event)
    (fetched : ObjectRefTree + string)
    : EventWatchManager * list K8sEventAction * list ownerError :=
  match fetched with
  | inr err => (m, [], [mkOwnerError (v1.ev_Name event) err])
  | inl objTree =>
      let '(m, mn) := triageEventUpdate m event objTree in
      if decide (mn = "") then (m, [], [])
      else (m, [mkK8sEventAction event mn], [])
  end.

Definition ImagePullingReason : string := "Pulling".
Definition ImagePulledReason : string := "Pulled".
Definition EventTypeNormal : string := "Normal".

Definition ShouldLogEvent (e : v1.Event) : bool :=
  if decide (v1.ev_Type e ≠ EventTypeNormal) then true
  else bool_decide (v1.ev_Reason e = ImagePullingReason)
       || bool_decide (v1.ev_Reason e = ImagePulledReason).

(** *** The status column of a pod *)

Section PodStatus.
(** [fmt.Sprintf("%d", n)] and the table [k8sconv.ErrorWaitingReasons]. *)
Context (itoa : Z → string) (ErrorWaitingReasons : string → bool).

Definition isFinished (container : corev1.ContainerStatus) : bool :=
  match corev1.Terminated (corev1.State container) with
  | Some t => bool_decide (corev1.t_ExitCode t = 0)
  | None => false
  end.

Fixpoint isPodStillInitializingLoop (statuses : list corev1.ContainerStatus) : bool :=
  match statuses with
  | [] => false
  | container :: rest =>
      if negb (isFinished container) then true
      else isPodStillInitializingLoop rest
  end.

Definition isPodStillInitializing (pod : corev1.Pod) : bool :=
  isPodStillInitializingLoop (corev1.InitContainerStatuses pod).

(** The first loop of [PodStatusToString], at position [i]: the [switch]
    either continues or sets [reason] and breaks. *)
Fixpoint initReason (pod : corev1.Pod) (i : nat)
    (statuses : list corev1.ContainerStatus) (reason : string) : string :=
  match statuses with
  | [] => reason
  | container :: rest =>
      let state := corev1.State container in
      match corev1.Terminated state with
      | Some t =>
          if decide (corev1.t_ExitCode t = 0) then initReason pod (S i) rest reason
          else if decide (String.length (corev1.t_Reason t) = 0)%nat then
            if decide (corev1.t_Signal t ≠ 0)
            then "Init:Signal:" ++ itoa (corev1.t_Signal t)
            else "Init:ExitCode:" ++ itoa (corev1.t_ExitCode t)
          else "Init:" ++ corev1.t_Reason t
      | None =>
          match corev1.Waiting state with
          | Some w =>
              if bool_decide (0 < String.length (corev1.w_Reason w))%nat
                 && bool_decide (corev1.w_Reason w ≠ "PodInitializing")
              then "Init:" ++ corev1.w_Reason w
              else "Init:" ++ itoa (Z.of_nat i) ++ "/"
                   ++ itoa (Z.of_nat (corev1.SpecInitContainers pod))
          | None =>
              "Init:" ++ itoa (Z.of_nat i) ++ "/"
              ++ itoa (Z.of_nat (corev1.SpecInitContainers pod))
          end
      end
  end.

(** The body of the second loop of [PodStatusToString]. *)
Definition containerReason (reason : string) (container : corev1.ContainerStatus)
    : string :=
  let state := corev1.State container in
  match corev1.Waiting state, corev1.Terminated state with
  | Some w, terminated =>
      if decide (corev1.w_Reason w ≠ "") then corev1.w_Reason w
      else
        match terminated with
        | Some t =>
            if decide (corev1.t_Reason t ≠ "") then corev1.t_Reason t
            else if decide (corev1.t_Signal t ≠ 0)
            then "Signal:" ++ itoa (corev1.t_Signal t)
            else "ExitCode:" ++ itoa (corev1.t_ExitCode t)
        | None => reason
        end
  | None, Some t =>
      if decide (corev1.t_Reason t ≠ "") then corev1.t_Reason t
      else if decide (corev1.t_Signal t ≠ 0)
      then "Signal:" ++ itoa (corev1.t_Signal t)
      else "ExitCode:" ++ itoa (corev1.t_ExitCode t)
  | None, None => reason
  end.

Definition PodStatusToString (pod : corev1.Pod) : string :=
  let reason := corev1.Phase pod in
  let reason := if decide (corev1.Reason pod ≠ "") then corev1.Reason pod else reason in
  let reason := initReason pod 0 (corev1.InitContainerStatuses pod) reason in
  if isPodStillInitializing pod then reason
  else foldl containerReason reason (reverse (corev1.ContainerStatuses pod)).

Definition containerStatusErrorMessages (container : corev1.ContainerStatus)
    : list string :=
  let result := [] in
  let state := corev1.State container in
  match corev1.Waiting state with
  | Some w =>
      let lastState := corev1.LastTerminationState container in
      let result :=
        match corev1.Terminated lastState with
        | Some t =>
            if bool_decide (corev1.t_ExitCode t ≠ 0)
               && bool_decide (corev1.t_Message t ≠ "")
            then (result ++ [corev1.t_Message t])%list
            else result
        | None => result
        end in
      if bool_decide (corev1.w_Message w ≠ "")
         && ErrorWaitingReasons (corev1.w_Reason w)
      then (result ++ [corev1.w_Message w])%list
      else result
  | None =>
      match corev1.Terminated state with
      | Some t =>
          if bool_decide (corev1.t_ExitCode t ≠ 0)
             && bool_decide (corev1.t_Message t ≠ "")
          then (result ++ [corev1.t_Message t])%list
          else result
      | None => result
      end
  end.

Definition PodStatusErrorMessages (pod : corev1.Pod) : list string :=
  let result := [] in
  let result :=
    if isPodStillInitializing pod then
      foldl (λ result container,
               (result ++ containerStatusErrorMessages container)%list)
            result (corev1.InitContainerStatuses pod)
    else result in
  foldl (λ result container,
           (result ++ containerStatusErrorMessages container)%list)
        result (reverse (corev1.ContainerStatuses pod)).

End PodStatus.

End k8swatch.

(** ** package portforward: resolving the forwards of a pod *)

Module portforward.

Section WithCollaborators.
Context (api : store.Collaborators).

(** The inner loop of [populatePortForwards]: the first exposed port equal
    to the local port replaces [current], which is kept when the loop ends
    without a match. *)
Fixpoint matchLocalPort (localPort : Z) (cPorts : list Z) (current : Z) : Z :=
  match cPorts with
  | [] => current
  | cPort :: rest =>
      if decide (localPort = cPort) then cPort
      else matchLocalPort localPort rest current
  end.

Fixpoint populateLoop (cPorts : list Z) (fwds : list model.PortForward)
    (forwards : list model.PortForward) : list model.PortForward :=
  match fwds with
  | [] => forwards
  | forward :: rest =>
      if decide (model.ContainerPort forward = 0) then
        match cPorts with
        | [] => populateLoop cPorts rest forwards
        | first :: _ =>
            let forward' :=
              model.mkPortForward
                (matchLocalPort (model.LocalPort forward) cPorts first)
                (model.LocalPort forward) (model.Host forward)
                (model.Name forward) (model.path forward) in
            populateLoop cPorts rest (forwards ++ [forward'])
        end
      else populateLoop cPorts rest (forwards ++ [forward])
  end.

Definition populatePortForwards (m : model.Manifest) (pod : store.Pod)
    : list model.PortForward :=
  let cPorts := store.AllContainerPorts api pod in
  let fwds := model.PortForwards m in
  populateLoop cPorts fwds [].

Definition PortForwardsAreValid (m : model.Manifest) (pod : store.Pod) : bool :=
  let expectedFwds := model.PortForwards m in
  let actualFwds := populatePortForwards m pod in
  bool_decide (length actualFwds = length expectedFwds).

End WithCollaborators.

(** [portForwardEntry]; the context and its cancel function are opaque
    handles of the running forward and carry no data the diff reads. *)
Record portForwardEntry := mkPortForwardEntry {
  name : ManifestName;
  namespace : Namespace;
  podID : PodID;
  forwards : list model.PortForward;
}.

Record Controller := mkController {
  activeForwards : gmap PodID portForwardEntry;
}.

(** The variables of [Controller.diff] that its loops update. *)
Record diffState := mkDiffState {
  d_activeForwards : gmap PodID portForwardEntry;
  d_statePods : gset PodID;
  d_toStart : list portForwardEntry;
  d_toShutdown : list portForwardEntry;
}.

Section Diff.
Context (api : store.Collaborators) (range : range_order).

(** Body of the first loop of [diff], for one manifest target ([fwds] is
    the local variable [forwards] of the source). *)
Definition diffTarget (d : diffState) (mt : store.ManifestTarget) : diffState :=
  let ms := store.State mt in
  let manifest := store.Manifest mt in
  let pod := store.MostRecentPod api ms in
  let podID := store.PodID_ pod in
  if decide (podID = "") then d
  else if bool_decide (store.Phase pod ≠ PodRunning) && negb (store.Deleting pod) then d
  else
    let fwds := populatePortForwards api manifest pod in
    if decide (length fwds = 0)%nat then d
    else
      let statePods := d_statePods d ∪ {[podID]} in
      let entry := mkPortForwardEntry (store.MSName ms) (store.Namespace_ pod)
                     podID fwds in
      match d_activeForwards d !! podID with
      | Some oldEntry =>
          if decide (forwards oldEntry = fwds) then
            mkDiffState (d_activeForwards d) statePods (d_toStart d) (d_toShutdown d)
          else
            mkDiffState (<[podID := entry]> (d_activeForwards d)) statePods
              (d_toStart d ++ [entry]) (d_toShutdown d ++ [oldEntry])
      | None =>
          mkDiffState (<[podID := entry]> (d_activeForwards d)) statePods
            (d_toStart d ++ [entry]) (d_toShutdown d)
      end.

(** Body of the second loop of [diff], for one active entry. *)
Definition diffActive (d : diffState) (kv : PodID * portForwardEntry) : diffState :=
  let '(key, value) := kv in
  if decide (key ∈ d_statePods d) then d
  else
    mkDiffState (delete key (d_activeForwards d)) (d_statePods d)
      (d_toStart d) (d_toShutdown d ++ [value]).

Definition diff (m : Controller) (st : store.EngineState)
    : Controller * (list portForwardEntry * list portForwardEntry) :=
  let d := mkDiffState (activeForwards m) ∅ [] [] in
  let d := foldl diffTarget d (store.Targets api st) in
  let d := foldl diffActive d (range _ (d_activeForwards d)) in
  (mkController (d_activeForwards d), (d_toStart d, d_toShutdown d)).

(** What a target asks for: the pod to forward to and the resolved
    forwards, [None] when the first loop of [diff] skips the target. *)
Definition desiredForward (mt : store.ManifestTarget)
    : option (PodID * list model.PortForward) :=
  let pod := store.MostRecentPod api (store.State mt) in
  let fwds := populatePortForwards api (store.Manifest mt) pod in
  if decide (store.PodID_ pod = "") then None
  else if bool_decide (store.Phase pod ≠ PodRunning) && negb (store.Deleting pod) then None
  else if decide (length fwds = 0)%nat then None
  else Some (store.PodID_ pod, fwds).


(** The pods the targets ask forwards for. *)
Definition desiredPods (ts : list store.ManifestTarget) : gset PodID :=
  list_to_set (omap (λ mt, fst <$> desiredForward mt) ts).


End Diff.

End portforward.

(** ** package engine: the pod reducers *)

Module engine.

Import store.

Definition newline : string := String (Ascii.ascii_of_nat 10) EmptyString.

Section WithCollaborators.
Context (api : Collaborators) (range : range_order) (now : Time).

(** The loop of [restartedContainerNames], at position [i] of
    [newContainers], with [rest] the containers still to visit.  After the
    length test the index [i] is in range, so the [None] branch of the
    lookup is never taken. *)
Fixpoint restartedLoop (existingContainers : list Container) (i : nat)
    (rest : list Container) (result : list ContainerName) : list ContainerName :=
  match rest with
  | [] => result
  | c :: rest' =>
      if decide (length existingContainers ≤ i)%nat then result
      else
        match existingContainers !! i with
        | None => result
        | Some existing =>
            if decide (Name existing ≠ Name c) then
              restartedLoop existingContainers (S i) rest' result
            else if decide (Restarts existing < Restarts c) then
              restartedLoop existingContainers (S i) rest' (result ++ [Name c])
            else restartedLoop existingContainers (S i) rest' result
        end
  end.

Definition restartedContainerNames (existingContainers newContainers : list Container)
    : list ContainerName :=
  restartedLoop existingContainers 0 newContainers [].

(** Modelled from the spec: [store.UIDSet.Contains] is not in the sources
    at hand; it tells whether the UID is in the deployed UID set. *)
Definition Contains (set : gset UID) (uid : UID) : bool := bool_decide (uid ∈ set).

Definition matchPodChangeToManifest (state : EngineState)
    (action : k8swatch.PodChangeAction) : option ManifestTarget :=
  let manifestName := k8swatch.ManifestName_ action in
  let matchedAncestorUID := k8swatch.MatchedAncestorUID action in
  match ManifestTargets state !! manifestName with
  | None => None
  | Some mt =>
      let ms := State mt in
      let runtime := RuntimeState ms in
      let isAncestorMatched := bool_decide (matchedAncestorUID ≠ "") in
      if isAncestorMatched && negb (Contains (DeployedUIDSet runtime) matchedAncestorUID)
      then None
      else Some mt
  end.

(** [maybeTrackPod] returns the manifest state as the call leaves it, the
    pod record ([None] for the nil pointer) and the first-time flag.  A
    returned record is the one stored under [PodIDFromPod pod]. *)
Definition maybeTrackPod (ms : ManifestState) (action : k8swatch.PodChangeAction)
    : ManifestState * option Pod * bool :=
  let pod := k8swatch.Pod action in
  let podID := PodIDFromPod api pod in
  let runtime := RuntimeState ms in
  let isCurrentDeploy := HasOKPodTemplateSpecHash api runtime pod in
  if negb isCurrentDeploy then (ms, Pods runtime !! podID, false)
  else
    let matchedAncestorUID := k8swatch.MatchedAncestorUID action in
    let isAncestorMatch := bool_decide (matchedAncestorUID ≠ "") in
    let runtime :=
      if bool_decide (PodAncestorUID runtime = "")
         || (isAncestorMatch && bool_decide (PodAncestorUID runtime ≠ matchedAncestorUID))
      then withPodAncestorUID matchedAncestorUID (withPods ∅ runtime)
      else runtime in
    match Pods runtime !! podID with
    | None =>
        let podInfo := newPod podID in
        (withRuntimeState (withPods (<[podID := podInfo]> (Pods runtime)) runtime) ms,
         Some podInfo, true)
    | Some podInfo => (withRuntimeState runtime ms, Some podInfo, false)
    end.

(** First loop of [prunePods]. *)
Definition pruneDeleting (pods : gmap PodID Pod) : gmap PodID Pod :=
  foldl (λ acc kv, if Deleting kv.2 then delete kv.1 acc else acc)
        pods (range _ pods).

Definition isDead (pod : Pod) : bool :=
  bool_decide (Phase pod = PodSucceeded) || bool_decide (Phase pod = PodFailed).

(** The inner [range] loop of [prunePods]: it deletes the first dead pod
    that is not [bestPod] and breaks. *)
Fixpoint pruneOneDead (bestPod : Pod) (entries : list (PodID * Pod))
    (pods : gmap PodID Pod) : gmap PodID Pod :=
  match entries with
  | [] => pods
  | (key, pod) :: rest =>
      if isDead pod && bool_decide (PodID_ pod ≠ PodID_ bestPod)
      then delete key pods
      else pruneOneDead bestPod rest pods
  end.

(** The body of [for runtime.PodLen() > 1 { ... }] ends in an unconditional
    [return], so it runs at most once. *)
Definition prunePods (ms : ManifestState) : ManifestState :=
  let runtime := RuntimeState ms in
  let pods1 := pruneDeleting (Pods runtime) in
  let ms1 := withRuntimeState (withPods pods1 runtime) ms in
  if decide (1 < PodLen (RuntimeState ms1))%nat then
    let bestPod := MostRecentPod api ms1 in
    let pods2 := pruneOneDead bestPod (range _ pods1) pods1 in
    withRuntimeState (withPods pods2 runtime) ms
  else ms1.

(** The set of live-updated containers that are not running. *)
Definition hitList (ms : ManifestState) (runningContainers : list ContainerInfo)
    : gset ContainerID :=
  foldl (λ h c, h ∖ {[ci_ContainerID c]}) (LiveUpdatedContainerIDs ms)
        runningContainers.

Definition crashMessage (ms : ManifestState) : string :=
  "Detected a container change for " ++ MSName ms
  ++ ". We could be running stale code. Rebuilding and deploying a new image.".

(** [checkForContainerCrash] returns the target as the call leaves it and
    the log actions it hands to [handleLogAction]. *)
Definition checkForContainerCrash (mt : ManifestTarget)
    : ManifestTarget * list LogAction :=
  let ms := State mt in
  if NeedsRebuildFromCrash ms then (mt, [])
  else
    let runningContainers := AllRunningContainers api mt in
    if decide (size (hitList ms runningContainers) = 0)%nat then (mt, [])
    else
      let ms' := withCrash true ∅ ms in
      let le := NewLogAction (MSName ms') (LastBuildSpanID ms') WarnLvl
                  (crashMessage ms' ++ newline) in
      (withState ms' mt, [le]).

(** The status assignments of [handlePodChangeAction]. *)
Definition updateStatus (pod : v1.Pod) (podInfo : Pod) : Pod :=
  mkPod (PodID_ podInfo)
        (NamespaceFromPod api pod)
        (v1.CreationTimestamp pod)
        (PodStatusToString api pod)
        (v1.Phase pod)
        (match v1.DeletionTimestamp pod with
         | Some t => negb (IsZero t)
         | None => false
         end)
        (PodStatusErrorMessages api pod)
        (v1.Conditions pod)
        (InitContainers podInfo)
        (Containers podInfo)
        (BaselineRestarts podInfo)
        (SpanIDForPod api (PodID_ podInfo)).

Definition withInitContainers (cs : list Container) (p : Pod) : Pod :=
  mkPod (PodID_ p) (Namespace_ p) (StartedAt p) (Status p) (Phase p) (Deleting p)
        (StatusMessages p) (Conditions p) cs (Containers p)
        (BaselineRestarts p) (SpanID_ p).
Definition withContainers (cs : list Container) (p : Pod) : Pod :=
  mkPod (PodID_ p) (Namespace_ p) (StartedAt p) (Status p) (Phase p) (Deleting p)
        (StatusMessages p) (Conditions p) (InitContainers p) cs
        (BaselineRestarts p) (SpanID_ p).
Definition withBaselineRestarts (n : Z) (p : Pod) : Pod :=
  mkPod (PodID_ p) (Namespace_ p) (StartedAt p) (Status p) (Phase p) (Deleting p)
        (StatusMessages p) (Conditions p) (InitContainers p) (Containers p)
        n (SpanID_ p).

(** A write through the [*store.Pod] stored under [key]. *)
Definition storePod (key : PodID) (podInfo : Pod) (ms : ManifestState) : ManifestState :=
  let runtime := RuntimeState ms in
  withRuntimeState (withPods (<[key := podInfo]> (Pods runtime)) runtime) ms.

Definition restartMessage (podID : PodID) (name : ContainerName) : string :=
  "Detected container restart. Pod: " ++ podID ++ ". Container: " ++ name ++ ".".

Definition restartLog (manifest : model.Manifest) (podInfo : Pod)
    (name : ContainerName) : LogAction :=
  NewLogAction (model.ManifestName_ manifest) (SpanID_ podInfo) WarnLvl
    (restartMessage (PodID_ podInfo) name).

(** The restart notifications of one container list: none for a pod seen
    for the first time. *)
Definition restartLogs (isNew : bool) (manifest : model.Manifest) (podInfo : Pod)
    (existingContainers newContainers : list Container) : list LogAction :=
  if isNew then []
  else map (restartLog manifest podInfo)
           (restartedContainerNames existingContainers newContainers).

Definition portForwardWarning (manifest : model.Manifest) (podInfo : Pod) : string :=
  "Resource " ++ model.ManifestName_ manifest
  ++ " is using port forwards, but no container ports on pod " ++ PodID_ podInfo.

(** The two container assignments of [handlePodChangeAction]; [podInfo] is
    the record after the status assignments. *)
Definition assignContainers (pod : v1.Pod) (podInfo : Pod) : Pod :=
  let initContainers := PodContainers api pod (v1.InitContainerStatuses pod) in
  let podInfo := withInitContainers initContainers podInfo in
  let containers := PodContainers api pod (v1.ContainerStatuses pod) in
  withContainers containers podInfo.

(** The pod record after the container assignments and, for a new pod, the
    assignment of [BaselineRestarts]. *)
Definition updateContainers (isNew : bool) (pod : v1.Pod) (podInfo : Pod) : Pod :=
  let podInfo := assignContainers pod podInfo in
  if isNew then withBaselineRestarts (AllContainerRestarts api podInfo) podInfo
  else podInfo.

(** [handlePodChangeAction] returns the engine state as the call leaves it
    and the lines written to the context logger.  The target [mt] is the
    object stored under the action's manifest name, and [podInfo] the object
    stored under the pod's ID: writes through either pointer are written
    back under these keys; once [prunePods] has removed the pod record from
    the map, later writes to it no longer reach the engine state. *)
Definition handlePodChangeAction (state : EngineState)
    (action : k8swatch.PodChangeAction) : EngineState * list string :=
  match matchPodChangeToManifest state action with
  | None => (state, [])
  | Some mt =>
      let mn := k8swatch.ManifestName_ action in
      let pod := k8swatch.Pod action in
      let manifest := Manifest mt in
      match maybeTrackPod (State mt) action with
      | (ms, None, _) => (withTarget mn (withState ms mt) state, [])
      | (ms, Some podInfo, isNew) =>
          let key := PodIDFromPod api pod in
          let podInfo := updateStatus pod podInfo in
          let ms := storePod key podInfo ms in
          let ms := prunePods ms in
          let tracked := bool_decide (is_Some (Pods (RuntimeState ms) !! key)) in
          let initContainers := PodContainers api pod (v1.InitContainerStatuses pod) in
          let state :=
            foldl handleLogAction state
              (restartLogs isNew manifest podInfo (InitContainers podInfo) initContainers) in
          let containers := PodContainers api pod (v1.ContainerStatuses pod) in
          let state :=
            foldl handleLogAction state
              (restartLogs isNew manifest podInfo (Containers podInfo) containers) in
          let podInfo := updateContainers isNew pod podInfo in
          let ms := if tracked then storePod key podInfo ms else ms in
          if decide (length (Containers podInfo) = 0)%nat then
            (withTarget mn (withState ms mt) state, [])
          else
            let ms :=
              if AllContainersReady api podInfo || bool_decide (Phase podInfo = PodSucceeded)
              then withRuntimeState (withLastReadyOrSucceededTime now (RuntimeState ms)) ms
              else ms in
            let warnings :=
              if portforward.PortForwardsAreValid api manifest podInfo then []
              else [portForwardWarning manifest podInfo] in
            let '(mt', les) := checkForContainerCrash (withState ms mt) in
            (withTarget mn mt' (foldl handleLogAction state les), warnings)
      end
  end.

End WithCollaborators.

(** *** Pod deletion and restart reset *)

Record PodDeleteAction := mkPodDeleteAction {
  pda_PodID : PodID;
  pda_Namespace : Namespace;
}.

Record PodResetRestartsAction := mkPodResetRestartsAction {
  pra_PodID : PodID;
  pra_ManifestName : ManifestName;
  pra_VisibleRestarts : Z;
}.

(** Go [int] arithmetic on a 64-bit platform. *)
Definition wrapInt (z : Z) : Z := (z + 2 ^ 63) mod 2 ^ 64 - 2 ^ 63.

(** [handlePodDeleteAction]: every target drops the pod ID from its
    tracked pods. *)
Definition handlePodDeleteAction (state : EngineState) (action : PodDeleteAction)
    : EngineState :=
  mkEngineState
    ((λ target,
        let ms := State target in
        let runtime := RuntimeState ms in
        withState
          (withRuntimeState
             (withPods (delete (pda_PodID action) (Pods runtime)) runtime) ms)
          target)
     <$> ManifestTargets state)
    (ManifestDefinitionOrder state) (LogStore state).

Section ResetRestarts.
Context (api : Collaborators).
(** [store.Pod.VisibleContainerRestarts], not in the sources at hand. *)
Context (VisibleContainerRestarts : Pod → Z).

(** [handlePodResetRestartsAction]; [state.ManifestState(name)] is the
    state of the target stored under the name. *)
Definition handlePodResetRestartsAction (state : EngineState)
    (action : PodResetRestartsAction) : EngineState :=
  match ManifestTargets state !! pra_ManifestName action with
  | None => state
  | Some mt =>
      let ms := State mt in
      let runtime := RuntimeState ms in
      match Pods runtime !! pra_PodID action with
      | None => state
      | Some podInfo =>
          let delta :=
            wrapInt (VisibleContainerRestarts podInfo - pra_VisibleRestarts action) in
          let podInfo :=
            withBaselineRestarts
              (wrapInt (AllContainerRestarts api podInfo - delta)) podInfo in
          withTarget (pra_ManifestName action)
            (withState (storePod (pra_PodID action) podInfo ms) mt) state
      end
  end.

End ResetRestarts.

End engine.

(** ** package runtimelog: the health check of a log stream *)

Module runtimelog.

Definition podLogHealthCheck : Duration := 15 * Second.
Definition podLogReconnectGap : Duration := 2 * Second.

(** What [consumeLogs] observes while it runs.  [Tick lastRead elapsed]: the
    health-check ticker fired, [reader.LastReadTime()] returned [lastRead]
    and [m.since(lastRead)] returned [elapsed].  [OpenFails]: the pending
    [ContainerLogs] call returned an error.  [CopyEnds err]: [io.Copy]
    returned by itself, with an error or not. *)
Inductive observation :=
  | Tick (lastRead : Time) (elapsed : Duration)
  | OpenFails
  | CopyEnds (err : bool).

(** What [consumeLogs] does. *)
Inductive effect :=
  | ContainerLogs (startReadTime : Time)
  | Cancel
  | SetActive
  | SetError.

(** The [case <-ticker.C] branch of the health-check goroutine: [None] for
    [continue], [Some t] when it sets [retry], moves [startReadTime] to [t],
    cancels the stream and returns. *)
Definition healthCheckTick (lastRead : Time) (elapsed : Duration) : option Time :=
  if IsZero lastRead || bool_decide (elapsed < podLogHealthCheck) then None
  else Some (Add lastRead podLogReconnectGap).

(** [consumeLogs] from the point where an iteration of [for retry] has
    opened the stream with [ContainerLogs] ([opening = true]: the call is
    pending) and streams from it.  The effects are those that follow. *)
Fixpoint consumeLoop (opening : bool) (startReadTime : Time)
    (obs : list observation) : list effect :=
  match obs with
  | [] => []
  | OpenFails :: rest =>
      if opening then [Cancel; SetError]
      else consumeLoop false startReadTime rest
  | Tick lastRead elapsed :: rest =>
      let active := if opening then [SetActive] else [] in
      match healthCheckTick lastRead elapsed with
      | None => active ++ consumeLoop false startReadTime rest
      | Some startReadTime' =>
          active ++ Cancel :: ContainerLogs startReadTime'
                 :: consumeLoop true startReadTime' rest
      end
  | CopyEnds err :: _ =>
      let active := if opening then [SetActive] else [] in
      (* [retry] is false here; [ctx] is the context of this iteration,
         which [cancel()] has cancelled on the line before the test. *)
      let retry := false in
      let ctxErrIsNil := false in
      if negb retry && err && ctxErrIsNil then active ++ [Cancel; SetError]
      else active ++ [Cancel]
  end.

(** [consumeLogs] for a watch created with [startWatchTime]. *)
Definition consumeLogs (startWatchTime : Time) (obs : list observation) : list effect :=
  ContainerLogs startWatchTime :: consumeLoop true startWatchTime obs.

(** *** The context of an iteration *)

(** [context.Context], as far as [consumeLogs] uses it.  [Root done] is a
    context that the loop only reads, done or not; [Derived parent cancelled]
    is [context.WithCancel(parent)], whose cancel function has run or not.
    A derived context is done once its cancel function has run or its
    parent is done, and [Err()] is nil until the context is done. *)
Inductive Context :=
  | Root (done : bool)
  | Derived (parent : Context) (cancelled : bool).

Fixpoint Done (ctx : Context) : bool :=
  match ctx with
  | Root done => done
  | Derived parent cancelled => cancelled || Done parent
  end.

Definition WithCancel (parent : Context) : Context := Derived parent false.

Definition cancel (ctx : Context) : Context :=
  match ctx with
  | Root done => Root done
  | Derived parent _ => Derived parent true
  end.

Definition ErrIsNil (ctx : Context) : bool := negb (Done ctx).

(** An iteration of [for retry] from the return of [io.Copy] on.  [ctx] is
    the context of [consumeLogs]; the body of the loop runs under the
    context derived from it at its head
    ([ctx, cancel := context.WithCancel(ctx)]), and that context is the
    [ctx] which the test after [cancel()] reads. *)
Definition afterCopy (ctx : Context) (retry err : bool) : list effect :=
  let ctx := WithCancel ctx in
  let ctx := cancel ctx in
  if negb retry && err && ErrIsNil ctx then [Cancel; SetError] else [Cancel].

(** *** Container filtering and stream status *)

(** [types.NamespacedName]: namespace and name. *)
Abbreviation NamespacedName := (string * string)%type (only parsing).

(** The part of [PodLogStreamSpec] that [filterContainers] reads. *)
Record PodLogStreamSpec := mkPodLogStreamSpec {
  OnlyContainers : list string;
  IgnoreContainers : list string;
}.

Record ContainerLogStreamStatus := mkContainerLogStreamStatus {
  cls_Name : string;
  Active : bool;
  cls_Terminated : bool;
  Error : string;
}.

Record PodLogStreamStatus := mkPodLogStreamStatus {
  ContainerStatuses : list ContainerLogStreamStatus;
}.

(** [only := make(map[container.Name]bool); for _, name := range names { only[name] = true }];
    a lookup of a missing name gives [false]. *)
Definition nameSet (names : list string) : gset ContainerName :=
  foldl (λ set name, set ∪ {[name]}) ∅ names.

(** [for _, c := range containers { if keep(c) { result = append(result, c) } }] *)
Definition appendIf (keep : store.Container → bool)
    (containers : list store.Container) : list store.Container :=
  foldl (λ result c, if keep c then (result ++ [c])%list else result) [] containers.

Definition filterContainers (spec : PodLogStreamSpec)
    (containers : list store.Container) : list store.Container :=
  if decide (0 < length (OnlyContainers spec))%nat then
    let only := nameSet (OnlyContainers spec) in
    appendIf (λ c, bool_decide (store.Name c ∈ only)) containers
  else if decide (0 < length (IgnoreContainers spec))%nat then
    let ignore := nameSet (IgnoreContainers spec) in
    appendIf (λ c, negb (bool_decide (store.Name c ∈ ignore))) containers
  else containers.

(** The name check of [ensureStatus], from position [i] on; it runs only
    when both lists have the same length, so [containers[i]] exists. *)
Fixpoint namesMatchFrom (containers : list store.Container) (i : nat)
    (rest : list ContainerLogStreamStatus) : bool :=
  match rest with
  | [] => true
  | cs :: rest' =>
      match containers !! i with
      | None => false
      | Some c =>
          if decide (store.Name c ≠ cls_Name cs) then false
          else namesMatchFrom containers (S i) rest'
      end
  end.

(** [ensureStatus] on the status map of the controller; the map holds
    pointers, so the update of a status is an update of its entry. *)
Definition ensureStatus (statuses : gmap NamespacedName PodLogStreamStatus)
    (streamName : NamespacedName) (containers : list store.Container)
    : gmap NamespacedName PodLogStreamStatus :=
  let '(status, statuses) :=
    match statuses !! streamName with
    | Some status => (status, statuses)
    | None => (mkPodLogStreamStatus [],
               <[streamName := mkPodLogStreamStatus []]> statuses)
    end in
  let isMatching :=
    bool_decide (length containers = length (ContainerStatuses status)) in
  let isMatching :=
    if isMatching then namesMatchFrom containers 0 (ContainerStatuses status)
    else isMatching in
  if isMatching then statuses
  else
    <[streamName :=
        mkPodLogStreamStatus
          (foldl (λ sts c, (sts ++ [mkContainerLogStreamStatus (store.Name c)
                                      false false ""])%list)
                 [] containers)]> statuses.

(** The loop of [mutateStatus], at position [i]; [rest] are the statuses
    still to visit and [sts] the slice being updated. *)
Fixpoint mutateLoop (containerName : ContainerName)
    (mutate : ContainerLogStreamStatus → ContainerLogStreamStatus) (i : nat)
    (rest sts : list ContainerLogStreamStatus) : list ContainerLogStreamStatus :=
  match rest with
  | [] => sts
  | cs :: rest' =>
      if decide (cls_Name cs ≠ containerName) then
        mutateLoop containerName mutate (S i) rest' sts
      else mutateLoop containerName mutate (S i) rest' (<[i := mutate cs]> sts)
  end.

Definition mutateStatus (statuses : gmap NamespacedName PodLogStreamStatus)
    (streamName : NamespacedName) (containerName : ContainerName)
    (mutate : ContainerLogStreamStatus → ContainerLogStreamStatus)
    : gmap NamespacedName PodLogStreamStatus :=
  match statuses !! streamName with
  | None => statuses
  | Some status =>
      <[streamName :=
          mkPodLogStreamStatus
            (mutateLoop containerName mutate 0 (ContainerStatuses status)
               (ContainerStatuses status))]> statuses
  end.

(** The three mutations [Reconcile] and [consumeLogs] apply. *)
Definition markTerminated (cs : ContainerLogStreamStatus) : ContainerLogStreamStatus :=
  mkContainerLogStreamStatus (cls_Name cs) false true "".
Definition markActive (cs : ContainerLogStreamStatus) : ContainerLogStreamStatus :=
  mkContainerLogStreamStatus (cls_Name cs) true (cls_Terminated cs) "".
Definition markError (err : string) (cs : ContainerLogStreamStatus)
    : ContainerLogStreamStatus :=
  mkContainerLogStreamStatus (cls_Name cs) false (cls_Terminated cs) err.

End runtimelog.

(** ** Statements of the specification, in the terms of the embedding *)

Module spec.

Import store.

(** Resolution of one port forward, in the words of the specification: a
    forward with no container port is dropped when the pod exposes no port;
    otherwise it gets the exposed port equal to its local port when there is
    one, and the first exposed port when there is none; a forward with a
    container port is kept as it is. *)
Definition resolveForward (cPorts : list Z) (forward : model.PortForward)
    : option model.PortForward :=
  if decide (model.ContainerPort forward = 0) then
    match cPorts with
    | [] => None
    | first :: _ =>
        Some (model.mkPortForward
                (if decide (model.LocalPort forward ∈ cPorts)
                 then model.LocalPort forward else first)
                (model.LocalPort forward) (model.Host forward)
                (model.Name forward) (model.path forward))
    end
  else Some forward.

(** The restart signal of position [i]: the name of the new container when
    the old list has a container of the same name at that position with a
    strictly smaller restart count. *)
Definition restartSignal (old new : list Container) (i : nat) : option ContainerName :=
  match old !! i, new !! i with
  | Some o, Some c =>
      if decide (Name o = Name c ∧ Restarts o < Restarts c) then Some (Name c)
      else None
  | _, _ => None
  end.




(** The record a resource tracks for a pod, if any. *)
Definition trackedPod (state : EngineState) (mn : ManifestName) (podID : PodID)
    : option Pod :=
  match ManifestTargets state !! mn with
  | Some mt => Pods (RuntimeState (State mt)) !! podID
  | None => None
  end.

(** The pods a resource tracks; none when the manifest is unknown. *)
Definition trackedPods (state : EngineState) (mn : ManifestName) : gmap PodID Pod :=
  match ManifestTargets state !! mn with
  | Some mt => Pods (RuntimeState (State mt))
  | None => ∅
  end.








(** A pod is terminated when its phase is [Succeeded] or [Failed]. *)
Definition terminated (p : Pod) : Prop :=
  Phase p = PodSucceeded ∨ Phase p = PodFailed.

#[global] Instance terminated_dec (p : Pod) : Decision (terminated p).
Proof. unfold terminated. apply _. Defined.

(** The tracked pods are stored under their pod IDs. *)
Definition keyedByID (pods : gmap PodID Pod) : Prop :=
  ∀ k p, pods !! k = Some p → PodID_ p = k.

(** The pod [p], stored under [k], is the most recently created of the
    pods: it was created after every other one, [after] being the order of
    creation. *)
Definition mostRecentIn (after : Pod → Pod → Prop) (pods : gmap PodID Pod)
    (k : PodID) (p : Pod) : Prop :=
  pods !! k = Some p ∧ ∀ k' p', pods !! k' = Some p' → k' ≠ k → after p p'.

(** No pod other than the most recently created one is terminated. *)
Definition terminatedAreMostRecent (after : Pod → Pod → Prop)
    (pods : gmap PodID Pod) : Prop :=
  ∀ k p, pods !! k = Some p → terminated p → mostRecentIn after pods k p.

(** Modelled from the spec: [MostRecentPod] is not in the sources at hand;
    for a resource that tracks pods under their IDs it returns the most
    recently created of them. *)
Definition returnsMostRecent (after : Pod → Pod → Prop) (api : Collaborators) : Prop :=
  ∀ ms, keyedByID (Pods (RuntimeState ms)) → Pods (RuntimeState ms) ≠ ∅ →
        ∃ k, mostRecentIn after (Pods (RuntimeState ms)) k (MostRecentPod api ms).

(** The pruning invariant in the words of the specification: at most one
    tracked pod, unless several pods that are not terminated exist. *)
Definition atMostOneUnlessSeveralLive (pods : gmap PodID Pod) : Prop :=
  (size pods ≤ 1)%nat
  ∨ (2 ≤ size (filter (λ kv : PodID * Pod, ¬ terminated kv.2) pods))%nat.

(** The descendant index after triage of the object [uid] with owner chain
    [owners], as the specification words it for pods and events alike: the
    object is recorded under every UID of the chain other than its own, and
    nothing is recorded under its own UID. *)
Definition recordedExceptSelf (uid : UID) (owners : list UID)
    (before after : gmap UID (gset UID)) : Prop :=
  (∀ a, a ∈ owners → a ≠ uid → uid ∈ k8swatch.descendants after a)
  ∧ after !! uid = before !! uid.

End spec.

(** ** Reference collaborators

    One implementation of the functions the development is parametric in,
    used to run the embedded code on concrete inputs. *)

Module fixtures.

Import store.

Definition laterPod (best : Pod) (kv : PodID * Pod) : Pod :=
  if bool_decide (StartedAt best < StartedAt kv.2) then kv.2 else best.

(** Modelled from the spec: [MostRecentPod] is not in the sources at hand;
    it is the most recently created tracked pod of the resource, and the
    zero pod when the resource tracks none. *)
Definition MostRecentPod (ms : ManifestState) : Pod :=
  match map_to_list (Pods (RuntimeState ms)) with
  | [] => zeroPod
  | kv :: rest => foldl laterPod kv.2 rest
  end.

Definition AllContainerRestarts (p : Pod) : Z :=
  foldl (λ n c, n + Restarts c) 0 (Containers p).

Definition AllContainersReady (p : Pod) : bool :=
  bool_decide (Containers p ≠ []) && forallb Ready (Containers p).

Definition AllContainerPorts (p : Pod) : list Z :=
  concat (map Ports (Containers p)).

Definition AllRunningContainers (mt : ManifestTarget) : list ContainerInfo :=
  let pod := MostRecentPod (State mt) in
  omap (λ c, if Running c && bool_decide (ID c ≠ "")
             then Some (mkContainerInfo (PodID_ pod) (ID c) (Name c) (Namespace_ pod))
             else None)
       (Containers pod).

(** Modelled from the spec: [Targets] is not in the sources at hand; the
    targets are listed in manifest definition order. *)
Definition Targets (st : EngineState) : list ManifestTarget :=
  omap (λ mn, ManifestTargets st !! mn) (ManifestDefinitionOrder st).

Definition PodContainers (pod : v1.Pod) (statuses : list v1.ContainerStatus)
    : list Container :=
  map (λ cs, mkContainer (v1.cs_Name cs) (v1.cs_ContainerID cs) []
               (v1.cs_Ready cs) (v1.cs_Running cs) (v1.cs_Terminated cs)
               (v1.cs_RestartCount cs))
      statuses.

Definition api : Collaborators :=
  mkCollaborators MostRecentPod AllContainerRestarts AllContainersReady
    AllContainerPorts AllRunningContainers (λ _ _, true) Targets PodContainers
    v1.Name v1.Namespace_ (λ podID, "pod:" ++ podID) v1.Phase (λ _, []).

(** The order of creation: a later creation time, and among pods created
    at the same instant the greater pod ID. *)
Definition createdAfter (p q : Pod) : Prop :=
  StartedAt q < StartedAt p
  ∨ (StartedAt q = StartedAt p ∧ String.ltb (PodID_ q) (PodID_ p) = true).

#[global] Instance createdAfter_dec (p q : Pod) : Decision (createdAfter p q).
Proof. unfold createdAfter. apply _. Defined.

Definition newerPod (best : Pod) (kv : PodID * Pod) : Pod :=
  if decide (createdAfter kv.2 best) then kv.2 else best.

(** Modelled from the spec: [MostRecentPod], with the pod ID deciding among
    pods created at the same instant. *)
Definition MostRecentByCreation (ms : ManifestState) : Pod :=
  match map_to_list (Pods (RuntimeState ms)) with
  | [] => zeroPod
  | kv :: rest => foldl newerPod kv.2 rest
  end.

Definition apiByCreation : Collaborators :=
  mkCollaborators MostRecentByCreation AllContainerRestarts AllContainersReady
    AllContainerPorts AllRunningContainers (λ _ _, true) Targets PodContainers
    v1.Name v1.Namespace_ (λ podID, "pod:" ++ podID) v1.Phase (λ _, []).

(** A resource with two terminated pods and one running pod, the running
    pod being the most recently created. *)
Definition terminatedPod (podID : PodID) (startedAt : Time) : Pod :=
  mkPod podID "default" startedAt "Completed" PodSucceeded false [] [] [] [] 0 "".

Definition runningPod (podID : PodID) (startedAt : Time) : Pod :=
  mkPod podID "default" startedAt "Running" PodRunning false [] [] []
    [mkContainer "app" "c-1" [8080] true true false 0] 0 "".

Definition threePods : gmap PodID Pod :=
  <["job-1" := terminatedPod "job-1" 1]>
    (<["job-2" := terminatedPod "job-2" 2]> {["web-3" := runningPod "web-3" 3]}).

Definition rollout : ManifestState :=
  mkManifestState "foo" (mkK8sRuntimeState threePods "U1" {["U1"]} 0)
    false ∅ "build:1".

(** A resource whose running pod [web-1] is older than its pod [job-2],
    which has succeeded. *)
Definition jobBesideWeb : ManifestState :=
  mkManifestState "foo"
    (mkK8sRuntimeState
       (<["job-2" := terminatedPod "job-2" 2]> {["web-1" := runningPod "web-1" 1]})
       "U1" {["U1"]} 0)
    false ∅ "build:1".

(** A forward from a local port, to be resolved against the pod's ports. *)
Definition forwardFrom (localPort : Z) : model.PortForward :=
  model.mkPortForward 0 localPort "localhost" "" "".

(** A target of one running pod exposing port 8080, with one forward. *)
Definition targetWithPod (mn : ManifestName) (ns : Namespace) (podID : PodID)
    (localPort : Z) : ManifestTarget :=
  mkManifestTarget
    (model.mkManifest mn [forwardFrom localPort])
    (mkManifestState mn
       (mkK8sRuntimeState
          {[podID := mkPod podID ns 1 "Running" PodRunning false [] [] []
                       [mkContainer "app" "c-1" [8080] true true false 0] 0 ""]}
          "U1" {["U1"]} 0)
       false ∅ "build:1").


(** Two resources with pods of different names. *)
Definition distinctPodIDs : EngineState :=
  mkEngineState
    (<["frontend" := targetWithPod "frontend" "ns-a" "web-0" 8000]>
       {["backend" := targetWithPod "backend" "ns-b" "db-0" 9000]})
    ["frontend"; "backend"] [].

Definition idle : portforward.Controller := portforward.mkController ∅.

(** Resource [foo], deployed with UID [U1], tracks pod [P1] whose container
    [app] has not restarted. *)
Definition trackedP1 : Pod :=
  mkPod "P1" "default" 1 "Running" PodRunning false [] [] []
    [mkContainer "app" "c-1" [] true true false 0] 0 "pod:P1".

Definition fooTarget (deployed : gset UID) (liveUpdated : gset ContainerID)
    : ManifestTarget :=
  mkManifestTarget (model.mkManifest "foo" [])
    (mkManifestState "foo"
       (mkK8sRuntimeState {["P1" := trackedP1]} "U1" deployed 0)
       false liveUpdated "build:1").

Definition fooState (deployed : gset UID) : EngineState :=
  mkEngineState {["foo" := fooTarget deployed ∅]} ["foo"] [].


(** Resource [foo], deployed with UID [U1], before any of its pods was
    observed. *)
Definition freshFoo : EngineState :=
  mkEngineState
    {["foo" := mkManifestTarget (model.mkManifest "foo" [])
                 (mkManifestState "foo" (mkK8sRuntimeState ∅ "" {["U1"]} 0)
                    false ∅ "build:1")]}
    ["foo"] [].

(** An observation of pod [podID], created at [created], in phase [phase]. *)
Definition observedAt (podID : PodID) (created : Time) (phase : PodPhase) : v1.Pod :=
  v1.mkPod podID ("uid-" ++ podID) "default" ∅ created None phase [] []
    [v1.mkContainerStatus "app" "c-1" true true false 0].

(** Resource [foo] after its running pod [web-1] and then its newer pod
    [job-2], which has succeeded, were observed. *)
Definition webThenJob : EngineState :=
  let observe pod := k8swatch.mkPodChangeAction pod "foo" "U1" in
  let state :=
    (engine.handlePodChangeAction apiByCreation range_canonical 0 freshFoo
       (observe (observedAt "web-1" 1 PodRunning))).1 in
  (engine.handlePodChangeAction apiByCreation range_canonical 0 state
     (observe (observedAt "job-2" 2 PodSucceeded))).1.

(** An observation of pod [podID] whose container [app] restarted
    [restarts] times. *)
Definition observedPod (podID : PodID) (restarts : Z) : v1.Pod :=
  v1.mkPod podID ("uid-" ++ podID) "default" ∅ 1 None PodRunning [] []
    [v1.mkContainerStatus "app" "c-1" true true false restarts].

(** A pod watcher that knows the deployment UID of resource [foo] and an
    extra selector of resource [bar] on the label [app=bar]. *)
Definition barSelector : k8swatch.Selector :=
  k8swatch.mkSelector (λ podLabels, bool_decide (podLabels !! "app" = Some "bar")).

Definition watcher : k8swatch.PodWatcher :=
  k8swatch.mkPodWatcher [k8swatch.mkExtraSelector "bar" barSelector]
    (k8swatch.mkWatcherKnownState {["U-deploy" := "foo"]}) ∅ ∅.

(** The owner chain of a pod of a replica set of a deployment. *)
Definition chainOf (podUID : UID) : k8swatch.ObjectRefTree :=
  k8swatch.mkObjectRefTree [podUID; "U-rs"; "U-deploy"].

(** A pod watcher that has seen nothing yet, and an event manager likewise. *)
Definition emptyWatcher : k8swatch.PodWatcher :=
  k8swatch.mkPodWatcher [] (k8swatch.mkWatcherKnownState ∅) ∅ ∅.

Definition emptyManager : k8swatch.EventWatchManager :=
  k8swatch.mkEventWatchManager (k8swatch.mkWatcherKnownState ∅) ∅ ∅.

Definition backOff : v1.Event := v1.mkEvent "web.17" "uid-E1" "Warning" "BackOff".

(** Pod [P1] observed with a deletion timestamp. *)
Definition deletedPod : v1.Pod :=
  v1.mkPod "P1" "uid-P1" "default" ∅ 1 (Some 5) PodRunning [] []
    [v1.mkContainerStatus "app" "c-1" true true false 0].

Definition webStream : string * string := ("default", "web").

Definition appContainer : Container :=
  mkContainer "app" "c-1" [8080] true true false 0.

(** [fmt.Sprintf("%d", n)] *)
Definition itoa (n : Z) : string := pretty n.

Definition runningState : corev1.ContainerState := corev1.mkContainerState None None.

Definition waitingState (reason : string) : corev1.ContainerState :=
  corev1.mkContainerState (Some (corev1.mkWaiting reason "")) None.

Definition exitedState (code : Z) : corev1.ContainerState :=
  corev1.mkContainerState None (Some (corev1.mkTerminated code 0 "" "")).

Definition containerIn (state : corev1.ContainerState) : corev1.ContainerStatus :=
  corev1.mkContainerStatus state runningState.

(** A pod whose second init container has not started. *)
Definition initializingPod : corev1.Pod :=
  corev1.mkPod "Pending" ""
    [containerIn (exitedState 0); containerIn (waitingState "PodInitializing")]
    [containerIn (waitingState "PodInitializing")] 2.

(** A pod whose first container is in a crash loop and whose second runs. *)
Definition crashingPod : corev1.Pod :=
  corev1.mkPod "Running" "" [containerIn (exitedState 0)]
    [containerIn (waitingState "CrashLoopBackOff"); containerIn runningState] 1.

Definition healthyPod : corev1.Pod :=
  corev1.mkPod "Running" "" [containerIn (exitedState 0)]
    [containerIn runningState; containerIn runningState] 1.

End fixtures.

(** * Theorems *)

Import store engine.

Lemma range_canonical_ok : range_ok range_canonical.
Proof. intros V m. reflexivity. Qed.

(** ** Resolving port forwards *)

Section PopulatePortForwards.
Context (api : Collaborators).

Lemma matchLocalPort_spec (localPort : Z) (cPorts : list Z) (current : Z) :
  portforward.matchLocalPort localPort cPorts current
  = if decide (localPort ∈ cPorts) then localPort else current.
Proof.
  induction cPorts as [|cPort rest IH]; simpl.
  - destruct (decide (localPort ∈ [])) as [Hin|_]; [inversion Hin | done].
  - destruct (decide (localPort = cPort)) as [->|Hne].
    + rewrite decide_True; [done | by left].
    + rewrite IH. destruct (decide (localPort ∈ rest)) as [Hin|Hnin].
      * rewrite decide_True; [done | by right].
      * rewrite decide_False; [done |].
        intros [?|?]%elem_of_cons; contradiction.
Qed.

Lemma populateLoop_spec (cPorts : list Z) (fwds acc : list model.PortForward) :
  portforward.populateLoop cPorts fwds acc
  = (acc ++ omap (spec.resolveForward cPorts) fwds)%list.
Proof.
  revert acc. induction fwds as [|forward rest IH]; intros acc; simpl.
  - by rewrite app_nil_r.
  - unfold spec.resolveForward at 1.
    destruct (decide (model.ContainerPort forward = 0)) as [Hz|Hnz].
    + destruct cPorts as [|first ports]; [apply IH |].
      rewrite IH, matchLocalPort_spec, <- app_assoc. done.
    + rewrite IH, <- app_assoc. done.
Qed.

(** C10. [populatePortForwards] maps the manifest's forwards, in their
    order, through the resolution of the specification: a forward without a
    container port is dropped when the pod exposes no port, and otherwise
    gets the exposed port equal to its local port, or the first exposed
    port; a forward with a container port is kept unchanged. *)
Theorem populatePortForwards_resolves (m : model.Manifest) (pod : Pod) :
  portforward.populatePortForwards api m pod
  = omap (spec.resolveForward (AllContainerPorts api pod)) (model.PortForwards m).
Proof.
  unfold portforward.populatePortForwards. by rewrite populateLoop_spec.
Qed.

End PopulatePortForwards.

(** ** Restart detection *)

Section RestartedContainerNames.





(** A position whose container changed its name gives no signal. *)
Lemma restartSignal_renamed (old new : list Container) (i : nat) (o c : Container) :
  old !! i = Some o → new !! i = Some c → Name o ≠ Name c →
  spec.restartSignal old new i = None.
Proof.
  intros Ho Hc Hne. unfold spec.restartSignal. rewrite Ho, Hc.
  rewrite decide_False; [done | intros [? _]; done].
Qed.

End RestartedContainerNames.

(** ** Matching, tracking and crash detection *)

Section Reducers.
Context (api : Collaborators) (range : range_order) (now : Time).

(** C6. A pod change that names an unknown manifest, or carries a matched
    ancestor UID that is not in the deployed UID set of its manifest, leaves
    the engine state as it is and writes nothing to the logger. *)
Theorem handlePodChangeAction_stale_is_noop
    (state : EngineState) (action : k8swatch.PodChangeAction) :
  (ManifestTargets state !! k8swatch.ManifestName_ action = None
   ∨ ∃ mt, ManifestTargets state !! k8swatch.ManifestName_ action = Some mt
           ∧ k8swatch.MatchedAncestorUID action ≠ ""
           ∧ k8swatch.MatchedAncestorUID action
               ∉ DeployedUIDSet (RuntimeState (State mt))) →
  handlePodChangeAction api range now state action = (state, []).
Proof.
  intros Hstale.
  assert (Hnone : matchPodChangeToManifest state action = None).
  { unfold matchPodChangeToManifest.
    destruct Hstale as [-> | (mt & -> & Hne & Hnin)]; [done |].
    unfold Contains.
    rewrite (bool_decide_eq_true_2 _ Hne), (bool_decide_eq_false_2 _ Hnin).
    done. }
  unfold handlePodChangeAction. by rewrite Hnone.
Qed.

(** C5. For a pod of the current deploy, when the resource tracks no
    ancestor yet, or the action carries a matched ancestor different from
    the tracked one, [maybeTrackPod] replaces the tracked pods by the new
    record of the incoming pod alone, adopts the action's ancestor, and
    reports the pod as new. *)
Theorem maybeTrackPod_new_ancestor_drops_tracked_pods
    (ms : ManifestState) (action : k8swatch.PodChangeAction) :
  HasOKPodTemplateSpecHash api (RuntimeState ms) (k8swatch.Pod action) = true →
  (PodAncestorUID (RuntimeState ms) = ""
   ∨ (k8swatch.MatchedAncestorUID action ≠ ""
      ∧ PodAncestorUID (RuntimeState ms) ≠ k8swatch.MatchedAncestorUID action)) →
  let podID := PodIDFromPod api (k8swatch.Pod action) in
  maybeTrackPod api ms action
  = (withRuntimeState
       (withPods (<[podID := newPod podID]> ∅)
          (withPodAncestorUID (k8swatch.MatchedAncestorUID action)
             (withPods ∅ (RuntimeState ms))))
       ms,
     Some (newPod podID), true).
Proof.
  intros Hcur Hreset podID. unfold maybeTrackPod. rewrite Hcur. simpl.
  assert (Hcond :
    bool_decide (PodAncestorUID (RuntimeState ms) = "")
    || (bool_decide (k8swatch.MatchedAncestorUID action ≠ "")
        && bool_decide (PodAncestorUID (RuntimeState ms)
                        ≠ k8swatch.MatchedAncestorUID action)) = true).
  { destruct Hreset as [Hempty | [Hne Hdiff]].
    - by rewrite (bool_decide_eq_true_2 _ Hempty).
    - rewrite (bool_decide_eq_true_2 _ Hne), (bool_decide_eq_true_2 _ Hdiff).
      by rewrite orb_true_r. }
  rewrite Hcond. simpl. rewrite lookup_empty. done.
Qed.

Lemma hitList_difference (ms : ManifestState) (running : list ContainerInfo) :
  hitList ms running
  = LiveUpdatedContainerIDs ms ∖ list_to_set (map ci_ContainerID running).
Proof.
  unfold hitList. generalize (LiveUpdatedContainerIDs ms) as h.
  induction running as [|c rest IH]; intros h; simpl.
  - set_solver.
  - rewrite IH. set_solver.
Qed.

(** C7. For a target not yet flagged as needing a rebuild from crash: when
    some live-updated container is not among the running containers,
    [checkForContainerCrash] sets the flag and empties the live-updated set;
    when every live-updated container is running, the target is unchanged
    and nothing is logged. *)
Theorem checkForContainerCrash_flags_missing_container (mt : ManifestTarget) :
  NeedsRebuildFromCrash (State mt) = false →
  let running := map ci_ContainerID (AllRunningContainers api mt) in
  let mt' := (checkForContainerCrash api mt).1 in
  ((∃ cID, cID ∈ LiveUpdatedContainerIDs (State mt) ∧ cID ∉ running) →
     NeedsRebuildFromCrash (State mt') = true
     ∧ LiveUpdatedContainerIDs (State mt') = ∅)
  ∧ ((∀ cID, cID ∈ LiveUpdatedContainerIDs (State mt) → cID ∈ running) →
     checkForContainerCrash api mt = (mt, [])).
Proof.
  intros Hflag running mt'. subst mt'. unfold checkForContainerCrash.
  rewrite Hflag, hitList_difference. fold running.
  destruct (decide (size (LiveUpdatedContainerIDs (State mt)
                          ∖ list_to_set running) = 0%nat)) as [Hz|Hnz].
  - apply size_empty_inv in Hz. split; [| done].
    intros (cID & Hin & Hnin). exfalso.
    apply (not_elem_of_empty (C := gset string) cID).
    rewrite <- (leibniz_equiv _ _ Hz). set_solver.
  - split; [done |].
    intros Hall. exfalso. apply Hnz. apply size_empty_iff.
    intros cID. rewrite elem_of_difference, elem_of_list_to_set.
    split; [| set_solver]. intros [Hin Hnin]. exfalso. by apply Hnin, Hall.
Qed.

End Reducers.

(** ** Restart notifications of a pod change *)

Section PodChange.
Context (api : Collaborators) (range : range_order) (now : Time).

Lemma LogStore_handleLogActions (state : EngineState) (les : list LogAction) :
  LogStore (foldl handleLogAction state les) = (LogStore state ++ les)%list.
Proof.
  revert state. induction les as [|le les IH]; intros state; simpl.
  - by rewrite app_nil_r.
  - rewrite IH. simpl. by rewrite <- app_assoc.
Qed.

Lemma ManifestTargets_handleLogActions (state : EngineState) (les : list LogAction) :
  ManifestTargets (foldl handleLogAction state les) = ManifestTargets state.
Proof.
  revert state. induction les as [|le les IH]; intros state; simpl; [done |].
  by rewrite IH.
Qed.



Lemma checkForContainerCrash_Pods (mt : ManifestTarget) :
  Pods (RuntimeState (State (checkForContainerCrash api mt).1))
  = Pods (RuntimeState (State mt)).
Proof.
  unfold checkForContainerCrash.
  destruct (NeedsRebuildFromCrash (State mt)); [done |].
  destruct (decide _); done.
Qed.


End PodChange.

(** ** Triage *)

Section Triage.

Import k8swatch.

Lemma findDeployed_first (known : gmap UID ManifestName)
    (pre post : list UID) (u : UID) (mn : ManifestName) :
  (∀ a, a ∈ pre → known !! a = None) → known !! u = Some mn →
  findDeployed known (pre ++ u :: post) = Some (mn, u).
Proof.
  intros Hpre Hu. induction pre as [|a pre IH]; simpl.
  - by rewrite Hu.
  - rewrite (Hpre a) by left. apply IH. intros b Hb. apply Hpre. by right.
Qed.

Lemma findDeployed_none (known : gmap UID ManifestName) (owners : list UID) :
  (∀ a, a ∈ owners → known !! a = None) → findDeployed known owners = None.
Proof.
  intros Hall. induction owners as [|a owners IH]; simpl; [done |].
  rewrite (Hall a) by left. apply IH. intros b Hb. apply Hall. by right.
Qed.

Lemma findSelector_first (pre post : list ExtraSelector) (sel : ExtraSelector)
    (podLabels : gmap string string) :
  (∀ s, s ∈ pre → Matches (labels s) podLabels = false) →
  Matches (labels sel) podLabels = true →
  findSelector (pre ++ sel :: post) podLabels = Some (name sel).
Proof.
  intros Hpre Hsel. induction pre as [|s pre IH]; simpl.
  - by rewrite Hsel.
  - rewrite (Hpre s) by left. apply IH. intros b Hb. apply Hpre. by right.
Qed.

Lemma findSelector_none (selectors : list ExtraSelector)
    (podLabels : gmap string string) :
  (∀ s, s ∈ selectors → Matches (labels s) podLabels = false) →
  findSelector selectors podLabels = None.
Proof.
  intros Hall. induction selectors as [|s selectors IH]; simpl; [done |].
  rewrite (Hall s) by left. apply IH. intros b Hb. apply Hall. by right.
Qed.

(** C3. Triage of a pod returns the manifest mapped to the first UID of the
    owner chain (nearest first) that the deployed-UID index knows, with
    that UID; when the index knows no UID of the chain, the name of the
    first extra selector matching the pod's labels, with the empty UID; and
    the empty name and UID when nothing matches, in which case a pod that
    was upserted is still in the known-pods index. *)
Theorem triagePodTree_matches_first_ancestor
    (w : PodWatcher) (pod : v1.Pod) (objTree : ObjectRefTree) :
  let known := knownDeployedUIDs (pw_watcherKnownState w) in
  let unknownChain := ∀ a, a ∈ UIDs objTree → known !! a = None in
  (∀ pre u post mn,
     UIDs objTree = (pre ++ u :: post)%list →
     (∀ a, a ∈ pre → known !! a = None) → known !! u = Some mn →
     (triagePodTree w pod objTree).2 = (mn, u))
  ∧ (∀ pre sel post,
       unknownChain →
       extraSelectors w = (pre ++ sel :: post)%list →
       (∀ s, s ∈ pre → Matches (labels s) (v1.Labels pod) = false) →
       Matches (labels sel) (v1.Labels pod) = true →
       (triagePodTree w pod objTree).2 = (name sel, ""))
  ∧ (unknownChain →
     (∀ s, s ∈ extraSelectors w → Matches (labels s) (v1.Labels pod) = false) →
     (triagePodTree w pod objTree).2 = ("", "")
     ∧ knownPods (triagePodTree (upsertPod w pod) pod objTree).1 !! v1.UID_ pod
       = Some pod).
Proof.
  intros known unknownChain. unfold triagePodTree. fold known.
  split; [| split].
  - intros pre u post mn Hchain Hpre Hu.
    by rewrite Hchain, (findDeployed_first known pre post u mn Hpre Hu).
  - intros pre sel post Hunknown Hsels Hpre Hsel.
    rewrite (findDeployed_none known _ Hunknown), Hsels.
    by rewrite (findSelector_first pre post sel _ Hpre Hsel).
  - intros Hunknown Hnosel.
    rewrite (findDeployed_none known _ Hunknown).
    rewrite (findSelector_none _ _ Hnosel). split; [done |].
    simpl. fold known. rewrite (findDeployed_none known _ Hunknown).
    rewrite (findSelector_none _ _ Hnosel). simpl. apply lookup_insert_eq.
Qed.

Lemma descendants_addDescendant (uid ownerUID a : UID) (index : gmap UID (gset UID)) :
  descendants (addDescendant uid ownerUID index) a
  = if decide (ownerUID = a) then descendants index a ∪ {[uid]}
    else descendants index a.
Proof.
  unfold descendants, addDescendant.
  destruct (decide (ownerUID = a)) as [->|Hne].
  - destruct (index !! a) as [set|]; rewrite lookup_insert_eq; simpl; set_solver.
  - destruct (index !! ownerUID) as [set|]; by rewrite lookup_insert_ne.
Qed.

Lemma indexPodDescendant_descendants (uid a : UID) (owners : list UID)
    (index : gmap UID (gset UID)) :
  descendants (indexPodDescendant uid owners index) a
  = if decide (a ∈ owners ∧ a ≠ uid) then descendants index a ∪ {[uid]}
    else descendants index a.
Proof.
  revert index.
  induction owners as [|o owners IH]; intros index; cbn [indexPodDescendant].
  - rewrite decide_False; [done |]. intros [Hin _]. inversion Hin.
  - destruct (decide (uid = o)) as [<-|Hne]; rewrite IH.
    + destruct (decide (a ∈ owners ∧ a ≠ uid)) as [[Hin Ha]|Hn].
      * rewrite decide_True; [done |]. split; [by right | done].
      * rewrite decide_False; [done |]. intros [Hin Ha]. apply Hn.
        apply elem_of_cons in Hin as [->|Hin]; done.
    + rewrite descendants_addDescendant.
      destruct (decide (o = a)) as [->|Hoa].
      * rewrite (decide_True (P := a ∈ a :: owners ∧ a ≠ uid));
          [| split; [by left | done]].
        destruct (decide _); set_solver.
      * destruct (decide (a ∈ owners ∧ a ≠ uid)) as [[Hin Ha]|Hn].
        -- rewrite decide_True; [done |]. split; [by right | done].
        -- rewrite decide_False; [done |]. intros [Hin Ha]. apply Hn.
           apply elem_of_cons in Hin as [->|Hin]; done.
Qed.

Lemma indexPodDescendant_self (uid : UID) (owners : list UID)
    (index : gmap UID (gset UID)) :
  indexPodDescendant uid owners index !! uid = index !! uid.
Proof.
  revert index. induction owners as [|o owners IH]; intros index; simpl; [done |].
  destruct (decide (uid = o)) as [<-|Hne]; rewrite IH; [done |].
  unfold addDescendant. destruct (index !! o); by rewrite lookup_insert_ne.
Qed.

Lemma indexEventDescendant_descendants (uid a : UID) (owners : list UID)
    (index : gmap UID (gset UID)) :
  descendants (indexEventDescendant uid owners index) a
  = if decide (a ∈ owners) then descendants index a ∪ {[uid]}
    else descendants index a.
Proof.
  revert index.
  induction owners as [|o owners IH]; intros index; cbn [indexEventDescendant].
  - rewrite decide_False; [done |]. intros Hin. inversion Hin.
  - rewrite IH, descendants_addDescendant.
    destruct (decide (o = a)) as [->|Hoa].
    + rewrite (decide_True (P := a ∈ a :: owners)) by left.
      destruct (decide _); set_solver.
    + destruct (decide (a ∈ owners)) as [Hin|Hn].
      * rewrite decide_True; [done | by right].
      * rewrite decide_False; [done |].
        intros [->|Hin]%elem_of_cons; done.
Qed.

Lemma triagePodTree_index (w : PodWatcher) (pod : v1.Pod) (objTree : ObjectRefTree) :
  knownDescendentPodUIDs (triagePodTree w pod objTree).1
  = indexPodDescendant (v1.UID_ pod) (UIDs objTree) (knownDescendentPodUIDs w).
Proof.
  unfold triagePodTree.
  destruct (findDeployed _ _) as [[mn u]|]; [done |].
  by destruct (findSelector _ _).
Qed.

Lemma triageEventUpdate_index (m : EventWatchManager) (event : v1.Event)
    (objTree : ObjectRefTree) :
  knownDescendentEventUIDs (triageEventUpdate m event objTree).1
  = indexEventDescendant (v1.ev_UID event) (UIDs objTree)
      (knownDescendentEventUIDs m).
Proof.
  unfold triageEventUpdate. by destruct (findDeployed _ _) as [[mn u]|].
Qed.

Lemma indexEventDescendant_self (uid : UID) (owners : list UID)
    (index : gmap UID (gset UID)) :
  uid ∉ owners → indexEventDescendant uid owners index !! uid = index !! uid.
Proof.
  revert index. induction owners as [|o owners IH]; intros index Hnin; simpl; [done |].
  apply not_elem_of_cons in Hnin as [Hne Hnin]. rewrite IH by done.
  unfold addDescendant. destruct (index !! o); by rewrite lookup_insert_ne.
Qed.

(** C4. Triage records the UID of the observed object in the descendant
    index under every UID of the owner chain other than the object's own,
    and leaves the entry of the object's own UID as it was: for a pod, whose
    chain starts with the pod itself, by the test that skips the pod's own
    UID; for an event, whose chain is that of the involved object and so
    does not hold the event's UID, by every UID of the chain.  In both, the
    descendants recorded under any other UID are unchanged. *)
Theorem triage_records_descendants
    (w : PodWatcher) (pod : v1.Pod) (podTree : ObjectRefTree)
    (m : EventWatchManager) (event : v1.Event) (objTree : ObjectRefTree) :
  v1.ev_UID event ∉ UIDs objTree →
  let podIndex := knownDescendentPodUIDs w in
  let podIndex' := knownDescendentPodUIDs (triagePodTree w pod podTree).1 in
  let eventIndex := knownDescendentEventUIDs m in
  let eventIndex' := knownDescendentEventUIDs (triageEventUpdate m event objTree).1 in
  spec.recordedExceptSelf (v1.UID_ pod) (UIDs podTree) podIndex podIndex'
  ∧ spec.recordedExceptSelf (v1.ev_UID event) (UIDs objTree) eventIndex eventIndex'
  ∧ (∀ a, descendants podIndex' a
          = if decide (a ∈ UIDs podTree ∧ a ≠ v1.UID_ pod)
            then descendants podIndex a ∪ {[v1.UID_ pod]}
            else descendants podIndex a)
  ∧ (∀ a, descendants eventIndex' a
          = if decide (a ∈ UIDs objTree ∧ a ≠ v1.ev_UID event)
            then descendants eventIndex a ∪ {[v1.ev_UID event]}
            else descendants eventIndex a).
Proof.
  intros Hfresh podIndex podIndex' eventIndex eventIndex'.
  subst podIndex' eventIndex'.
  rewrite triagePodTree_index, triageEventUpdate_index.
  assert (Hevent : ∀ a,
    descendants (indexEventDescendant (v1.ev_UID event) (UIDs objTree) eventIndex) a
    = if decide (a ∈ UIDs objTree ∧ a ≠ v1.ev_UID event)
      then descendants eventIndex a ∪ {[v1.ev_UID event]}
      else descendants eventIndex a).
  { intros a. rewrite indexEventDescendant_descendants.
    destruct (decide (a ∈ UIDs objTree)) as [Hin|Hnin].
    - rewrite decide_True; [done |]. split; [done |]. by intros ->.
    - rewrite decide_False; [done |]. by intros [? _]. }
  split; [| split; [| split]].
  - split; [| apply indexPodDescendant_self].
    intros a Hin Hne.
    rewrite indexPodDescendant_descendants, decide_True by done. set_solver.
  - split; [| by apply indexEventDescendant_self].
    intros a Hin Hne. rewrite Hevent, decide_True by done. set_solver.
  - intros a. apply indexPodDescendant_descendants.
  - exact Hevent.
Qed.

End Triage.

(** ** Pruning *)

Section Prune.
Context (api : Collaborators) (range : range_order).
Hypothesis range_perm : range_ok range.

Lemma elem_of_range {V : Type} (m : gmap string V) (k : string) (v : V) :
  (k, v) ∈ range V m ↔ m !! k = Some v.
Proof. by rewrite (range_perm V m), elem_of_map_to_list. Qed.

Lemma pruneDeleting_loop (entries : list (PodID * Pod)) (acc : gmap PodID Pod)
    (k : PodID) :
  foldl (λ acc kv, if Deleting kv.2 then delete kv.1 acc else acc) acc entries !! k
  = if decide (Exists (λ kv, kv.1 = k ∧ Deleting kv.2 = true) entries)
    then None else acc !! k.
Proof.
  revert acc. induction entries as [|[k' p'] entries IH]; intros acc.
  - cbn [foldl]. rewrite decide_False; [done |]. by intros ?%Exists_nil.
  - cbn [foldl]. rewrite IH. cbn [fst snd].
    destruct (decide (Exists _ entries)) as [Hex|Hnex].
    + rewrite decide_True; [done | by right].
    + destruct (Deleting p') eqn:Hdel.
      * destruct (decide (k' = k)) as [->|Hne].
        -- rewrite decide_True; [apply lookup_delete_eq | by left].
        -- rewrite lookup_delete_ne by done.
           rewrite decide_False; [done |].
           intros [[? _]|?]%Exists_cons; done.
      * rewrite decide_False; [done |].
        intros [[_ Hd]|?]%Exists_cons; [simpl in Hd; congruence | done].
Qed.

(** The first loop of [prunePods] removes exactly the pods flagged
    [Deleting], whatever the iteration order. *)
Lemma pruneDeleting_lookup (pods : gmap PodID Pod) (k : PodID) :
  pruneDeleting range pods !! k
  = match pods !! k with
    | Some p => if Deleting p then None else Some p
    | None => None
    end.
Proof.
  unfold pruneDeleting. rewrite pruneDeleting_loop.
  destruct (decide (Exists _ _)) as [Hex|Hnex].
  - apply Exists_exists in Hex as ([k' p] & Hin & Hk & Hdel). simpl in *. subst k'.
    apply elem_of_range in Hin. by rewrite Hin, Hdel.
  - destruct (pods !! k) as [p|] eqn:Hp; [| done].
    destruct (Deleting p) eqn:Hdel; [| done].
    exfalso. apply Hnex, Exists_exists. exists (k, p).
    split; [by apply elem_of_range | done].
Qed.

(** The inner loop of [prunePods] removes one dead pod other than the best
    pod, or nothing when the entries hold no such pod. *)
Lemma pruneOneDead_cases (bestPod : Pod) (entries : list (PodID * Pod))
    (pods : gmap PodID Pod) :
  (∃ k p, (k, p) ∈ entries ∧ isDead p = true ∧ PodID_ p ≠ PodID_ bestPod
          ∧ pruneOneDead bestPod entries pods = delete k pods)
  ∨ ((∀ k p, (k, p) ∈ entries → isDead p = true → PodID_ p = PodID_ bestPod)
     ∧ pruneOneDead bestPod entries pods = pods).
Proof.
  induction entries as [|[k p] entries IH]; cbn [pruneOneDead].
  - right. split; [| done]. intros k p Hin. inversion Hin.
  - destruct (isDead p) eqn:Hdead; cbn [andb].
    + case_bool_decide as Hbest.
      * left. exists k, p. repeat split; [by left | done..].
      * destruct IH as [(k' & p' & Hin & ? & ? & ?) | [Hnone Heq]].
        -- left. exists k', p'. repeat split; [by right | done..].
        -- right. split; [| done].
           intros k' p' [[= -> ->]|Hin]%elem_of_cons; [done | by eapply Hnone].
    + destruct IH as [(k' & p' & Hin & ? & ? & ?) | [Hnone Heq]].
      * left. exists k', p'. repeat split; [by right | done..].
      * right. split; [| done].
        intros k' p' [[= -> ->]|Hin]%elem_of_cons; [congruence | by eapply Hnone].
Qed.

(** After [prunePods] no tracked pod is flagged [Deleting]. *)
Lemma prunePods_drops_deleting (ms : ManifestState) (k : PodID) (p : Pod) :
  Pods (RuntimeState (prunePods api range ms)) !! k = Some p → Deleting p = false.
Proof.
  unfold prunePods. cbv zeta.
  assert (Hfirst : ∀ q, pruneDeleting range (Pods (RuntimeState ms)) !! k = Some q →
                        Deleting q = false).
  { intros q. rewrite pruneDeleting_lookup.
    destruct (Pods (RuntimeState ms) !! k) as [q'|]; [| done].
    destruct (Deleting q') eqn:Hd; [done |]. congruence. }
  destruct (decide _) as [Hlen|Hlen]; simpl; [| apply Hfirst].
  destruct (pruneOneDead_cases
              (MostRecentPod api
                 (withRuntimeState
                    (withPods (pruneDeleting range (Pods (RuntimeState ms)))
                       (RuntimeState ms)) ms))
              (range _ (pruneDeleting range (Pods (RuntimeState ms))))
              (pruneDeleting range (Pods (RuntimeState ms))))
    as [(k' & p' & _ & _ & _ & ->) | [_ ->]]; [| apply Hfirst].
  intros [_ Hp]%lookup_delete_Some. by apply Hfirst.
Qed.

(** [prunePods] removes at most one pod that is not flagged [Deleting]. *)
Lemma prunePods_removes_at_most_one_more (ms : ManifestState) :
  (size (pruneDeleting range (Pods (RuntimeState ms)))
   ≤ S (size (Pods (RuntimeState (prunePods api range ms)))))%nat.
Proof.
  unfold prunePods. cbv zeta.
  destruct (decide _) as [Hlen|Hlen]; simpl; [| lia].
  destruct (pruneOneDead_cases
              (MostRecentPod api
                 (withRuntimeState
                    (withPods (pruneDeleting range (Pods (RuntimeState ms)))
                       (RuntimeState ms)) ms))
              (range _ (pruneDeleting range (Pods (RuntimeState ms))))
              (pruneDeleting range (Pods (RuntimeState ms))))
    as [(k' & p' & _ & _ & _ & ->) | [_ ->]]; [| lia].
  rewrite map_size_delete. destruct (_ !! k'); simpl; lia.
Qed.

Lemma prunePods_cases (ms : ManifestState) :
  let pods1 := pruneDeleting range (Pods (RuntimeState ms)) in
  let pods' := Pods (RuntimeState (prunePods api range ms)) in
  pods' = pods1
  ∨ ∃ k' p', pods1 !! k' = Some p' ∧ isDead p' = true ∧ pods' = delete k' pods1.
Proof.
  intros pods1 pods'. subst pods'. unfold prunePods. cbv zeta. fold pods1.
  destruct (decide _) as [Hlen|Hlen]; cbn [Pods RuntimeState withRuntimeState withPods];
    [| by left].
  match goal with |- context [pruneOneDead ?b ?l ?m] =>
    destruct (pruneOneDead_cases b l m)
      as [(k' & p' & Hin & Hdead & _ & ->) | [_ ->]] end; [| by left].
  right. exists k', p'. by apply elem_of_range in Hin.
Qed.


Lemma prunePods_kept_was_tracked (ms : ManifestState) (k : PodID) (p : Pod) :
  Pods (RuntimeState (prunePods api range ms)) !! k = Some p →
  Pods (RuntimeState ms) !! k = Some p ∧ Deleting p = false.
Proof.
  pose proof (pruneDeleting_lookup (Pods (RuntimeState ms)) k) as H1.
  intros Hk. split; [| by eapply prunePods_drops_deleting].
  destruct (prunePods_cases ms) as [E | (k' & p' & _ & _ & E)]; rewrite E in Hk.
  - rewrite H1 in Hk. destruct (Pods (RuntimeState ms) !! k) as [q|]; [| done].
    by destruct (Deleting q); simplify_eq.
  - apply lookup_delete_Some in Hk as [_ Hk].
    rewrite H1 in Hk. destruct (Pods (RuntimeState ms) !! k) as [q|]; [| done].
    by destruct (Deleting q); simplify_eq.
Qed.

End Prune.

Section PruneAfterWrite.
Context (api : Collaborators) (range : range_order).
Hypothesis range_perm : range_ok range.
Context (after : Pod → Pod → Prop).
Hypothesis after_asym : ∀ p q, after p q → after q p → False.
Hypothesis recent : spec.returnsMostRecent after api.

Lemma isDead_terminated (p : Pod) : isDead p = true ↔ spec.terminated p.
Proof.
  unfold isDead, spec.terminated.
  by rewrite orb_true_iff, !bool_decide_eq_true.
Qed.

Lemma pruneDeleting_filter (pods : gmap PodID Pod) :
  pruneDeleting range pods
  = filter (λ kv : PodID * Pod, Deleting kv.2 = false) pods.
Proof.
  apply map_eq. intros k. rewrite (pruneDeleting_lookup range range_perm).
  destruct (pods !! k) as [p|] eqn:Hp.
  - destruct (Deleting p) eqn:Hd; symmetry.
    + apply map_lookup_filter_None. right. intros p' Hp'. simplify_eq.
      cbn. congruence.
    + by apply map_lookup_filter_Some.
  - symmetry. apply map_lookup_filter_None. by left.
Qed.

Lemma size_le_one_key {V : Type} (m : gmap string V) (k k' : string) (v v' : V) :
  (size m ≤ 1)%nat → m !! k = Some v → m !! k' = Some v' → k = k'.
Proof.
  intros Hsize Hk Hk'. destruct (decide (k = k')) as [| Hne]; [done |]. exfalso.
  assert (Hrest : size (delete k m) ≠ 0%nat).
  { apply (map_size_ne_0_lookup_2 _ k'). rewrite lookup_delete_ne by done. by eexists. }
  rewrite map_size_delete, Hk in Hrest. cbn in Hrest. lia.
Qed.

Lemma size_le_one_of_key {V : Type} (m : gmap string V) :
  (∀ k k' v v', m !! k = Some v → m !! k' = Some v' → k = k') → (size m ≤ 1)%nat.
Proof.
  intros Hone. destruct (map_choose_or_empty m) as [(k & v & Hk) | ->];
    [| rewrite map_size_empty; lia].
  assert (Hrest : delete k m = ∅).
  { destruct (map_choose_or_empty (delete k m)) as [(k' & v' & Hk') | E]; [| done].
    apply lookup_delete_Some in Hk' as [Hne Hk']. by destruct (Hne (Hone _ _ _ _ Hk Hk')). }
  apply map_size_empty_iff in Hrest. rewrite map_size_delete, Hk in Hrest.
  cbn in Hrest. lia.
Qed.

(** What [prunePods] leaves of the pods [live] that its first loop kept,
    when at most one of them is a terminated pod other than the most recent
    one: the pods that are not terminated, and the most recent pod. *)
Lemma prunePods_one_candidate (ms : ManifestState) :
  let live := pruneDeleting range (Pods (RuntimeState ms)) in
  spec.keyedByID live →
  (∀ kb best k1 k2 p1 p2,
     spec.mostRecentIn after live kb best →
     live !! k1 = Some p1 → live !! k2 = Some p2 →
     spec.terminated p1 → spec.terminated p2 → k1 ≠ kb → k2 ≠ kb → k1 = k2) →
  ∀ k p, Pods (RuntimeState (prunePods api range ms)) !! k = Some p
         ↔ live !! k = Some p
           ∧ (¬ spec.terminated p ∨ spec.mostRecentIn after live k p).
Proof.
  intros live Hkeyed Hone k p. unfold prunePods. cbv zeta. fold live.
  destruct (decide _) as [Hlen|Hlen];
    cbn [Pods RuntimeState withRuntimeState withPods] in *.
  - set (ms1 := withRuntimeState (withPods live (RuntimeState ms)) ms).
    destruct (recent ms1) as [kb Hbest]; [done | |].
    { cbn [ms1 Pods RuntimeState withRuntimeState withPods]. intros E.
      unfold PodLen in Hlen.
      cbn [Pods RuntimeState withRuntimeState withPods] in Hlen.
      rewrite E, map_size_empty in Hlen. lia. }
    cbn [ms1 Pods RuntimeState withRuntimeState withPods] in Hbest.
    set (best := MostRecentPod api ms1) in *.
    assert (HbestID : PodID_ best = kb) by (apply Hkeyed, Hbest).
    destruct (pruneOneDead_cases best (range _ live) live)
      as [(k0 & p0 & Hin & Hdead & Hother & ->) | [Hnone ->]].
    + apply (elem_of_range range range_perm) in Hin.
      apply isDead_terminated in Hdead.
      assert (Hk0 : k0 ≠ kb).
      { intros ->. apply Hother. by rewrite (Hkeyed _ _ Hin). }
      rewrite lookup_delete_Some. split.
      * intros [Hne Hk]. split; [done |].
        destruct (decide (spec.terminated p)) as [Hterm|]; [| by left]. right.
        destruct (decide (k = kb)) as [->|Hkb].
        -- destruct Hbest as [Hb ?]. rewrite Hb in Hk. by injection Hk as <-.
        -- by destruct (Hne (Hone kb best k0 k p0 p Hbest Hin Hk Hdead Hterm Hk0 Hkb)).
      * intros [Hk Hkeep]. split; [| done]. intros ->.
        rewrite Hin in Hk. injection Hk as <-.
        destruct Hkeep as [? | [_ Hrecent]]; [done |].
        destruct Hbest as [Hb Hafter].
        apply (after_asym p0 best); [by eapply Hrecent | by eapply Hafter].
    + split; [| by intros [? _]]. intros Hk. split; [done |].
      destruct (decide (spec.terminated p)) as [Hterm|]; [| by left]. right.
      assert (k = kb) as ->.
      { rewrite <- (Hkeyed _ _ Hk), <- HbestID. eapply Hnone.
        - by apply (elem_of_range range range_perm).
        - by apply isDead_terminated. }
      destruct Hbest as [Hb ?]. rewrite Hb in Hk. by injection Hk as <-.
  - split; [| by intros [? _]]. intros Hk. split; [done |].
    destruct (decide (spec.terminated p)) as [Hterm|]; [| by left]. right.
    split; [done |]. intros k' p' Hk' Hne. exfalso. apply Hne.
    apply (size_le_one_key live k' k p' p); [| done..].
    unfold PodLen in Hlen. cbn in Hlen. lia.
Qed.

(** After one record was written to pods among which only the most recent
    one is terminated, at most one pod is a terminated pod other than the
    most recent one. *)
Lemma one_write_one_candidate (pods0 live : gmap PodID Pod) (key : PodID)
    (podInfo : Pod) (kb k1 k2 : PodID) (best p1 p2 : Pod) :
  spec.terminatedAreMostRecent after pods0 →
  (∀ k p, live !! k = Some p → (<[key := podInfo]> pods0) !! k = Some p) →
  spec.mostRecentIn after live kb best →
  live !! k1 = Some p1 → live !! k2 = Some p2 →
  spec.terminated p1 → spec.terminated p2 → k1 ≠ kb → k2 ≠ kb → k1 = k2.
Proof.
  intros Hinv Hsub [Hb Hafter] H1 H2 T1 T2 N1 N2.
  destruct (decide (k1 = k2)) as [| Hne]; [done |]. exfalso.
  assert (Hold : ∀ k p, live !! k = Some p → k ≠ key → pods0 !! k = Some p).
  { intros k p Hk Hkey. apply Hsub in Hk. by rewrite lookup_insert_ne in Hk. }
  destruct (decide (kb = key)) as [->|Hkb].
  - destruct (Hinv k1 p1) as [_ A1]; [by apply Hold | done |].
    destruct (Hinv k2 p2) as [_ A2]; [by apply Hold | done |].
    apply (after_asym p1 p2); [eapply A1 | eapply A2]; eauto.
  - assert (Hcase : ∃ k p, live !! k = Some p ∧ spec.terminated p ∧ k ≠ kb ∧ k ≠ key).
    { destruct (decide (k1 = key)) as [->|]; [exists k2, p2 | exists k1, p1]; eauto. }
    destruct Hcase as (k & p & Hk & Hterm & Hnb & Hnk).
    destruct (Hinv k p) as [_ A]; [by apply Hold | done |].
    apply (after_asym p best); [eapply A | eapply Hafter]; eauto.
Qed.

(** Among pods of which only the most recent one is terminated, at most
    one is terminated. *)
Lemma at_most_one_terminated (pods : gmap PodID Pod) :
  spec.terminatedAreMostRecent after pods →
  (size (filter (λ kv : PodID * Pod, spec.terminated kv.2) pods) ≤ 1)%nat.
Proof.
  intros Hrecent. apply size_le_one_of_key. intros k k' p p'.
  intros [Hk Hterm]%map_lookup_filter_Some [Hk' Hterm']%map_lookup_filter_Some.
  cbn in Hterm, Hterm'.
  destruct (decide (k = k')) as [| Hne]; [done |]. exfalso.
  destruct (Hrecent k p Hk Hterm) as [_ A].
  destruct (Hrecent k' p' Hk' Hterm') as [_ A'].
  apply (after_asym p p'); [eapply A | eapply A']; eauto.
Qed.

(** One record written to pods of which only the most recent one was
    terminated: [prunePods] leaves the pods not flagged [Deleting] that are
    not terminated or are the most recent of those. *)
Lemma prunePods_one_write
    (ms : ManifestState) (pods0 : gmap PodID Pod) (key : PodID) (podInfo : Pod) :
  let pods := Pods (RuntimeState ms) in
  let pods' := Pods (RuntimeState (prunePods api range ms)) in
  pods = <[key := podInfo]> pods0 → PodID_ podInfo = key →
  spec.keyedByID pods0 → spec.terminatedAreMostRecent after pods0 →
  let live := filter (λ kv : PodID * Pod, Deleting kv.2 = false) pods in
  (∀ k p, pods' !! k = Some p
          ↔ live !! k = Some p
            ∧ (¬ spec.terminated p ∨ spec.mostRecentIn after live k p))
  ∧ spec.keyedByID pods'
  ∧ spec.terminatedAreMostRecent after pods'.
Proof.
  intros pods pods' Hwritten HID Hkeyed0 Hinv0 live.
  assert (Hkeyed : spec.keyedByID pods).
  { intros k p. rewrite Hwritten.
    intros [[<- <-] | [_ Hk]]%lookup_insert_Some; [done | by apply Hkeyed0]. }
  assert (Hlive : ∀ k p, live !! k = Some p → pods !! k = Some p).
  { intros k p Hk. by apply map_lookup_filter_Some in Hk as [? _]. }
  assert (Hchar : ∀ k p, pods' !! k = Some p
                         ↔ live !! k = Some p
                           ∧ (¬ spec.terminated p ∨ spec.mostRecentIn after live k p)).
  { subst pods' live. rewrite <- pruneDeleting_filter.
    apply prunePods_one_candidate.
    - rewrite pruneDeleting_filter. intros k p Hk. by apply Hkeyed, Hlive.
    - intros kb best k1 k2 p1 p2. rewrite pruneDeleting_filter.
      apply (one_write_one_candidate pods0 _ key podInfo); [done |].
      intros k p Hk. rewrite <- Hwritten. by apply Hlive. }
  split; [exact Hchar |]. split.
  - intros k p Hk. apply Hchar in Hk as [Hk _]. by apply Hkeyed, Hlive.
  - intros k p Hk Hterm. split; [done |]. intros k' p' Hk' Hne.
    apply Hchar in Hk as [_ [? | [_ Hafter]]]; [done |].
    apply Hchar in Hk' as [Hk' _]. by eapply Hafter.
Qed.

(** C1. [prunePods] removes every pod flagged [Deleting], adds or changes
    no pod, and keeps every other pod that is not terminated.  When the
    tracked pods are pods among which only the most recently created one was
    terminated, with one record written since (the state in which
    [handlePodChangeAction] prunes), the pods left are exactly the pods not
    flagged [Deleting] that are not terminated or are the most recently
    created of those; so only the most recently created pod is terminated
    again, and at most one tracked pod is terminated. *)
Theorem prunePods_after_one_write
    (ms : ManifestState) (pods0 : gmap PodID Pod) (key : PodID) (podInfo : Pod) :
  let pods := Pods (RuntimeState ms) in
  let pods' := Pods (RuntimeState (prunePods api range ms)) in
  (∀ k p, pods' !! k = Some p → pods !! k = Some p ∧ Deleting p = false)
  ∧ (∀ k p, pods !! k = Some p → Deleting p = false → ¬ spec.terminated p →
            pods' !! k = Some p)
  ∧ (pods = <[key := podInfo]> pods0 → PodID_ podInfo = key →
     spec.keyedByID pods0 → spec.terminatedAreMostRecent after pods0 →
     let live := filter (λ kv : PodID * Pod, Deleting kv.2 = false) pods in
     (∀ k p, pods' !! k = Some p
             ↔ live !! k = Some p
               ∧ (¬ spec.terminated p ∨ spec.mostRecentIn after live k p))
     ∧ spec.keyedByID pods'
     ∧ spec.terminatedAreMostRecent after pods'
     ∧ (size (filter (λ kv : PodID * Pod, spec.terminated kv.2) pods') ≤ 1)%nat).
Proof.
  intros pods pods'. split; [| split].
  - intros k p. apply (prunePods_kept_was_tracked api range range_perm).
  - intros k p Hk Hdel Hlive. subst pods'.
    pose proof (pruneDeleting_lookup range range_perm pods k) as H1.
    rewrite Hk, Hdel in H1.
    destruct (prunePods_cases api range range_perm ms)
      as [E | (k' & p' & Hk' & Hdead & E)]; rewrite E; [done |].
    rewrite lookup_delete_ne; [done |]. intros ->.
    apply isDead_terminated in Hdead. fold pods in Hk'. congruence.
  - intros Hwritten HID Hkeyed0 Hinv0 live.
    destruct (prunePods_one_write ms pods0 key podInfo Hwritten HID Hkeyed0 Hinv0)
      as (Hchar & Hkeyed & Hrecent).
    split; [exact Hchar |]. split; [exact Hkeyed |]. split; [exact Hrecent |].
    by apply at_most_one_terminated.
Qed.

End PruneAfterWrite.

(** The reference order of creation, and the pod it makes the most recent
    one. *)
Section OrderOfCreation.

Import fixtures.

Lemma ltb_lt (a b : string) : String.ltb a b = true ↔ String_as_OT.lt a b.
Proof.
  rewrite <- String_as_OT.cmp_lt. unfold String.ltb, String_as_OT.cmp.
  by destruct (String.compare a b).
Qed.

Lemma createdAfter_asym (p q : Pod) : createdAfter p q → createdAfter q p → False.
Proof.
  intros [? | [? Hpq%ltb_lt]] [? | [? Hqp%ltb_lt]]; try lia.
  by apply (String_as_OT.lt_not_eq _ _ (String_as_OT.lt_trans _ _ _ Hpq Hqp)).
Qed.

Lemma createdAfter_trans (p q r : Pod) :
  createdAfter p q → createdAfter q r → createdAfter p r.
Proof.
  intros [? | [? Hpq%ltb_lt]] [? | [? Hqr%ltb_lt]];
    [left; lia | left; lia | left; lia |].
  right. split; [lia |]. apply ltb_lt. by eapply String_as_OT.lt_trans.
Qed.

Lemma createdAfter_total (p q : Pod) :
  PodID_ p ≠ PodID_ q → createdAfter p q ∨ createdAfter q p.
Proof.
  intros Hne. unfold createdAfter.
  destruct (Z.lt_trichotomy (StartedAt p) (StartedAt q)) as [? | [E | ?]];
    [by right; left | | by left; left].
  destruct (String_as_OT.compare (PodID_ p) (PodID_ q)) as [H | H | H].
  - right. right. split; [done | by apply ltb_lt].
  - done.
  - left. right. split; [done | by apply ltb_lt].
Qed.

Lemma createdAfter_created (p p' q q' : Pod) :
  StartedAt p' = StartedAt p → PodID_ p' = PodID_ p →
  StartedAt q' = StartedAt q → PodID_ q' = PodID_ q →
  createdAfter p q → createdAfter p' q'.
Proof. unfold createdAfter. by intros -> -> -> ->. Qed.

(** The loop of [MostRecentByCreation]: [seen] are the entries visited, the
    one that holds [best] among them. *)
Lemma newerPod_fold (pods : gmap PodID Pod) (rest seen : list (PodID * Pod))
    (kb : PodID) (best : Pod) :
  spec.keyedByID pods → pods !! kb = Some best →
  (∀ k p, (k, p) ∈ (seen ++ rest)%list → pods !! k = Some p) →
  (∀ k p, (k, p) ∈ seen → k ≠ kb → createdAfter best p) →
  ∃ k, pods !! k = Some (foldl newerPod best rest)
       ∧ ∀ k' p', (k', p') ∈ (seen ++ rest)%list → k' ≠ k →
                  createdAfter (foldl newerPod best rest) p'.
Proof.
  intros Hkeyed. revert seen kb best.
  induction rest as [|[k1 p1] rest IH]; intros seen kb best Hbest Hin Hseen.
  - exists kb. split; [done |]. rewrite app_nil_r. exact Hseen.
  - cbn [foldl].
    change (newerPod best (k1, p1))
      with (if decide (createdAfter p1 best) then p1 else best).
    assert (Hp1 : pods !! k1 = Some p1).
    { apply Hin, elem_of_app. right. by left. }
    assert (Hnext : ∀ k p, (k, p) ∈ ((seen ++ [(k1, p1)]) ++ rest)%list →
                           pods !! k = Some p).
    { intros k p. rewrite <- app_assoc. apply Hin. }
    destruct (decide (createdAfter p1 best)) as [Hnewer|Holder].
    + destruct (IH (seen ++ [(k1, p1)])%list k1 p1 Hp1 Hnext) as (k & Hk & Hall).
      { intros k p [Hs | [= -> ->]%list_elem_of_singleton]%elem_of_app Hne; [| done].
        destruct (decide (k = kb)) as [->|Hkb].
        - assert (Hp : pods !! kb = Some p) by (apply Hin, elem_of_app; by left).
          rewrite Hbest in Hp. by injection Hp as <-.
        - eapply createdAfter_trans; [exact Hnewer | by eapply Hseen]. }
      exists k. split; [done |]. intros k' p'. rewrite <- app_assoc in Hall.
      apply Hall.
    + destruct (IH (seen ++ [(k1, p1)])%list kb best Hbest Hnext) as (k & Hk & Hall).
      { intros k p [Hs | [= -> ->]%list_elem_of_singleton]%elem_of_app Hne;
          [by eapply Hseen |].
        destruct (createdAfter_total best p1) as [? | ?]; [| done..].
        by rewrite (Hkeyed _ _ Hbest), (Hkeyed _ _ Hp1). }
      exists k. split; [done |]. intros k' p'. rewrite <- app_assoc in Hall.
      apply Hall.
Qed.

Lemma MostRecentByCreation_recent :
  spec.returnsMostRecent createdAfter apiByCreation.
Proof.
  intros ms Hkeyed Hne.
  change (store.MostRecentPod apiByCreation ms) with (MostRecentByCreation ms).
  unfold MostRecentByCreation.
  destruct (map_to_list (Pods (RuntimeState ms))) as [|[k0 p0] rest] eqn:Hlist.
  { by apply map_to_list_empty_iff in Hlist. }
  assert (Hin : ∀ k p, (k, p) ∈ ([(k0, p0)] ++ rest)%list →
                       Pods (RuntimeState ms) !! k = Some p).
  { intros k p. cbn [app]. rewrite <- Hlist. apply elem_of_map_to_list. }
  destruct (newerPod_fold (Pods (RuntimeState ms)) rest [(k0, p0)] k0 p0 Hkeyed)
    as (k & Hk & Hall); [apply Hin; by left | exact Hin | |].
  { by intros k p [= -> ->]%list_elem_of_singleton. }
  exists k. split; [exact Hk |]. intros k' p' Hk' Hne'.
  apply (Hall k' p'); [| done]. cbn [app]. rewrite <- Hlist.
  by apply elem_of_map_to_list.
Qed.

End OrderOfCreation.

(** ** Restart notifications and the stored record of a pod change *)

Section PodChangeNotifications.
Context (api : Collaborators) (range : range_order) (now : Time).
Hypothesis range_perm : range_ok range.









End PodChangeNotifications.

(** ** Log-stream staleness *)

Section LogStream.

Import runtimelog.

Lemma healthCheckTick_stale (lastRead : Time) (elapsed : Duration) :
  lastRead ≠ 0 → podLogHealthCheck ≤ elapsed →
  healthCheckTick lastRead elapsed = Some (Add lastRead podLogReconnectGap).
Proof.
  intros Hread Hstale. unfold healthCheckTick, IsZero.
  rewrite (bool_decide_eq_false_2 _ Hread).
  rewrite bool_decide_eq_false_2 by lia. done.
Qed.

(** C9. When the health check of a log stream ticks with a non-zero last
    read time and at least the health-check interval of 15 seconds elapsed
    since it, the stream is cancelled and reopened with a start time of the
    last read time plus the reconnect gap of 2 seconds, which is strictly
    after the last read. *)
Theorem consumeLogs_restarts_stale_stream
    (opening : bool) (startReadTime lastRead : Time) (elapsed : Duration)
    (rest : list observation) :
  lastRead ≠ 0 → 15 * Second ≤ elapsed →
  ∃ startReadTime',
    consumeLoop opening startReadTime (Tick lastRead elapsed :: rest)
    = ((if opening then [SetActive] else [])
       ++ Cancel :: ContainerLogs startReadTime'
       :: consumeLoop true startReadTime' rest)%list
    ∧ startReadTime' = lastRead + 2 * Second
    ∧ lastRead < startReadTime'.
Proof.
  intros Hread Hstale. exists (Add lastRead podLogReconnectGap).
  cbn [consumeLoop]. rewrite (healthCheckTick_stale lastRead elapsed Hread Hstale).
  unfold Add, podLogReconnectGap, Second. repeat split; lia.
Qed.

Lemma consumeLogs_restarts_stale_stream_witness :
  ∃ startReadTime',
    consumeLoop false 0 [Tick (100 * Second) (16 * Second); CopyEnds false]
    = [Cancel; ContainerLogs startReadTime'; SetActive; Cancel]
    ∧ startReadTime' = 100 * Second + 2 * Second
    ∧ 100 * Second < startReadTime'.
Proof.
  apply (consumeLogs_restarts_stale_stream false 0 (100 * Second) (16 * Second)
           [CopyEnds false]); unfold Second; lia.
Defined.

End LogStream.

(** ** Port-forward diffing *)

Section DiffIdempotent.

Import portforward.

Context (api : Collaborators) (range : range_order).
Hypothesis range_perm : range_ok range.

Lemma elem_of_desiredPods (ts : list ManifestTarget) (p : PodID) :
  p ∈ desiredPods api ts ↔ ∃ mt f, mt ∈ ts ∧ desiredForward api mt = Some (p, f).
Proof.
  unfold desiredPods. rewrite elem_of_list_to_set, list_elem_of_omap. split.
  - intros (mt & Hin & Hd). destruct (desiredForward api mt) as [[q f]|] eqn:E;
      simplify_eq/=. by exists mt, f.
  - intros (mt & f & Hin & Hd). exists mt. by rewrite Hd.
Qed.

Lemma desiredPods_cons (mt : ManifestTarget) (ts : list ManifestTarget) :
  desiredPods api (mt :: ts)
  = match desiredForward api mt with
    | Some (p, _) => {[p]} ∪ desiredPods api ts
    | None => desiredPods api ts
    end.
Proof.
  unfold desiredPods. cbn [omap list_omap].
  by destruct (desiredForward api mt) as [[p f]|].
Qed.

Lemma diffTarget_skip (d : diffState) (mt : ManifestTarget) :
  desiredForward api mt = None → diffTarget api d mt = d.
Proof.
  unfold desiredForward, diffTarget. cbv zeta.
  destruct (decide (PodID_ _ = "")); [done |].
  destruct (_ && _); [done |].
  destruct (decide (length _ = 0%nat)); done.
Qed.

Lemma diffTarget_desired (d : diffState) (mt : ManifestTarget)
    (p : PodID) (f : list model.PortForward) :
  desiredForward api mt = Some (p, f) →
  diffTarget api d mt
  = let entry := mkPortForwardEntry (MSName (State mt))
                   (Namespace_ (MostRecentPod api (State mt))) p f in
    match d_activeForwards d !! p with
    | Some oldEntry =>
        if decide (forwards oldEntry = f) then
          mkDiffState (d_activeForwards d) (d_statePods d ∪ {[p]})
            (d_toStart d) (d_toShutdown d)
        else
          mkDiffState (<[p := entry]> (d_activeForwards d)) (d_statePods d ∪ {[p]})
            (d_toStart d ++ [entry]) (d_toShutdown d ++ [oldEntry])
    | None =>
        mkDiffState (<[p := entry]> (d_activeForwards d)) (d_statePods d ∪ {[p]})
          (d_toStart d ++ [entry]) (d_toShutdown d)
    end.
Proof.
  unfold desiredForward, diffTarget. cbv zeta.
  destruct (decide (PodID_ _ = "")); [done |].
  destruct (_ && _); [done |].
  destruct (decide (length _ = 0%nat)); [done |].
  by intros [= <- <-].
Qed.




Lemma first_loop_statePods (ts : list ManifestTarget) (d : diffState) :
  d_statePods (foldl (diffTarget api) d ts) = d_statePods d ∪ desiredPods api ts.
Proof.
  revert d. induction ts as [|mt ts IH]; intros d.
  - unfold desiredPods. cbn [foldl omap list_omap list_to_set].
    by rewrite (right_id_L ∅ (∪)).
  - cbn [foldl]. rewrite IH, desiredPods_cons.
    destruct (desiredForward api mt) as [[p f]|] eqn:Hd.
    + rewrite (diffTarget_desired d mt p f Hd). cbv zeta.
      destruct (d_activeForwards d !! p) as [old|];
        [destruct (decide (forwards old = f)) |];
        cbn [d_statePods]; by rewrite (assoc_L (∪)).
    + by rewrite (diffTarget_skip d mt Hd).
Qed.


Lemma second_loop_lookup (entries : list (PodID * portForwardEntry))
    (d : diffState) (k : PodID) :
  d_statePods (foldl diffActive d entries) = d_statePods d
  ∧ (k ∈ d_statePods d →
     d_activeForwards (foldl diffActive d entries) !! k = d_activeForwards d !! k)
  ∧ (k ∉ entries.*1 →
     d_activeForwards (foldl diffActive d entries) !! k = d_activeForwards d !! k)
  ∧ (k ∉ d_statePods d → k ∈ entries.*1 →
     d_activeForwards (foldl diffActive d entries) !! k = None).
Proof.
  revert d. induction entries as [|[k' v'] entries IH]; intros d.
  - repeat split; try done. intros _ Hin. inversion Hin.
  - cbn [foldl diffActive fmap list_fmap fst].
    destruct (decide (k' ∈ d_statePods d)) as [Hin'|Hnin'].
    + destruct (IH d) as (IH1 & IH2 & IH3 & IH4).
      repeat split; [done | done | |].
      * intros Hk. apply IH3. intros Hin. apply Hk. by right.
      * intros Hk [->|Hin]%elem_of_cons; [done | by apply IH4].
    + destruct (IH (mkDiffState (delete k' (d_activeForwards d)) (d_statePods d)
                      (d_toStart d) (d_toShutdown d ++ [v'])))
        as (IH1 & IH2 & IH3 & IH4).
      cbn [d_statePods d_activeForwards] in IH1, IH2, IH3, IH4.
      repeat split; [done | | |].
      * intros Hk. rewrite IH2 by done. apply lookup_delete_ne. congruence.
      * intros Hk. rewrite IH3 by (intros Hin; apply Hk; by right).
        apply lookup_delete_ne. intros ->. apply Hk. by left.
      * intros Hk Hin. destruct (decide (k ∈ entries.*1)) as [Hin2|Hnin2].
        -- by apply IH4.
        -- rewrite IH3 by done.
           apply elem_of_cons in Hin as [->|Hin]; [| done].
           apply lookup_delete_eq.
Qed.


End DiffIdempotent.

(** ** The theorems at concrete inputs *)

Section Instances.

Import portforward.




(** C1 as stated fails: after the running pod [web-1] of resource [foo] and
    then its newer pod [job-2], which has succeeded, were observed, pruning
    leaves both pods tracked, though only one of them is not terminated. *)
Lemma prunePods_keeps_pod_beside_newer_terminated_pod :
  ∃ mt, ManifestTargets fixtures.webThenJob !! "foo" = Some mt
        ∧ let pods' := Pods (RuntimeState
                         (prunePods fixtures.apiByCreation range_canonical (State mt))) in
          Phase <$> pods' = <["web-1" := PodRunning]> {["job-2" := PodSucceeded]}
          ∧ ¬ spec.atMostOneUnlessSeveralLive pods'.
Proof.
  eexists. split; [by vm_compute |]. split; [by vm_compute |].
  intros [H | H]; vm_compute in H; lia.
Qed.

(** The record of the succeeded pod [job-2] is written to a resource that
    tracks the older running pod [web-1]: both stay tracked. *)
Lemma prunePods_after_one_write_witness :
  let pods' := Pods (RuntimeState
                 (prunePods fixtures.apiByCreation range_canonical
                    fixtures.jobBesideWeb)) in
  pods' !! "job-2" = Some (fixtures.terminatedPod "job-2" 2)
  ∧ pods' !! "web-1" = Some (fixtures.runningPod "web-1" 1)
  ∧ (size (filter (λ kv : PodID * Pod, spec.terminated kv.2) pods') ≤ 1)%nat.
Proof.
  intros pods'.
  destruct (prunePods_after_one_write fixtures.apiByCreation range_canonical
              range_canonical_ok fixtures.createdAfter createdAfter_asym
              MostRecentByCreation_recent fixtures.jobBesideWeb
              {["web-1" := fixtures.runningPod "web-1" 1]} "job-2"
              (fixtures.terminatedPod "job-2" 2))
    as (_ & Hlive & Hwritten).
  destruct Hwritten as (Hchar & _ & _ & Hsize); [reflexivity | reflexivity | | |].
  { by intros k p [<- <-]%lookup_singleton_Some. }
  { intros k p [<- <-]%lookup_singleton_Some [H | H]; discriminate H. }
  split; [| split; [| exact Hsize]].
  - apply Hchar. split; [by apply map_lookup_filter_Some |]. right.
    split; [by apply map_lookup_filter_Some |].
    intros k' p' [Hk' _]%map_lookup_filter_Some Hne.
    cbn [fixtures.jobBesideWeb Pods RuntimeState] in Hk'.
    apply lookup_insert_Some in Hk' as [[? _] | [_ [<- <-]%lookup_singleton_Some]];
      [done |].
    left. cbn. lia.
  - apply Hlive; [reflexivity | reflexivity |]. intros [H | H]; discriminate H.
Defined.



(** The scenario of the specification: resource [foo] tracks pod [P1] under
    ancestor [U1] and a pod of ancestor [U2] is observed. *)
Lemma maybeTrackPod_new_ancestor_witness :
  let ms' := (maybeTrackPod fixtures.api (State (fixtures.fooTarget {["U2"]} ∅))
                (k8swatch.mkPodChangeAction (fixtures.observedPod "P2" 0) "foo" "U2")).1.1 in
  Pods (RuntimeState ms') !! "P1" = None
  ∧ Pods (RuntimeState ms') !! "P2" = Some (newPod "P2")
  ∧ PodAncestorUID (RuntimeState ms') = "U2".
Proof.
  intros ms'. subst ms'.
  rewrite (maybeTrackPod_new_ancestor_drops_tracked_pods fixtures.api
             (State (fixtures.fooTarget {["U2"]} ∅))
             (k8swatch.mkPodChangeAction (fixtures.observedPod "P2" 0) "foo" "U2")
             eq_refl)
    by (right; split; cbn; discriminate).
  repeat split.
Defined.

(** A pod change matched to ancestor [U1] after the resource was redeployed
    with UID [U2]. *)
Lemma handlePodChangeAction_stale_is_noop_witness :
  handlePodChangeAction fixtures.api range_canonical 0
    (fixtures.fooState {["U2"]})
    (k8swatch.mkPodChangeAction (fixtures.observedPod "P1" 2) "foo" "U1")
  = (fixtures.fooState {["U2"]}, []).
Proof.
  apply (handlePodChangeAction_stale_is_noop fixtures.api range_canonical 0).
  right. exists (fixtures.fooTarget {["U2"]} ∅).
  split; [reflexivity |]. split; [discriminate |].
  cbn. intros H%elem_of_singleton. discriminate H.
Defined.

(** A target whose live-updated container [c-0] was replaced by [c-1]. *)
Lemma checkForContainerCrash_witness :
  let mt' := (checkForContainerCrash fixtures.api
                (fixtures.fooTarget {["U1"]} {["c-0"]})).1 in
  NeedsRebuildFromCrash (State mt') = true
  ∧ LiveUpdatedContainerIDs (State mt') = ∅.
Proof.
  apply (proj1 (checkForContainerCrash_flags_missing_container fixtures.api
                  (fixtures.fooTarget {["U1"]} {["c-0"]}) eq_refl)).
  exists "c-0". split.
  - cbn. by apply elem_of_singleton.
  - change (map ci_ContainerID
              (AllRunningContainers fixtures.api
                 (fixtures.fooTarget {["U1"]} {["c-0"]})))
      with ["c-1"].
    intros H%list_elem_of_singleton. discriminate H.
Defined.

(** The pod [P1] of a replica set of the deployment of [foo] is matched to
    [foo] by the deployment UID, the farthest of its chain. *)
Lemma triagePodTree_witness :
  (k8swatch.triagePodTree fixtures.watcher (fixtures.observedPod "P1" 0)
     (fixtures.chainOf "uid-P1")).2 = ("foo", "U-deploy").
Proof.
  apply (proj1 (triagePodTree_matches_first_ancestor fixtures.watcher
                  (fixtures.observedPod "P1" 0) (fixtures.chainOf "uid-P1"))
           ["uid-P1"; "U-rs"] "U-deploy" [] "foo"); [reflexivity | | reflexivity].
  intros a [->|[->|Hin]%elem_of_cons]%elem_of_cons; [reflexivity.. |].
  inversion Hin.
Defined.

(** The event [uid-E1] about the pod [P1] is recorded under the pod, its
    replica set and its deployment, and gets no entry of its own. *)
Lemma triage_records_descendants_witness :
  let eventIndex' :=
    k8swatch.knownDescendentEventUIDs
      (k8swatch.triageEventUpdate fixtures.emptyManager fixtures.backOff
         (fixtures.chainOf "uid-P1")).1 in
  "uid-E1" ∈ k8swatch.descendants eventIndex' "U-deploy"
  ∧ eventIndex' !! "uid-E1" = None.
Proof.
  assert (Hfresh : v1.ev_UID fixtures.backOff
                   ∉ k8swatch.UIDs (fixtures.chainOf "uid-P1")).
  { cbn. intros [? | [? | [? | ?%elem_of_nil]%elem_of_cons]%elem_of_cons]%elem_of_cons;
      done. }
  destruct (triage_records_descendants fixtures.watcher
              (fixtures.observedPod "P1" 0) (fixtures.chainOf "uid-P1")
              fixtures.emptyManager fixtures.backOff (fixtures.chainOf "uid-P1")
              Hfresh) as (_ & [Hrec Hself] & _).
  split.
  - apply Hrec; [| done]. cbn. set_solver.
  - exact Hself.
Defined.

End Instances.

(** ** Runs of the embedded code *)

Section Examples.

Import portforward.

Let app (name : ContainerName) (restarts : Z) : Container :=
  mkContainer name ("id-" ++ name) [] true true false restarts.

(** Only the first position signals a restart: the second changed its
    name and the third has no old container. *)
Example restartedContainerNames_run :
  restartedContainerNames [app "a" 0; app "b" 1] [app "a" 2; app "c" 5; app "d" 9]
  = ["a"].
Proof. reflexivity. Qed.

Example restartedContainerNames_no_increase :
  restartedContainerNames [app "a" 2; app "b" 1] [app "a" 2; app "b" 0] = [].
Proof. reflexivity. Qed.

Let podWithPorts (ports : list Z) : Pod :=
  mkPod "P1" "default" 1 "Running" PodRunning false [] [] []
    [mkContainer "app" "c-1" ports true true false 0] 0 "".

Let threeForwards : model.Manifest :=
  model.mkManifest "foo"
    [fixtures.forwardFrom 8000; fixtures.forwardFrom 9090;
     model.mkPortForward 80 8080 "" "" ""].

Example populatePortForwards_run :
  populatePortForwards fixtures.api threeForwards (podWithPorts [8080; 9090])
  = [model.mkPortForward 8080 8000 "localhost" "" "";
     model.mkPortForward 9090 9090 "localhost" "" "";
     model.mkPortForward 80 8080 "" "" ""].
Proof. reflexivity. Qed.

Example populatePortForwards_no_ports :
  populatePortForwards fixtures.api threeForwards (podWithPorts [])
  = [model.mkPortForward 80 8080 "" "" ""].
Proof. reflexivity. Qed.

(** A pod matched by the extra selector of [bar], and a pod matched by
    nothing. *)
Example triagePodTree_selector :
  (k8swatch.triagePodTree fixtures.watcher
     (v1.mkPod "P9" "uid-P9" "default" {["app" := "bar"]} 1 None PodRunning [] [] [])
     (k8swatch.mkObjectRefTree ["uid-P9"; "U-other"])).2 = ("bar", "").
Proof. reflexivity. Qed.

Example triagePodTree_unmatched :
  (k8swatch.triagePodTree fixtures.watcher (fixtures.observedPod "P9" 0)
     (k8swatch.mkObjectRefTree ["uid-P9"; "U-other"])).2 = ("", "").
Proof. reflexivity. Qed.

(** The pod is recorded under its owners and not under itself. *)
Example triagePodTree_index_run :
  let index := k8swatch.knownDescendentPodUIDs
                 (k8swatch.triagePodTree fixtures.watcher (fixtures.observedPod "P1" 0)
                    (fixtures.chainOf "uid-P1")).1 in
  index !! "U-rs" = Some {["uid-P1"]}
  ∧ index !! "U-deploy" = Some {["uid-P1"]}
  ∧ index !! "uid-P1" = None.
Proof. vm_compute. done. Qed.

(** A pod observed for the first time with three restarts: no
    notification, and the baseline is three. *)
Example handlePodChangeAction_first_observation :
  let state' := (handlePodChangeAction fixtures.api range_canonical 0
                   (fixtures.fooState {["U1"]})
                   (k8swatch.mkPodChangeAction (fixtures.observedPod "P2" 3) "foo" "U1")).1 in
  LogStore state' = []
  ∧ BaselineRestarts <$> spec.trackedPod state' "foo" "P2" = Some 3.
Proof. vm_compute. done. Qed.

End Examples.

(** * Further properties of the embedded code *)

(** ** Replay of objects observed before their deploy *)

Section ReplayProperties.

Import k8swatch.

Context (range : range_order) (rangeSet : set_order).
Hypothesis range_perm : range_ok range.
Hypothesis rangeSet_perm : set_order_ok rangeSet.

Lemma elem_of_rangeSet (s : gset UID) (u : UID) : u ∈ rangeSet s ↔ u ∈ s.
Proof. by rewrite (rangeSet_perm s), elem_of_elements. Qed.

Lemma NoDup_range_keys {V : Type} (m : gmap string V) : NoDup (range V m).*1.
Proof. rewrite (range_perm V m). apply NoDup_fst_map_to_list. Qed.

Lemma replayPod_grows (w : PodWatcher) (mn : ManifestName) (uid : UID)
    (l : list UID) (out : list PodChangeAction) (x : PodChangeAction) :
  x ∈ out → x ∈ foldl (replayPod w mn uid) out l.
Proof.
  revert out. induction l as [|u l IH]; intros out Hx; [done |].
  cbn [foldl]. apply IH. unfold replayPod.
  destruct (knownPods w !! u); [apply elem_of_app; by left | done].
Qed.

Lemma replayPod_dispatches (w : PodWatcher) (mn : ManifestName) (uid podUID : UID)
    (pod : v1.Pod) (l : list UID) (out : list PodChangeAction) :
  podUID ∈ l → knownPods w !! podUID = Some pod →
  mkPodChangeAction pod mn uid ∈ foldl (replayPod w mn uid) out l.
Proof.
  intros Hin Hpod. revert out. induction l as [|u l IH]; intros out.
  - inversion Hin.
  - cbn [foldl]. apply elem_of_cons in Hin as [<-|Hin]; [| by apply IH].
    apply replayPod_grows. unfold replayPod. rewrite Hpod.
    apply elem_of_app. right. by left.
Qed.

Lemma podSetupNewUID_frame (acc : PodWatcher * list PodChangeAction)
    (kv : UID * ManifestName) :
  knownPods (podSetupNewUID rangeSet acc kv).1 = knownPods acc.1
  ∧ knownDescendentPodUIDs (podSetupNewUID rangeSet acc kv).1
    = knownDescendentPodUIDs acc.1
  ∧ extraSelectors (podSetupNewUID rangeSet acc kv).1 = extraSelectors acc.1
  ∧ knownDeployedUIDs (pw_watcherKnownState (podSetupNewUID rangeSet acc kv).1)
    = <[kv.1 := kv.2]> (knownDeployedUIDs (pw_watcherKnownState acc.1))
  ∧ ∀ x, x ∈ acc.2 → x ∈ (podSetupNewUID rangeSet acc kv).2.
Proof.
  destruct acc as [w out], kv as [uid mn]. unfold podSetupNewUID. cbn [knownPods].
  destruct (knownPods w !! uid) as [pod|]; cbn [fst snd];
    repeat split; try done.
  - intros x Hx. apply elem_of_app. by left.
  - intros x Hx. by apply replayPod_grows.
Qed.

Lemma podSetupNewUIDs_frame (l : list (UID * ManifestName))
    (acc : PodWatcher * list PodChangeAction) :
  knownPods (foldl (podSetupNewUID rangeSet) acc l).1 = knownPods acc.1
  ∧ knownDescendentPodUIDs (foldl (podSetupNewUID rangeSet) acc l).1
    = knownDescendentPodUIDs acc.1
  ∧ extraSelectors (foldl (podSetupNewUID rangeSet) acc l).1 = extraSelectors acc.1
  ∧ ∀ x, x ∈ acc.2 → x ∈ (foldl (podSetupNewUID rangeSet) acc l).2.
Proof.
  revert acc. induction l as [|kv l IH]; intros acc; [done |].
  cbn [foldl].
  destruct (IH (podSetupNewUID rangeSet acc kv)) as (-> & -> & -> & Hout).
  destruct (podSetupNewUID_frame acc kv) as (-> & -> & -> & _ & Hout0).
  repeat split; try done. intros x Hx. by apply Hout, Hout0.
Qed.

(** The deployed-UID index after a fold of inserts over entries with
    distinct keys. *)
Lemma podSetupNewUIDs_known (l : list (UID * ManifestName))
    (acc : PodWatcher * list PodChangeAction) (uid : UID) :
  NoDup l.*1 →
  knownDeployedUIDs (pw_watcherKnownState (foldl (podSetupNewUID rangeSet) acc l).1)
    !! uid
  = match list_to_map (M := gmap UID ManifestName) l !! uid with
    | Some mn => Some mn
    | None => knownDeployedUIDs (pw_watcherKnownState acc.1) !! uid
    end.
Proof.
  revert acc. induction l as [|[k v] l IH]; intros acc Hnd.
  - by cbn [foldl list_to_map foldr].
  - apply NoDup_cons in Hnd as [Hk Hnd]. cbn [foldl]. rewrite (IH _ Hnd).
    destruct (podSetupNewUID_frame acc (k, v)) as (_ & _ & _ & -> & _).
    cbn [fst snd list_to_map foldr uncurry].
    destruct (decide (k = uid)) as [->|Hne].
    + rewrite (not_elem_of_list_to_map_1 _ uid Hk), !lookup_insert_eq. done.
    + rewrite !lookup_insert_ne by done. done.
Qed.

Lemma podSetupNewUIDs_dispatches (l : list (UID * ManifestName))
    (acc : PodWatcher * list PodChangeAction)
    (a podUID : UID) (mn : ManifestName) (pod : v1.Pod) :
  (a, mn) ∈ l → knownPods acc.1 !! a = None →
  podUID ∈ descendants (knownDescendentPodUIDs acc.1) a →
  knownPods acc.1 !! podUID = Some pod →
  mkPodChangeAction pod mn a ∈ (foldl (podSetupNewUID rangeSet) acc l).2.
Proof.
  revert acc. induction l as [|kv l IH]; intros acc Hin Ha Hdesc Hpod.
  - inversion Hin.
  - cbn [foldl]. destruct (podSetupNewUID_frame acc kv) as (Hkp & Hidx & _ & _ & _).
    apply elem_of_cons in Hin as [<-|Hin].
    + apply podSetupNewUIDs_frame.
      destruct acc as [w out]. cbn [fst] in *. unfold podSetupNewUID.
      cbn [knownPods knownDescendentPodUIDs]. rewrite Ha. cbn [snd].
      apply replayPod_dispatches with podUID; [| done].
      by apply elem_of_rangeSet.
    + apply IH; [done | | |]; by rewrite ?Hkp, ?Hidx.
Qed.

Lemma replayEvent_grows (m : EventWatchManager) (mn : ManifestName)
    (l : list UID) (out : list K8sEventAction) (x : K8sEventAction) :
  x ∈ out → x ∈ foldl (replayEvent m mn) out l.
Proof.
  revert out. induction l as [|u l IH]; intros out Hx; [done |].
  cbn [foldl]. apply IH. unfold replayEvent.
  destruct (knownEvents m !! u); [apply elem_of_app; by left | done].
Qed.

Lemma replayEvent_dispatches (m : EventWatchManager) (mn : ManifestName) (uid : UID)
    (event : v1.Event) (l : list UID) (out : list K8sEventAction) :
  uid ∈ l → knownEvents m !! uid = Some event →
  mkK8sEventAction event mn ∈ foldl (replayEvent m mn) out l.
Proof.
  intros Hin Hev. revert out. induction l as [|u l IH]; intros out.
  - inversion Hin.
  - cbn [foldl]. apply elem_of_cons in Hin as [<-|Hin]; [| by apply IH].
    apply replayEvent_grows. unfold replayEvent. rewrite Hev.
    apply elem_of_app. right. by left.
Qed.

Lemma eventSetupNewUID_frame (acc : EventWatchManager * list K8sEventAction)
    (kv : UID * ManifestName) :
  knownEvents (eventSetupNewUID rangeSet acc kv).1 = knownEvents acc.1
  ∧ knownDescendentEventUIDs (eventSetupNewUID rangeSet acc kv).1
    = knownDescendentEventUIDs acc.1
  ∧ ∀ x, x ∈ acc.2 → x ∈ (eventSetupNewUID rangeSet acc kv).2.
Proof.
  destruct acc as [m out], kv as [uid mn]. unfold eventSetupNewUID. cbn [fst snd].
  repeat split. intros x Hx. by apply replayEvent_grows.
Qed.

Lemma eventSetupNewUIDs_grows (l : list (UID * ManifestName))
    (acc : EventWatchManager * list K8sEventAction) (x : K8sEventAction) :
  x ∈ acc.2 → x ∈ (foldl (eventSetupNewUID rangeSet) acc l).2.
Proof.
  revert acc. induction l as [|kv l IH]; intros acc Hx; [done |].
  cbn [foldl]. apply IH. by apply eventSetupNewUID_frame.
Qed.

Lemma eventSetupNewUIDs_dispatches (l : list (UID * ManifestName))
    (acc : EventWatchManager * list K8sEventAction)
    (a uid : UID) (mn : ManifestName) (event : v1.Event) :
  (a, mn) ∈ l →
  uid ∈ descendants (knownDescendentEventUIDs acc.1) a →
  knownEvents acc.1 !! uid = Some event →
  mkK8sEventAction event mn ∈ (foldl (eventSetupNewUID rangeSet) acc l).2.
Proof.
  revert acc. induction l as [|kv l IH]; intros acc Hin Hdesc Hev.
  - inversion Hin.
  - cbn [foldl]. destruct (eventSetupNewUID_frame acc kv) as (Hke & Hidx & _).
    apply elem_of_cons in Hin as [<-|Hin].
    + apply eventSetupNewUIDs_grows.
      destruct acc as [m out]. cbn [fst] in *. unfold eventSetupNewUID. cbn [snd].
      apply replayEvent_dispatches with uid; [| done].
      by apply elem_of_rangeSet.
    + apply IH; [done | |]; by rewrite ?Hke, ?Hidx.
Qed.

Lemma triagePodTree_knownPods (w : PodWatcher) (pod : v1.Pod) (objTree : ObjectRefTree) :
  knownPods (triagePodTree w pod objTree).1 = knownPods w.
Proof.
  unfold triagePodTree.
  destruct (findDeployed _ _) as [[mn u]|]; [done |].
  by destruct (findSelector _ _).
Qed.

Lemma list_to_map_range (newUIDs : gmap UID ManifestName) :
  list_to_map (range _ newUIDs) = newUIDs.
Proof.
  rewrite <- (list_to_map_to_list newUIDs) at 2.
  apply list_to_map_proper; [apply NoDup_range_keys | apply range_perm].
Qed.

(** X1. A pod that was observed and triaged before the UID of one of its
    owners was deployed is not lost: when that UID arrives with its
    manifest, [setupNewUIDs] dispatches a change of the pod for the
    manifest, matched to the UID (the UID not being that of a known pod). *)
Theorem pod_observed_before_deploy_is_replayed
    (w0 : PodWatcher) (pod : v1.Pod) (objTree : ObjectRefTree)
    (newUIDs : gmap UID ManifestName) (a : UID) (mn : ManifestName) :
  a ∈ UIDs objTree → a ≠ v1.UID_ pod → knownPods w0 !! a = None →
  newUIDs !! a = Some mn →
  let w := (triagePodTree (upsertPod w0 pod) pod objTree).1 in
  mkPodChangeAction pod mn a ∈ (podSetupNewUIDs range rangeSet w newUIDs).2.
Proof.
  intros Hin Hne Hnotpod Hnew w. unfold podSetupNewUIDs.
  assert (Hkp : knownPods w = <[v1.UID_ pod := pod]> (knownPods w0)).
  { subst w. by rewrite triagePodTree_knownPods. }
  apply podSetupNewUIDs_dispatches with (v1.UID_ pod); cbn [fst].
  - by apply (elem_of_range range range_perm).
  - rewrite Hkp, lookup_insert_ne; done.
  - subst w. rewrite triagePodTree_index, indexPodDescendant_descendants.
    rewrite decide_True by done. set_solver.
  - rewrite Hkp. apply lookup_insert_eq.
Qed.

(** X2. When the newly deployed UID is that of a known pod, [setupNewUIDs]
    dispatches that pod alone, matched to its own UID, and does not replay
    the descendants recorded under the UID. *)
Theorem podSetupNewUIDs_deployed_pod
    (w : PodWatcher) (a : UID) (mn : ManifestName) (pod : v1.Pod) :
  knownPods w !! a = Some pod →
  (podSetupNewUIDs range rangeSet w {[a := mn]}).2 = [mkPodChangeAction pod mn a].
Proof.
  intros Hpod. unfold podSetupNewUIDs.
  assert (Hl : range _ ({[a := mn]} : gmap UID ManifestName) = [(a, mn)]).
  { apply Permutation_singleton_r.
    by rewrite (range_perm _ _), map_to_list_singleton. }
  rewrite Hl. cbn [foldl podSetupNewUID knownPods]. by rewrite Hpod.
Qed.

(** X3. After [setupNewUIDs] recorded the deployed UIDs, a pod change whose
    owner chain meets one of them first is dispatched for its manifest,
    matched to that UID, and carries the pod currently stored in the
    known-pods index. *)
Theorem pod_observed_after_deploy_is_dispatched
    (w : PodWatcher) (newUIDs : gmap UID ManifestName) (pod fresh : v1.Pod)
    (objTree : ObjectRefTree) (pre post : list UID) (a : UID) (mn : ManifestName) :
  newUIDs !! a = Some mn → mn ≠ "" →
  UIDs objTree = (pre ++ a :: post)%list →
  (∀ b, b ∈ pre → newUIDs !! b = None
                  ∧ knownDeployedUIDs (pw_watcherKnownState w) !! b = None) →
  knownPods w !! v1.UID_ pod = Some fresh →
  let w1 := (podSetupNewUIDs range rangeSet w newUIDs).1 in
  (dispatchPodChange w1 pod (inl objTree)).1.2 = [mkPodChangeAction fresh mn a].
Proof.
  intros Hnew Hmn Hchain Hpre Hfresh w1.
  assert (Hknown : ∀ uid,
    knownDeployedUIDs (pw_watcherKnownState w1) !! uid
    = match newUIDs !! uid with
      | Some mn => Some mn
      | None => knownDeployedUIDs (pw_watcherKnownState w) !! uid
      end).
  { intros uid. subst w1. unfold podSetupNewUIDs.
    rewrite podSetupNewUIDs_known by apply NoDup_range_keys.
    by rewrite list_to_map_range. }
  assert (Hkp : knownPods w1 = knownPods w).
  { subst w1. unfold podSetupNewUIDs. apply podSetupNewUIDs_frame. }
  unfold dispatchPodChange.
  pose proof (triagePodTree_knownPods w1 pod objTree) as Hkp'.
  unfold triagePodTree in *. rewrite Hchain in *.
  rewrite (findDeployed_first _ pre post a mn) in *.
  - cbn [fst snd] in *. rewrite decide_False by done.
    cbn [knownPods] in *. by rewrite Hkp, Hfresh.
  - intros b Hb. rewrite Hknown. by destruct (Hpre b Hb) as [-> ->].
  - by rewrite Hknown, Hnew.
  - intros b Hb. rewrite Hknown. by destruct (Hpre b Hb) as [-> ->].
  - by rewrite Hknown, Hnew.
Qed.

(** X4. An event that was triaged before the UID of its involved object, or
    of one of that object's owners, was deployed is replayed: when the UID
    arrives with its manifest, [setupNewUIDs] dispatches the event for the
    manifest. *)
Theorem event_observed_before_deploy_is_replayed
    (m0 : EventWatchManager) (event : v1.Event) (objTree : ObjectRefTree)
    (newUIDs : gmap UID ManifestName) (a : UID) (mn : ManifestName) :
  a ∈ UIDs objTree → newUIDs !! a = Some mn →
  let m := (triageEventUpdate m0 event objTree).1 in
  mkK8sEventAction event mn ∈ (eventSetupNewUIDs range rangeSet m newUIDs).2.
Proof.
  intros Hin Hnew m. unfold eventSetupNewUIDs.
  apply eventSetupNewUIDs_dispatches with a (v1.ev_UID event); cbn [fst].
  - by apply (elem_of_range range range_perm).
  - subst m. rewrite triageEventUpdate_index, indexEventDescendant_descendants.
    rewrite decide_True by done. set_solver.
  - subst m. unfold triageEventUpdate.
    destruct (findDeployed _ _) as [[? ?]|]; apply lookup_insert_eq.
Qed.

End ReplayProperties.

(** ** Event triage and the descendant index *)

Section TriageProperties.

Import k8swatch.

(** X5. Triage of an event stores the event in the known-events index and
    returns the manifest of the first UID of the involved object's owner
    chain that the deployed-UID index knows, and the empty name when it
    knows none. *)
Theorem triageEventUpdate_matches_first_known
    (m : EventWatchManager) (event : v1.Event) (objTree : ObjectRefTree) :
  let known := knownDeployedUIDs (em_watcherKnownState m) in
  let result := triageEventUpdate m event objTree in
  knownEvents result.1 !! v1.ev_UID event = Some event
  ∧ (∀ pre u post mn,
       UIDs objTree = (pre ++ u :: post)%list →
       (∀ a, a ∈ pre → known !! a = None) → known !! u = Some mn →
       result.2 = mn)
  ∧ ((∀ a, a ∈ UIDs objTree → known !! a = None) → result.2 = "").
Proof.
  intros known result. subst result. unfold triageEventUpdate. fold known.
  split; [| split].
  - destruct (findDeployed _ _) as [[? ?]|]; apply lookup_insert_eq.
  - intros pre u post mn Hchain Hpre Hu.
    by rewrite Hchain, (findDeployed_first known pre post u mn Hpre Hu).
  - intros Hnone. by rewrite (findDeployed_none known _ Hnone).
Qed.

(** X6. Triage only adds to the descendant indices and never touches the
    deployed-UID index: whatever was recorded under a UID before triage of
    a pod or of an event is still recorded under it afterwards. *)
Theorem triage_index_grows
    (w : PodWatcher) (pod : v1.Pod)
    (m : EventWatchManager) (event : v1.Event) (objTree : ObjectRefTree) (a : UID) :
  descendants (knownDescendentPodUIDs w) a
    ⊆ descendants (knownDescendentPodUIDs (triagePodTree w pod objTree).1) a
  ∧ descendants (knownDescendentEventUIDs m) a
    ⊆ descendants (knownDescendentEventUIDs (triageEventUpdate m event objTree).1) a
  ∧ pw_watcherKnownState (triagePodTree w pod objTree).1 = pw_watcherKnownState w
  ∧ em_watcherKnownState (triageEventUpdate m event objTree).1
    = em_watcherKnownState m.
Proof.
  rewrite triagePodTree_index, triageEventUpdate_index.
  rewrite indexPodDescendant_descendants, indexEventDescendant_descendants.
  repeat split.
  - destruct (decide _); set_solver.
  - destruct (decide _); set_solver.
  - unfold triagePodTree. destruct (findDeployed _ _) as [[? ?]|]; [done |].
    by destruct (findSelector _ _).
  - unfold triageEventUpdate. by destruct (findDeployed _ _) as [[? ?]|].
Qed.

End TriageProperties.

(** ** Tracking, pruning and deletion of pods *)

Section TrackingProperties.
Context (api : Collaborators).

(** X7. Whatever [maybeTrackPod] returns as the pod record is the record
    the resource tracks under the pod's ID when the call ends, and a record
    reported as new is the fresh record of that ID. *)
Theorem maybeTrackPod_returns_tracked_record
    (ms ms' : ManifestState) (action : k8swatch.PodChangeAction)
    (podInfo : Pod) (isNew : bool) :
  maybeTrackPod api ms action = (ms', Some podInfo, isNew) →
  let podID := PodIDFromPod api (k8swatch.Pod action) in
  Pods (RuntimeState ms') !! podID = Some podInfo
  ∧ (isNew = true → podInfo = newPod podID
                    ∧ HasOKPodTemplateSpecHash api (RuntimeState ms)
                        (k8swatch.Pod action) = true).
Proof.
  unfold maybeTrackPod. cbv zeta.
  destruct (HasOKPodTemplateSpecHash api _ _); cbn [negb].
  - destruct (_ || _).
    + cbn [Pods withPodAncestorUID withPods]. rewrite lookup_empty.
      intros [= <- <- <-]. cbn. rewrite lookup_insert_eq. by split.
    + destruct (Pods (RuntimeState ms) !! _) as [p|] eqn:Hp.
      * intros [= <- <- <-]. cbn. by split.
      * intros [= <- <- <-]. cbn. rewrite lookup_insert_eq. by split.
  - intros [= <- Hp <-]. by split.
Qed.

(** X8. [maybeTrackPod] drops no tracked pod and keeps the tracked
    ancestor, unless the pod is of the current deploy and either no
    ancestor is tracked or the action carries a different, non-empty one;
    and for a pod that is not of the current deploy it changes nothing and
    never starts tracking. *)
Theorem maybeTrackPod_keeps_tracked_pods
    (ms : ManifestState) (action : k8swatch.PodChangeAction) :
  let runtime := RuntimeState ms in
  let result := maybeTrackPod api ms action in
  (HasOKPodTemplateSpecHash api runtime (k8swatch.Pod action) = false →
     result = (ms, Pods runtime !! PodIDFromPod api (k8swatch.Pod action), false))
  ∧ (PodAncestorUID runtime ≠ "" →
     (k8swatch.MatchedAncestorUID action = ""
      ∨ k8swatch.MatchedAncestorUID action = PodAncestorUID runtime) →
     PodAncestorUID (RuntimeState result.1.1) = PodAncestorUID runtime
     ∧ ∀ k p, Pods runtime !! k = Some p →
              Pods (RuntimeState result.1.1) !! k = Some p).
Proof.
  intros runtime result. subst result. unfold maybeTrackPod. cbv zeta. fold runtime.
  split.
  - by intros ->.
  - intros Hanc Hsame.
    destruct (HasOKPodTemplateSpecHash api _ _); cbn [negb]; [| done].
    assert (Hcond :
      bool_decide (PodAncestorUID runtime = "")
      || (bool_decide (k8swatch.MatchedAncestorUID action ≠ "")
          && bool_decide (PodAncestorUID runtime
                          ≠ k8swatch.MatchedAncestorUID action)) = false).
    { rewrite (bool_decide_eq_false_2 _ Hanc). cbn [orb].
      destruct Hsame as [He|He].
      - rewrite bool_decide_eq_false_2; [done |]. intros Hne. by apply Hne.
      - rewrite (bool_decide_eq_false_2 (PodAncestorUID runtime ≠ _));
          [apply andb_false_r |]. intros Hne. by apply Hne. }
    rewrite Hcond.
    destruct (Pods runtime !! _) as [p0|] eqn:Hp0; cbn; split; try done.
    intros k p Hk. destruct (decide (k = PodIDFromPod api (k8swatch.Pod action)))
      as [->|Hne]; [congruence |]. by rewrite lookup_insert_ne.
Qed.

(** X9. After [handlePodDeleteAction] no resource tracks a pod of the
    deleted ID, whatever the namespace of the action, and every other
    tracked pod, the order of the manifests and the log are as before. *)
Theorem handlePodDeleteAction_untracks_everywhere
    (state : EngineState) (action : PodDeleteAction) (mn : ManifestName) (k : PodID) :
  let state' := handlePodDeleteAction state action in
  spec.trackedPod state' mn (pda_PodID action) = None
  ∧ (k ≠ pda_PodID action → spec.trackedPod state' mn k = spec.trackedPod state mn k)
  ∧ ManifestDefinitionOrder state' = ManifestDefinitionOrder state
  ∧ LogStore state' = LogStore state.
Proof.
  intros state'. subst state'. unfold handlePodDeleteAction, spec.trackedPod.
  cbn [ManifestTargets ManifestDefinitionOrder LogStore]. rewrite lookup_fmap.
  destruct (ManifestTargets state !! mn) as [mt|]; cbn; repeat split; try done.
  - apply lookup_delete_eq.
  - intros Hne. by apply lookup_delete_ne.
Qed.

End TrackingProperties.

Section ResetAndCrashProperties.
Context (api : Collaborators) (VisibleContainerRestarts : Pod → Z).

Lemma wrapInt_id (z : Z) : - 2 ^ 63 ≤ z < 2 ^ 63 → wrapInt z = z.
Proof. intros Hz. unfold wrapInt. rewrite Z.mod_small; lia. Qed.

(** X10. [handlePodResetRestartsAction] changes nothing when the manifest
    is unknown or does not track the pod; otherwise it changes the baseline
    of that pod only, and when the pod has not restarted since the action
    was created (its visible restarts are those of the action) the new
    baseline is the pod's total restart count. *)
Theorem handlePodResetRestartsAction_rebases_baseline
    (state : EngineState) (action : PodResetRestartsAction) :
  let mn := pra_ManifestName action in
  let podID := pra_PodID action in
  let state' := handlePodResetRestartsAction api VisibleContainerRestarts
                  state action in
  (spec.trackedPod state mn podID = None → state' = state)
  ∧ (∀ mn' k, (mn', k) ≠ (mn, podID) →
       spec.trackedPod state' mn' k = spec.trackedPod state mn' k)
  ∧ (∀ p, spec.trackedPod state mn podID = Some p →
       ∃ b, spec.trackedPod state' mn podID = Some (withBaselineRestarts b p)
            ∧ (VisibleContainerRestarts p = pra_VisibleRestarts action →
               - 2 ^ 63 ≤ AllContainerRestarts api p < 2 ^ 63 →
               b = AllContainerRestarts api p)).
Proof.
  intros mn podID state'. subst state'.
  unfold handlePodResetRestartsAction, spec.trackedPod. fold mn. fold podID.
  destruct (ManifestTargets state !! mn) as [mt|] eqn:Hmt.
  - destruct (Pods (RuntimeState (State mt)) !! podID) as [p|] eqn:Hp.
    + split; [done |]. split.
      * intros mn' k Hne. cbn [ManifestTargets withTarget].
        destruct (decide (mn' = mn)) as [->|Hmn].
        -- rewrite lookup_insert_eq, Hmt. cbn.
           apply lookup_insert_ne. congruence.
        -- by rewrite lookup_insert_ne.
      * intros ? [= <-]. eexists. split.
        -- cbn [ManifestTargets withTarget]. rewrite lookup_insert_eq. cbn.
           apply lookup_insert_eq.
        -- intros -> Hrange. rewrite Z.sub_diag.
           rewrite (wrapInt_id 0) by lia. rewrite Z.sub_0_r.
           by apply wrapInt_id.
    + split; [done |]. split; [done |]. intros p' Hp'. congruence.
  - split; [done |]. split; [done |]. intros p' Hp'. discriminate Hp'.
Qed.

(** X11. [checkForContainerCrash] reports a crash at most once: called
    again on the target it returned, it changes nothing and logs nothing,
    whatever the running containers are by then. *)
Theorem checkForContainerCrash_reports_once (mt : ManifestTarget) :
  let mt' := (checkForContainerCrash api mt).1 in
  (NeedsRebuildFromCrash (State mt') = true
   ∨ checkForContainerCrash api mt = (mt, []))
  ∧ checkForContainerCrash api mt' = (mt', []).
Proof.
  intros mt'. subst mt'.
  assert (H : NeedsRebuildFromCrash (State (checkForContainerCrash api mt).1) = true
              ∨ checkForContainerCrash api mt = (mt, [])).
  { unfold checkForContainerCrash.
    destruct (NeedsRebuildFromCrash (State mt)) eqn:Hflag; [by left |].
    destruct (decide _); [by right | by left]. }
  split; [done |]. destruct H as [H|H].
  - unfold checkForContainerCrash at 1. by rewrite H.
  - rewrite H. cbn [fst]. exact H.
Qed.

End ResetAndCrashProperties.

Section PruneProperties.
Context (api : Collaborators) (range : range_order).
Hypothesis range_perm : range_ok range.

(** X12. [prunePods] removes pods only: what stays tracked was tracked
    with the same record and is not flagged [Deleting]; a pod that is
    neither flagged [Deleting] nor terminated is never removed; and the
    tracked ancestor and the deployed UIDs are untouched. *)
Theorem prunePods_keeps_live_pods (ms : ManifestState) (k : PodID) (p : Pod) :
  let runtime := RuntimeState ms in
  let runtime' := RuntimeState (prunePods api range ms) in
  (Pods runtime' !! k = Some p → Pods runtime !! k = Some p ∧ Deleting p = false)
  ∧ (Pods runtime !! k = Some p → Deleting p = false → isDead p = false →
     Pods runtime' !! k = Some p)
  ∧ PodAncestorUID runtime' = PodAncestorUID runtime
  ∧ DeployedUIDSet runtime' = DeployedUIDSet runtime.
Proof.
  intros runtime runtime'. subst runtime runtime'.
  pose proof (pruneDeleting_lookup range range_perm (Pods (RuntimeState ms)) k) as H1.
  split; [| split; [| split]].
  - apply (prunePods_kept_was_tracked api range range_perm).
  - intros Hk Hdel Hlive. rewrite Hk, Hdel in H1.
    destruct (prunePods_cases api range range_perm ms)
      as [E | (k' & p' & Hk' & Hdead & E)];
      rewrite E; [done |].
    rewrite lookup_delete_ne; [done |]. intros ->. congruence.
  - unfold prunePods. cbv zeta. by destruct (decide _).
  - unfold prunePods. cbv zeta. by destruct (decide _).
Qed.

End PruneProperties.

Section PodChangeProperties.
Context (api : Collaborators) (range : range_order) (now : Time).

Lemma withTarget_other (mn mn' : ManifestName) (mt : ManifestTarget)
    (state : EngineState) (les : list LogAction) :
  mn' ≠ mn →
  ManifestTargets (withTarget mn mt (foldl handleLogAction state les)) !! mn'
  = ManifestTargets state !! mn'.
Proof.
  intros Hne. cbn [withTarget ManifestTargets].
  by rewrite lookup_insert_ne, ManifestTargets_handleLogActions.
Qed.

Lemma ManifestDefinitionOrder_handleLogActions (state : EngineState)
    (les : list LogAction) :
  ManifestDefinitionOrder (foldl handleLogAction state les)
  = ManifestDefinitionOrder state.
Proof.
  revert state. induction les as [|le les IH]; intros state; [done |].
  cbn [foldl]. by rewrite IH.
Qed.

(** X13. [handlePodChangeAction] touches the target named by the action
    only: every other target and the order of the manifests are as before,
    and the log store is extended, never rewritten. *)
Theorem handlePodChangeAction_touches_one_target
    (state : EngineState) (action : k8swatch.PodChangeAction) (mn' : ManifestName) :
  let state' := (handlePodChangeAction api range now state action).1 in
  (mn' ≠ k8swatch.ManifestName_ action →
   ManifestTargets state' !! mn' = ManifestTargets state !! mn')
  ∧ ManifestDefinitionOrder state' = ManifestDefinitionOrder state
  ∧ LogStore state `prefix_of` LogStore state'.
Proof.
  intros state'. subst state'. unfold handlePodChangeAction.
  destruct (matchPodChangeToManifest state action) as [mt|]; [| by repeat split].
  destruct (maybeTrackPod api (State mt) action) as [[ms [podInfo|]] isNew].
  - cbv zeta.
    destruct (decide (length _ = 0%nat)).
    + cbn [fst]. rewrite <- foldl_app. split; [| split].
      * intros Hne. by apply withTarget_other.
      * cbn [withTarget ManifestDefinitionOrder].
        apply ManifestDefinitionOrder_handleLogActions.
      * cbn [withTarget LogStore]. rewrite LogStore_handleLogActions.
        by apply prefix_app_r.
    + destruct (checkForContainerCrash api _) as [mt' les]. cbn [fst].
      rewrite <- !foldl_app. split; [| split].
      * intros Hne. by apply withTarget_other.
      * cbn [withTarget ManifestDefinitionOrder].
        apply ManifestDefinitionOrder_handleLogActions.
      * cbn [withTarget LogStore]. rewrite LogStore_handleLogActions.
        by apply prefix_app_r.
  - cbn [fst]. split; [| split]; [| done | done].
    intros Hne. by apply (withTarget_other _ _ _ _ []).
Qed.

Lemma maybeTrackPod_nil (ms ms' : ManifestState)
    (action : k8swatch.PodChangeAction) (isNew : bool) :
  maybeTrackPod api ms action = (ms', None, isNew) →
  Pods (RuntimeState ms') !! PodIDFromPod api (k8swatch.Pod action) = None.
Proof.
  unfold maybeTrackPod. cbv zeta.
  destruct (HasOKPodTemplateSpecHash api _ _); cbn [negb].
  - destruct (_ || _).
    + cbn [Pods withPodAncestorUID withPods]. by rewrite lookup_empty.
    + by destruct (Pods (RuntimeState ms) !! _).
  - by intros [= <- -> _].
Qed.

Hypothesis range_perm : range_ok range.

(** X14. A pod change that carries a non-zero deletion timestamp and is
    matched to a manifest leaves the pod untracked: the record is flagged
    [Deleting] and pruned in the same call, also when the pod was seen for
    the first time. *)
Theorem handlePodChangeAction_untracks_deleting_pod
    (state : EngineState) (action : k8swatch.PodChangeAction)
    (mt : ManifestTarget) (t : Time) :
  matchPodChangeToManifest state action = Some mt →
  v1.DeletionTimestamp (k8swatch.Pod action) = Some t → t ≠ 0 →
  spec.trackedPod (handlePodChangeAction api range now state action).1
    (k8swatch.ManifestName_ action) (PodIDFromPod api (k8swatch.Pod action))
  = None.
Proof.
  intros Hmatch Hdel Ht. unfold handlePodChangeAction. rewrite Hmatch.
  destruct (maybeTrackPod api (State mt) action) as [[ms [podInfo|]] isNew] eqn:Htrack.
  - cbv zeta.
    set (pod := k8swatch.Pod action). set (key := PodIDFromPod api pod).
    set (stored := updateStatus api pod podInfo).
    set (ms1 := prunePods api range (storePod key stored ms)).
    assert (Hgone : Pods (RuntimeState ms1) !! key = None).
    { destruct (Pods (RuntimeState ms1) !! key) as [p|] eqn:Hp; [| done].
      exfalso.
      destruct (prunePods_kept_was_tracked api range range_perm
                  (storePod key stored ms) key p Hp) as [Hin Hnd].
      cbn in Hin. rewrite lookup_insert_eq in Hin. injection Hin as <-.
      subst stored. unfold updateStatus in Hnd. cbn [Deleting] in Hnd.
      fold pod in Hdel. rewrite Hdel in Hnd. unfold IsZero in Hnd.
      by rewrite (bool_decide_eq_false_2 _ Ht) in Hnd. }
    rewrite bool_decide_eq_false_2 by (rewrite Hgone; by intros [? ?]).
    destruct (decide (length _ = 0%nat)).
    + unfold spec.trackedPod. cbn [fst withTarget ManifestTargets].
      rewrite lookup_insert_eq. exact Hgone.
    + pose proof (checkForContainerCrash_Pods api) as Hcrash.
      match goal with |- context [checkForContainerCrash api ?x] =>
        specialize (Hcrash x); destruct (checkForContainerCrash api x) as [mt' les]
      end.
      unfold spec.trackedPod. cbn [fst withTarget ManifestTargets].
      rewrite lookup_insert_eq. cbn [fst] in Hcrash. rewrite Hcrash.
      cbn [State withState].
      destruct (_ || _); exact Hgone.
  - unfold spec.trackedPod. cbn [fst withTarget ManifestTargets].
    rewrite lookup_insert_eq. cbn [State withState].
    by eapply maybeTrackPod_nil.
Qed.

End PodChangeProperties.

(** ** Terminated pods across pod changes *)

Section PodChangeInvariant.
Context (api : Collaborators) (range : range_order) (now : Time).
Hypothesis range_perm : range_ok range.
Context (after : Pod → Pod → Prop).
Hypothesis after_asym : ∀ p q, after p q → after q p → False.
Hypothesis after_created : ∀ p p' q q',
  StartedAt p' = StartedAt p → PodID_ p' = PodID_ p →
  StartedAt q' = StartedAt q → PodID_ q' = PodID_ q → after p q → after p' q'.
Hypothesis recent : spec.returnsMostRecent after api.

Lemma matchPodChangeToManifest_target (state : EngineState)
    (action : k8swatch.PodChangeAction) (mt : ManifestTarget) :
  matchPodChangeToManifest state action = Some mt →
  ManifestTargets state !! k8swatch.ManifestName_ action = Some mt.
Proof.
  unfold matchPodChangeToManifest.
  destruct (ManifestTargets state !! _) as [mt'|]; [| done].
  cbv zeta. destruct (_ && _); [done |]. by intros [= ->].
Qed.

Lemma maybeTrackPod_nil_unchanged (ms ms' : ManifestState)
    (action : k8swatch.PodChangeAction) (isNew : bool) :
  maybeTrackPod api ms action = (ms', None, isNew) → ms' = ms.
Proof.
  unfold maybeTrackPod. cbv zeta.
  destruct (HasOKPodTemplateSpecHash api _ _); cbn [negb].
  - destruct (_ || _).
    + cbn [Pods withPodAncestorUID withPods]. by rewrite lookup_empty.
    + by destruct (Pods (RuntimeState ms) !! _).
  - by intros [= -> _].
Qed.

(** The record that [maybeTrackPod] returns is stored under the pod's ID,
    and a write to it is a write to the pods tracked before the call or to
    no pods at all. *)
Lemma maybeTrackPod_write (ms ms' : ManifestState)
    (action : k8swatch.PodChangeAction) (tracked : Pod) (isNew : bool) :
  let key := PodIDFromPod api (k8swatch.Pod action) in
  spec.keyedByID (Pods (RuntimeState ms)) →
  maybeTrackPod api ms action = (ms', Some tracked, isNew) →
  PodID_ tracked = key
  ∧ ∃ pods0, (pods0 = Pods (RuntimeState ms) ∨ pods0 = ∅)
             ∧ ∀ p, <[key := p]> (Pods (RuntimeState ms')) = <[key := p]> pods0.
Proof.
  intros key Hkeyed. unfold maybeTrackPod. cbv zeta. fold key.
  destruct (HasOKPodTemplateSpecHash api _ _); cbn [negb].
  - destruct (_ || _).
    + cbn [Pods withPodAncestorUID withPods]. rewrite lookup_empty.
      intros [= <- <- _]. split; [done |]. exists ∅. split; [by right |].
      intros p. cbn. apply insert_insert_eq.
    + destruct (Pods (RuntimeState ms) !! key) as [podInfo|] eqn:Hk.
      * intros [= <- <- _]. split; [by apply Hkeyed |].
        exists (Pods (RuntimeState ms)). split; [by left | done].
      * intros [= <- <- _]. split; [done |].
        exists (Pods (RuntimeState ms)). split; [by left |].
        intros p. cbn. apply insert_insert_eq.
  - intros [= <- Hk _]. split; [by apply Hkeyed |].
    exists (Pods (RuntimeState ms)). split; [by left | done].
Qed.

(** Rewriting a record without changing its pod ID, creation time and
    phase keeps the pods keyed by ID, with only the most recent one
    terminated. *)
Lemma terminatedAreMostRecent_rewrite (pods : gmap PodID Pod) (key : PodID)
    (p p' : Pod) :
  pods !! key = Some p →
  StartedAt p' = StartedAt p → PodID_ p' = PodID_ p → Phase p' = Phase p →
  spec.keyedByID pods → spec.terminatedAreMostRecent after pods →
  spec.keyedByID (<[key := p']> pods)
  ∧ spec.terminatedAreMostRecent after (<[key := p']> pods).
Proof.
  intros Hkey Hstart HID Hphase Hkeyed Hinv. split.
  - intros k q [[<- <-] | [_ Hk]]%lookup_insert_Some; [| by apply Hkeyed].
    rewrite HID. by apply Hkeyed.
  - intros k q Hk Hterm. split; [done |]. intros k' q' Hk' Hne.
    apply lookup_insert_Some in Hk as [[<- <-] | [Hnk Hk]];
      apply lookup_insert_Some in Hk' as [[<- <-] | [Hnk' Hk']]; try done.
    + destruct (Hinv key p Hkey) as [_ A].
      { unfold spec.terminated in *. by rewrite <- Hphase. }
      apply (after_created p p' q' q'); [done.. |]. by eapply A.
    + destruct (Hinv k q Hk Hterm) as [_ A].
      apply (after_created q q p p'); [done.. |]. by eapply A.
    + destruct (Hinv k q Hk Hterm) as [_ A]. by eapply A.
Qed.

(** X26. Pod changes keep the terminated pods of a resource down to the
    most recently created pod: when the pods tracked for the manifest of
    the action are stored under their IDs and none but the most recent one
    is terminated, the same holds after [handlePodChangeAction], and at most
    one tracked pod is terminated. *)
Theorem handlePodChangeAction_keeps_one_terminated_pod
    (state : EngineState) (action : k8swatch.PodChangeAction) :
  let mn := k8swatch.ManifestName_ action in
  let pods := spec.trackedPods state mn in
  let pods' := spec.trackedPods (handlePodChangeAction api range now state action).1 mn in
  spec.keyedByID pods → spec.terminatedAreMostRecent after pods →
  spec.keyedByID pods'
  ∧ spec.terminatedAreMostRecent after pods'
  ∧ (size (filter (λ kv : PodID * Pod, spec.terminated kv.2) pods') ≤ 1)%nat.
Proof.
  intros mn pods pods' Hkeyed Hinv.
  cut (spec.keyedByID pods' ∧ spec.terminatedAreMostRecent after pods').
  { intros [? ?]. split; [done |]. split; [done |].
    by apply (at_most_one_terminated after after_asym). }
  subst pods'. unfold handlePodChangeAction.
  destruct (matchPodChangeToManifest state action) as [mt|] eqn:Hmatch; [| done].
  apply matchPodChangeToManifest_target in Hmatch. fold mn in Hmatch.
  assert (Hpods : pods = Pods (RuntimeState (State mt))).
  { subst pods. unfold spec.trackedPods. by rewrite Hmatch. }
  rewrite Hpods in Hkeyed, Hinv.
  destruct (maybeTrackPod api (State mt) action) as [[ms [tracked|]] isNew] eqn:Htrack.
  - destruct (maybeTrackPod_write _ _ _ _ _ Hkeyed Htrack)
      as (HID & pods0 & Hpods0 & Hwrite).
    cbv zeta.
    set (pod := k8swatch.Pod action) in *. set (key := PodIDFromPod api pod) in *.
    set (stored := updateStatus api pod tracked).
    set (ms1 := prunePods api range (storePod key stored ms)).
    set (updated := updateContainers api isNew pod stored).
    assert (H1 : spec.keyedByID (Pods (RuntimeState ms1))
                 ∧ spec.terminatedAreMostRecent after (Pods (RuntimeState ms1))).
    { apply (prunePods_one_write api range range_perm after after_asym recent
               (storePod key stored ms) pods0 key stored).
      - cbn. apply Hwrite.
      - exact HID.
      - destruct Hpods0 as [-> | ->]; [done | by intros k p ?].
      - destruct Hpods0 as [-> | ->]; [done | by intros k p ?]. }
    set (ms2 := if bool_decide (is_Some (Pods (RuntimeState ms1) !! key))
                then storePod key updated ms1 else ms1).
    assert (H2 : spec.keyedByID (Pods (RuntimeState ms2))
                 ∧ spec.terminatedAreMostRecent after (Pods (RuntimeState ms2))).
    { subst ms2. case_bool_decide as Halive; [| exact H1].
      destruct Halive as [p Hp]. destruct H1 as [K1 I1].
      destruct (prunePods_kept_was_tracked api range range_perm _ _ _ Hp) as [Hin _].
      cbn in Hin. rewrite lookup_insert_eq in Hin. injection Hin as <-.
      cbn [storePod Pods RuntimeState withRuntimeState withPods].
      apply (terminatedAreMostRecent_rewrite _ key stored updated); try done;
        subst updated; unfold updateContainers; by destruct isNew. }
    destruct (decide (length _ = 0%nat)).
    + unfold spec.trackedPods. cbn [fst withTarget ManifestTargets].
      rewrite lookup_insert_eq. exact H2.
    + pose proof (checkForContainerCrash_Pods api) as Hcrash.
      match goal with |- context [checkForContainerCrash api ?x] =>
        specialize (Hcrash x); destruct (checkForContainerCrash api x) as [mt' les]
      end.
      unfold spec.trackedPods. cbn [fst withTarget ManifestTargets].
      rewrite lookup_insert_eq. cbn [fst] in Hcrash. rewrite Hcrash.
      cbn [State withState].
      destruct (_ || _); exact H2.
  - apply maybeTrackPod_nil_unchanged in Htrack as ->.
    unfold spec.trackedPods. cbn [fst withTarget ManifestTargets].
    by rewrite lookup_insert_eq.
Qed.

End PodChangeInvariant.

(** ** Log streams: container filter, status records, stream loop *)

Section LogStreamProperties.

Import runtimelog.

Lemma elem_of_nameSet (names : list string) (n : string) :
  n ∈ nameSet names ↔ n ∈ names.
Proof.
  unfold nameSet.
  assert (H : ∀ acc : gset string,
             n ∈ foldl (λ set name, set ∪ {[name]}) acc names
             ↔ n ∈ acc ∨ n ∈ names).
  { induction names as [|x names IH]; intros acc; cbn [foldl].
    - split; [by left | intros [?|Hin]; [done | inversion Hin]].
    - rewrite IH, elem_of_union, elem_of_singleton, elem_of_cons. tauto. }
  rewrite H. split; [intros [Hin|?]; [set_solver | done] | by right].
Qed.

Lemma appendIf_filter (keep : Container → bool) (containers : list Container) :
  appendIf keep containers = List.filter keep containers.
Proof.
  unfold appendIf.
  assert (H : ∀ acc, foldl (λ result c, if keep c then (result ++ [c])%list else result)
                       acc containers
                     = (acc ++ List.filter keep containers)%list).
  { induction containers as [|c cs IH]; intros acc; cbn [foldl List.filter].
    - by rewrite app_nil_r.
    - rewrite IH. destruct (keep c); [by rewrite <- app_assoc | done]. }
  apply H.
Qed.

Lemma filter_filter_same {A : Type} (f : A → bool) (l : list A) :
  List.filter f (List.filter f l) = List.filter f l.
Proof.
  induction l as [|x l IH]; [done |]. cbn [List.filter].
  destruct (f x) eqn:Hx; [| done]. cbn [List.filter]. by rewrite Hx, IH.
Qed.

Lemma filter_all {A : Type} (l : list A) : List.filter (λ _, true) l = l.
Proof. induction l as [|x l IH]; [done |]. cbn. by rewrite IH. Qed.

(** X15. [filterContainers] keeps, in their order, the containers named
    in [OnlyContainers] when that list is not empty, and otherwise those
    not named in [IgnoreContainers] (all of them when both lists are
    empty); filtering twice is filtering once. *)
Theorem filterContainers_selects (spec : PodLogStreamSpec)
    (containers : list Container) :
  let keep (c : Container) : bool :=
    if decide (OnlyContainers spec ≠ [])
    then bool_decide (Name c ∈ OnlyContainers spec)
    else negb (bool_decide (Name c ∈ IgnoreContainers spec)) in
  filterContainers spec containers = List.filter keep containers
  ∧ filterContainers spec (filterContainers spec containers)
    = filterContainers spec containers.
Proof.
  intros keep.
  assert (H : ∀ cs, filterContainers spec cs = List.filter keep cs).
  { intros cs. unfold filterContainers, keep.
    destruct (OnlyContainers spec) as [|o only] eqn:Ho.
    - rewrite decide_False by (cbn; lia).
      destruct (IgnoreContainers spec) as [|i ignore] eqn:Hi.
      + rewrite decide_False by (cbn; lia).
        rewrite <- (filter_all cs) at 1. apply List.filter_ext. intros c.
        rewrite decide_False by (intros H; by apply H).
        rewrite bool_decide_eq_false_2; [done |]. intros Hin. inversion Hin.
      + rewrite decide_True by (cbn; lia). cbv zeta. rewrite appendIf_filter.
        apply List.filter_ext. intros c.
        rewrite decide_False by (intros H; by apply H). f_equal.
        apply bool_decide_ext, elem_of_nameSet.
    - rewrite decide_True by (cbn; lia). cbv zeta. rewrite appendIf_filter.
      apply List.filter_ext. intros c. rewrite decide_True by done.
      apply bool_decide_ext, elem_of_nameSet. }
  split; [apply H |]. rewrite !H. apply filter_filter_same.
Qed.

Lemma namesMatchFrom_spec (pre cs : list Container)
    (rest : list ContainerLogStreamStatus) :
  length rest = length cs →
  namesMatchFrom (pre ++ cs) (length pre) rest = true
  ↔ map cls_Name rest = map Name cs.
Proof.
  revert pre cs. induction rest as [|st rest IH]; intros pre cs Hlen.
  - destruct cs; [done | discriminate Hlen].
  - destruct cs as [|c cs]; [discriminate Hlen |].
    injection Hlen as Hlen. cbn [namesMatchFrom map].
    rewrite lookup_app_r, Nat.sub_diag by lia. cbn [lookup list_lookup].
    destruct (decide (Name c ≠ cls_Name st)) as [Hne|Heq].
    + split; [done |]. intros [= E _]. by destruct Hne.
    + apply dec_stable in Heq. specialize (IH (pre ++ [c])%list cs Hlen).
      rewrite length_app, <- app_assoc in IH. cbn in IH.
      replace (length pre + 1)%nat with (S (length pre)) in IH by lia.
      rewrite IH. split; [intros ->; by rewrite Heq | by intros [= _ ?]].
Qed.

Lemma namesMatchFrom_start (cs : list Container)
    (rest : list ContainerLogStreamStatus) :
  length rest = length cs →
  namesMatchFrom cs 0 rest = true ↔ map cls_Name rest = map Name cs.
Proof. exact (namesMatchFrom_spec [] cs rest). Qed.

Lemma freshStatuses_spec (containers : list Container) :
  foldl (λ sts c, (sts ++ [mkContainerLogStreamStatus (Name c) false false ""])%list)
        [] containers
  = map (λ c, mkContainerLogStreamStatus (Name c) false false "") containers.
Proof.
  assert (H : ∀ acc,
    foldl (λ sts c, (sts ++ [mkContainerLogStreamStatus (Name c) false false ""])%list)
          acc containers
    = (acc ++ map (λ c, mkContainerLogStreamStatus (Name c) false false "")
                  containers)%list).
  { induction containers as [|c cs IH]; intros acc; cbn [foldl map].
    - by rewrite app_nil_r.
    - by rewrite IH, <- app_assoc. }
  apply H.
Qed.

Lemma ensureStatus_matching (statuses : gmap (string * string) PodLogStreamStatus)
    (streamName : string * string) (containers : list Container)
    (status : PodLogStreamStatus) :
  statuses !! streamName = Some status →
  map cls_Name (ContainerStatuses status) = map Name containers →
  ensureStatus statuses streamName containers = statuses.
Proof.
  intros Hst Hnames. unfold ensureStatus. rewrite Hst.
  assert (Hlen : length (ContainerStatuses status) = length containers).
  { by rewrite <- (length_map cls_Name), Hnames, length_map. }
  rewrite bool_decide_eq_true_2 by done.
  by rewrite (proj2 (namesMatchFrom_start containers _ Hlen) Hnames).
Qed.

Lemma ensureStatus_names (statuses : gmap (string * string) PodLogStreamStatus)
    (streamName : string * string) (containers : list Container) :
  ∃ status', ensureStatus statuses streamName containers !! streamName = Some status'
             ∧ map cls_Name (ContainerStatuses status') = map Name containers.
Proof.
  unfold ensureStatus.
  destruct (statuses !! streamName) as [status|] eqn:Hst.
  - case_bool_decide as Hlen.
    + destruct (namesMatchFrom containers 0 (ContainerStatuses status)) eqn:Hm.
      * exists status. split; [done |].
        by apply namesMatchFrom_start.
      * eexists. split; [apply lookup_insert_eq |].
        cbn. rewrite freshStatuses_spec, map_map. done.
    + eexists. split; [apply lookup_insert_eq |].
      cbn. rewrite freshStatuses_spec, map_map. done.
  - case_bool_decide as Hlen.
    + destruct containers; [| discriminate Hlen]. cbn [namesMatchFrom].
      eexists. split; [apply lookup_insert_eq | done].
    + eexists. split; [apply lookup_insert_eq |].
      cbn. rewrite freshStatuses_spec, map_map. done.
Qed.

(** X16. After [ensureStatus] the stream has a status whose entries carry
    the names of the containers, in order; a status that already does so is
    left as it is (what was recorded for the containers is not reset); and
    the statuses of other streams are untouched. *)
Theorem ensureStatus_aligns_names
    (statuses : gmap (string * string) PodLogStreamStatus)
    (streamName other : string * string) (containers : list Container) :
  let statuses' := ensureStatus statuses streamName containers in
  (∃ status', statuses' !! streamName = Some status'
              ∧ map cls_Name (ContainerStatuses status') = map Name containers)
  ∧ (∀ status, statuses !! streamName = Some status →
       map cls_Name (ContainerStatuses status) = map Name containers →
       statuses' = statuses)
  ∧ (other ≠ streamName → statuses' !! other = statuses !! other).
Proof.
  intros statuses'. subst statuses'. split; [apply ensureStatus_names |].
  split; [apply ensureStatus_matching |].
  intros Hne. unfold ensureStatus.
  destruct (statuses !! streamName) as [status|];
    repeat (first [case_bool_decide | destruct (namesMatchFrom _ _ _)]);
    by rewrite ?lookup_insert_ne.
Qed.

Lemma mutateLoop_spec (containerName : ContainerName)
    (mutate : ContainerLogStreamStatus → ContainerLogStreamStatus)
    (pre rest : list ContainerLogStreamStatus) :
  mutateLoop containerName mutate (length pre) rest (pre ++ rest)
  = (pre ++ map (λ cs, if decide (cls_Name cs = containerName)
                       then mutate cs else cs) rest)%list.
Proof.
  revert pre. induction rest as [|cs rest IH]; intros pre; [done |].
  cbn [mutateLoop map].
  destruct (decide (cls_Name cs ≠ containerName)) as [Hne|Heq].
  - rewrite decide_False by done.
    specialize (IH (pre ++ [cs])%list).
    rewrite length_app, <- !app_assoc in IH. cbn in IH.
    by replace (length pre + 1)%nat with (S (length pre)) in IH by lia.
  - apply dec_stable in Heq. rewrite decide_True by done.
    rewrite insert_app_r_alt, Nat.sub_diag by lia. cbn [insert list_insert].
    specialize (IH (pre ++ [mutate cs])%list).
    rewrite length_app, <- !app_assoc in IH. cbn in IH.
    by replace (length pre + 1)%nat with (S (length pre)) in IH by lia.
Qed.

(** X17. [mutateStatus] applies the mutation to the entries of the named
    container of the named stream and to nothing else, and does nothing
    for a stream without status.  When the mutation keeps the name of an
    entry, as the three mutations of the controller do, a following
    [ensureStatus] for the same containers keeps what was recorded. *)
Theorem mutateStatus_survives_ensureStatus
    (statuses : gmap (string * string) PodLogStreamStatus)
    (streamName : string * string) (containers : list Container)
    (containerName : ContainerName)
    (mutate : ContainerLogStreamStatus → ContainerLogStreamStatus) :
  (∀ cs, cls_Name (mutate cs) = cls_Name cs) →
  let ensured := ensureStatus statuses streamName containers in
  let mutated := mutateStatus ensured streamName containerName mutate in
  (statuses !! streamName = None →
   mutateStatus statuses streamName containerName mutate = statuses)
  ∧ (∀ status, ensured !! streamName = Some status →
       mutated !! streamName
       = Some (mkPodLogStreamStatus
                 (map (λ cs, if decide (cls_Name cs = containerName)
                             then mutate cs else cs)
                      (ContainerStatuses status))))
  ∧ ensureStatus mutated streamName containers = mutated.
Proof.
  intros Hname ensured mutated.
  assert (Hmut : ∀ status, ensured !! streamName = Some status →
    mutated !! streamName
    = Some (mkPodLogStreamStatus
              (map (λ cs, if decide (cls_Name cs = containerName)
                          then mutate cs else cs)
                   (ContainerStatuses status)))).
  { intros status Hst. subst mutated. unfold mutateStatus. rewrite Hst.
    rewrite lookup_insert_eq. do 2 f_equal.
    exact (mutateLoop_spec containerName mutate [] (ContainerStatuses status)). }
  split; [| split; [exact Hmut |]].
  - intros Hnone. unfold mutateStatus. by rewrite Hnone.
  - destruct (ensureStatus_names statuses streamName containers)
      as (status & Hst & Hnames).
    fold ensured in Hst. apply (ensureStatus_matching _ _ _ _ (Hmut status Hst)).
    cbn [ContainerStatuses]. rewrite <- Hnames, map_map.
    apply map_ext. intros cs. by destruct (decide _).
Qed.

(** A context derived with [WithCancel] and cancelled has a non-nil
    [Err()], whatever its parent. *)
Lemma ErrIsNil_cancelled (ctx : Context) : ErrIsNil (cancel (WithCancel ctx)) = false.
Proof. reflexivity. Qed.

Lemma afterCopy_no_error (ctx : Context) (retry err : bool) :
  SetError ∉ afterCopy ctx retry err.
Proof.
  unfold afterCopy. cbv zeta. rewrite ErrIsNil_cancelled, andb_false_r.
  intros [? | ?%elem_of_nil]%elem_of_cons; done.
Qed.

(** The end of the stream loop when [io.Copy] returns by itself is the end
    of an iteration under any context, with [retry] unset. *)
Lemma consumeLoop_copy_ends (ctx : Context) (opening : bool) (start : Time)
    (err : bool) (rest : list observation) :
  consumeLoop opening start (CopyEnds err :: rest)
  = ((if opening then [SetActive] else []) ++ afterCopy ctx false err)%list.
Proof.
  unfold afterCopy. cbv zeta. rewrite ErrIsNil_cancelled.
  cbn [consumeLoop]. by rewrite !andb_false_r.
Qed.

Lemma consumeLoop_error_needs_open_failure (opening : bool) (start : Time)
    (obs : list observation) :
  SetError ∈ consumeLoop opening start obs → OpenFails ∈ obs.
Proof.
  revert opening start. induction obs as [|o obs IH]; intros opening start.
  - intros Hin. inversion Hin.
  - destruct o as [lastRead elapsed| |err].
    + cbn [consumeLoop]. destruct (healthCheckTick lastRead elapsed) as [t|];
        rewrite elem_of_app; intros [Hin|Hin].
      * destruct opening; set_solver.
      * right. apply (IH true t). set_solver.
      * destruct opening; set_solver.
      * right. by apply (IH false start).
    + intros _. by left.
    + rewrite (consumeLoop_copy_ends (Root false)), elem_of_app.
      intros [Hin | Hin]; [destruct opening; set_solver |].
      by destruct (afterCopy_no_error _ _ _ Hin).
Qed.

(** X18. The test that guards the recording of an error of [io.Copy] reads
    the context derived at the head of the iteration, after that context
    was cancelled: whatever the context of [consumeLogs], the value of
    [retry] and the error, no error is recorded after [io.Copy] returned.
    The stream loop ends accordingly when [io.Copy] returns by itself, and
    [consumeLogs] records an error only when opening the stream failed. *)
Theorem consumeLogs_records_only_open_errors :
  (∀ ctx retry err, SetError ∉ afterCopy ctx retry err)
  ∧ (∀ ctx opening start err rest,
       consumeLoop opening start (CopyEnds err :: rest)
       = ((if opening then [SetActive] else []) ++ afterCopy ctx false err)%list)
  ∧ (∀ startWatchTime obs,
       SetError ∈ consumeLogs startWatchTime obs → OpenFails ∈ obs).
Proof.
  split; [exact afterCopy_no_error |]. split; [exact consumeLoop_copy_ends |].
  intros startWatchTime obs. unfold consumeLogs.
  intros [Hd|Hin]%elem_of_cons; [discriminate Hd |].
  by eapply consumeLoop_error_needs_open_failure.
Qed.

Lemma consumeLoop_opens_after_stale_reads (opening : bool) (start t : Time)
    (obs : list observation) :
  ContainerLogs t ∈ consumeLoop opening start obs →
  ∃ lastRead elapsed, Tick lastRead elapsed ∈ obs ∧ lastRead ≠ 0
                      ∧ podLogHealthCheck ≤ elapsed
                      ∧ t = lastRead + podLogReconnectGap.
Proof.
  revert opening start. induction obs as [|o obs IH]; intros opening start.
  - intros Hin. inversion Hin.
  - destruct o as [lastRead elapsed| |err]; cbn [consumeLoop].
    + unfold healthCheckTick, IsZero.
      case_bool_decide as Hz; cbn [orb].
      * rewrite elem_of_app. intros [Hin|Hin]; [destruct opening; set_solver |].
        destruct (IH false start Hin) as (lr & el & ? & ?).
        exists lr, el. split; [by right | done].
      * case_bool_decide as Hel.
        -- rewrite elem_of_app. intros [Hin|Hin]; [destruct opening; set_solver |].
           destruct (IH false start Hin) as (lr & el & ? & ?).
           exists lr, el. split; [by right | done].
        -- rewrite elem_of_app, !elem_of_cons.
           intros [Hin|[Hd|[[= ->]|Hin]]];
             [destruct opening; set_solver | discriminate Hd | |].
           ++ exists lastRead, elapsed. split; [by left |].
              unfold Add. repeat split; [done | lia].
           ++ destruct (IH true _ Hin) as (lr & el & ? & ?).
              exists lr, el. split; [by right | done].
    + destruct opening; [set_solver |]. intros Hin.
      destruct (IH false start Hin) as (lr & el & ? & ?).
      exists lr, el. split; [by right | done].
    + cbn [negb andb]. rewrite andb_false_r. destruct opening; set_solver.
Qed.

(** X19. Every start time with which [consumeLogs] opens the stream is the
    start time of the watch or lies the reconnect gap after a non-zero last
    read time that a tick found at least the health-check interval old; a
    tick with a zero last read time or a younger read changes nothing. *)
Theorem consumeLogs_reopens_only_after_stale_reads
    (startWatchTime t : Time) (obs : list observation) :
  (ContainerLogs t ∈ consumeLogs startWatchTime obs →
   t = startWatchTime
   ∨ ∃ lastRead elapsed, Tick lastRead elapsed ∈ obs ∧ lastRead ≠ 0
                         ∧ podLogHealthCheck ≤ elapsed
                         ∧ t = lastRead + podLogReconnectGap)
  ∧ ∀ lastRead elapsed start,
      lastRead = 0 ∨ elapsed < podLogHealthCheck →
      consumeLoop false start (Tick lastRead elapsed :: obs)
      = consumeLoop false start obs.
Proof.
  split.
  - unfold consumeLogs. intros [[= ->]|Hin]%elem_of_cons; [by left |].
    right. by eapply consumeLoop_opens_after_stale_reads.
  - intros lastRead elapsed start Hfresh. cbn [consumeLoop].
    unfold healthCheckTick, IsZero.
    destruct Hfresh as [->|Hel].
    + by rewrite bool_decide_eq_true_2.
    + rewrite (bool_decide_eq_true_2 (elapsed < podLogHealthCheck)) by done.
      by rewrite orb_true_r.
Qed.

End LogStreamProperties.

(** ** Port forwards: validity and the active set *)

Section PortForwardProperties.

Import portforward.

Context (api : Collaborators) (range : range_order).

Lemma length_omap_full {A B : Type} (f : A → option B) (l : list A) :
  length (omap f l) = length l ↔ ∀ x, x ∈ l → is_Some (f x).
Proof.
  assert (Hle : ∀ l', (length (omap f l') ≤ length l')%nat).
  { induction l' as [|y l' IH]; [done |]. cbn. destruct (f y); cbn; lia. }
  induction l as [|x l IH]; [split; [intros _ y Hy; inversion Hy | done] |].
  cbn [omap list_omap]. destruct (f x) as [b|] eqn:Hx; cbn [length].
  - split.
    + intros [= Hlen] y [->|Hy]%elem_of_cons; [by rewrite Hx | by apply IH].
    + intros Hall. f_equal. apply IH. intros y Hy. apply Hall. by right.
  - split.
    + intros Hlen. pose proof (Hle l). lia.
    + intros Hall. destruct (Hall x) as [? Hs]; [by left | congruence].
Qed.

(** X20. [PortForwardsAreValid] holds exactly when no forward is dropped:
    the pod exposes a container port, or every forward of the manifest
    names its container port. *)
Theorem PortForwardsAreValid_iff (m : model.Manifest) (pod : Pod) :
  PortForwardsAreValid api m pod = true
  ↔ AllContainerPorts api pod ≠ []
    ∨ ∀ f, f ∈ model.PortForwards m → model.ContainerPort f ≠ 0.
Proof.
  unfold PortForwardsAreValid, populatePortForwards. cbv zeta.
  rewrite populateLoop_spec, app_nil_l, bool_decide_eq_true, length_omap_full.
  unfold spec.resolveForward.
  destruct (AllContainerPorts api pod) as [|first ports]; split.
  - intros Hall. right. intros f Hf Hz. specialize (Hall f Hf).
    rewrite decide_True in Hall by done. by destruct Hall.
  - intros [?|Hall] f Hf; [done |]. rewrite decide_False by by apply Hall. by eexists.
  - intros _. by left.
  - intros _ f Hf. destruct (decide _); by eexists.
Qed.

(** X21. Every forward that [populatePortForwards] returns comes from a
    forward of the manifest with the same local port, host and name: either
    that forward itself, naming its container port, or, for a forward that
    names none, a copy whose container port is one the pod exposes. *)
Theorem populatePortForwards_ports_are_exposed
    (m : model.Manifest) (pod : Pod) (f' : model.PortForward) :
  f' ∈ populatePortForwards api m pod →
  ∃ f, f ∈ model.PortForwards m
       ∧ model.LocalPort f' = model.LocalPort f
       ∧ model.Host f' = model.Host f
       ∧ model.Name f' = model.Name f
       ∧ ((model.ContainerPort f ≠ 0 ∧ f' = f)
          ∨ (model.ContainerPort f = 0
             ∧ model.ContainerPort f' ∈ AllContainerPorts api pod)).
Proof.
  unfold populatePortForwards. cbv zeta.
  rewrite populateLoop_spec, app_nil_l, list_elem_of_omap.
  intros (f & Hf & Hres). exists f. split; [done |].
  unfold spec.resolveForward in Hres.
  destruct (decide (model.ContainerPort f = 0)) as [Hz|Hnz].
  - destruct (AllContainerPorts api pod) as [|first ports]; [done |].
    injection Hres as <-. cbn. repeat split; try done. right. split; [done |].
    destruct (decide _); [done | by left].
  - injection Hres as <-. repeat split; try done. by left.
Qed.

Hypothesis range_perm : range_ok range.

Lemma first_loop_covers (ts : list ManifestTarget) (d : diffState) (p : PodID) :
  p ∈ desiredPods api ts →
  ∃ e mt, d_activeForwards (foldl (diffTarget api) d ts) !! p = Some e
          ∧ mt ∈ ts ∧ desiredForward api mt = Some (p, forwards e).
Proof.
  induction ts as [|mt ts IH] using rev_ind.
  - intros Hin. apply elem_of_desiredPods in Hin as (? & ? & Hin & _). inversion Hin.
  - intros Hin. rewrite foldl_app. cbn [foldl].
    set (d1 := foldl (diffTarget api) d ts) in *.
    destruct (desiredForward api mt) as [[q f]|] eqn:Hd.
    + rewrite (diffTarget_desired api d1 mt q f Hd). cbv zeta.
      destruct (decide (q = p)) as [->|Hne].
      * destruct (d_activeForwards d1 !! p) as [old|] eqn:Hold;
          [destruct (decide (forwards old = f)) as [ <- | ? ] |];
          cbn [d_activeForwards]; rewrite ?lookup_insert_eq;
          eexists _, mt; (split; [done |]); (split; [set_solver | done]).
      * assert (Hin' : p ∈ desiredPods api ts).
        { apply elem_of_desiredPods in Hin as (mt' & f' & Hmt' & Hd').
          apply elem_of_app in Hmt' as [? | ->%list_elem_of_singleton];
            [apply elem_of_desiredPods; by exists mt', f' | congruence]. }
        destruct (IH Hin') as (e & mt' & He & Hmt' & Hd').
        exists e, mt'.
        split; [| split; [set_solver | done]].
        destruct (d_activeForwards d1 !! q) as [old|];
          [destruct (decide (forwards old = f)) |];
          cbn [d_activeForwards]; by rewrite ?lookup_insert_ne.
    + rewrite (diffTarget_skip api d1 mt Hd).
      assert (Hin' : p ∈ desiredPods api ts).
      { apply elem_of_desiredPods in Hin as (mt' & f' & Hmt' & Hd').
        apply elem_of_app in Hmt' as [? | ->%list_elem_of_singleton];
          [apply elem_of_desiredPods; by exists mt', f' | congruence]. }
      destruct (IH Hin') as (e & mt' & He & Hmt' & Hd').
      exists e, mt'. split; [done | split; [set_solver | done]].
Qed.

(** X22. Whatever forwards were active before, after a run of [diff] the
    active forwards are exactly on the pods that some target asks forwards
    for, and the forwards of each active entry are those that a target asks
    for that pod. *)
Theorem diff_active_is_desired (m : Controller) (st : EngineState) (p : PodID) :
  let active' := activeForwards (diff api range m st).1 in
  (is_Some (active' !! p) ↔ p ∈ desiredPods api (Targets api st))
  ∧ ∀ e, active' !! p = Some e →
         ∃ mt, mt ∈ Targets api st ∧ desiredForward api mt = Some (p, forwards e).
Proof.
  intros active'. subst active'. unfold diff. cbv zeta. cbn [fst activeForwards].
  set (ts := Targets api st).
  set (d1 := foldl (diffTarget api) (mkDiffState (activeForwards m) ∅ [] []) ts).
  assert (Hpods1 : d_statePods d1 = desiredPods api ts).
  { subst d1. rewrite first_loop_statePods. cbn [d_statePods].
    by rewrite (left_id_L ∅ (∪)). }
  destruct (second_loop_lookup (range _ (d_activeForwards d1)) d1 p)
    as (_ & Hkeep & Hout & Hgone).
  rewrite Hpods1 in Hkeep, Hgone.
  destruct (decide (p ∈ desiredPods api ts)) as [Hin|Hnin].
  - rewrite (Hkeep Hin).
    destruct (first_loop_covers ts (mkDiffState (activeForwards m) ∅ [] []) p Hin)
      as (e & mt & He & Hmt & Hd).
    fold d1 in He. rewrite He. split; [by split; [| eexists] |].
    intros e' [= <-]. by exists mt.
  - assert (Hnone : d_activeForwards
                      (foldl diffActive d1 (range _ (d_activeForwards d1))) !! p
                    = None).
    { destruct (decide (p ∈ (range _ (d_activeForwards d1)).*1)) as [Hk|Hk].
      - by apply Hgone.
      - rewrite (Hout Hk).
        destruct (d_activeForwards d1 !! p) as [v|] eqn:Hv; [| done].
        exfalso. apply Hk, list_elem_of_fmap. exists (p, v).
        split; [done | by apply (elem_of_range range range_perm)]. }
    rewrite Hnone. split; [| done].
    split; [by intros [? ?] | done].
Qed.

End PortForwardProperties.

(** ** The status column *)

Section PodStatusProperties.

Import k8swatch.

Context (itoa : Z → string) (ErrorWaitingReasons : string → bool).

Lemma prefix_Init (s : string) : String.prefix "Init:" ("Init:" ++ s) = true.
Proof. cbn. by destruct s. Qed.

Lemma initReason_initializing (pod : corev1.Pod) (i : nat)
    (statuses : list corev1.ContainerStatus) (reason : string) :
  isPodStillInitializingLoop statuses = true →
  String.prefix "Init:" (initReason itoa pod i statuses reason) = true.
Proof.
  revert i. induction statuses as [|c statuses IH]; intros i; [done |].
  cbn [isPodStillInitializingLoop initReason]. unfold isFinished.
  destruct (corev1.Terminated (corev1.State c)) as [t|].
  - destruct (decide (corev1.t_ExitCode t = 0)) as [Hz|Hnz].
    + rewrite (bool_decide_eq_true_2 _ Hz). cbn [negb]. apply IH.
    + intros _. destruct (decide _); [destruct (decide _) |]; try reflexivity.
      apply prefix_Init.
  - intros _. destruct (corev1.Waiting (corev1.State c)) as [w|];
      [destruct (_ && _) |]; apply prefix_Init.
Qed.

Lemma initReason_finished (pod : corev1.Pod) (i : nat)
    (statuses : list corev1.ContainerStatus) (reason : string) :
  isPodStillInitializingLoop statuses = false →
  initReason itoa pod i statuses reason = reason.
Proof.
  revert i. induction statuses as [|c statuses IH]; intros i; [done |].
  cbn [isPodStillInitializingLoop initReason]. unfold isFinished.
  destruct (corev1.Terminated (corev1.State c)) as [t|]; [| done].
  destruct (decide (corev1.t_ExitCode t = 0)) as [Hz|Hnz].
  - rewrite (bool_decide_eq_true_2 _ Hz). cbn [negb]. apply IH.
  - by rewrite (bool_decide_eq_false_2 _ Hnz).
Qed.

(** X23. While some init container has not terminated with exit code 0,
    the status of the pod starts with [Init:], whatever the states of its
    other containers. *)
Theorem PodStatusToString_initializing (pod : corev1.Pod) :
  isPodStillInitializing pod = true →
  String.prefix "Init:" (PodStatusToString itoa pod) = true.
Proof.
  intros Hinit. unfold PodStatusToString. cbv zeta. rewrite Hinit.
  by apply initReason_initializing.
Qed.

(** X24. Once the init containers are done, the status of a pod whose first
    container waits with a reason is that reason, whatever the states of the
    later containers: the containers are visited from last to first. *)
Theorem PodStatusToString_first_container_wins
    (pod : corev1.Pod) (c : corev1.ContainerStatus)
    (rest : list corev1.ContainerStatus) (w : corev1.ContainerStateWaiting) :
  isPodStillInitializing pod = false →
  corev1.ContainerStatuses pod = c :: rest →
  corev1.Waiting (corev1.State c) = Some w → corev1.w_Reason w ≠ "" →
  PodStatusToString itoa pod = corev1.w_Reason w.
Proof.
  intros Hinit Hcs Hw Hreason. unfold PodStatusToString. cbv zeta.
  rewrite Hinit, Hcs, reverse_cons, foldl_app. cbn [foldl].
  unfold containerReason at 1. cbv zeta. rewrite Hw. by rewrite decide_True.
Qed.

(** X25. A pod whose init containers are done and whose containers neither
    wait nor have terminated shows its status reason, or its phase when it
    has none, and has no error message. *)
Theorem PodStatus_of_running_pod (pod : corev1.Pod) :
  isPodStillInitializing pod = false →
  (∀ c, c ∈ corev1.ContainerStatuses pod →
        corev1.Waiting (corev1.State c) = None
        ∧ corev1.Terminated (corev1.State c) = None) →
  PodStatusToString itoa pod
  = (if decide (corev1.Reason pod ≠ "") then corev1.Reason pod else corev1.Phase pod)
  ∧ PodStatusErrorMessages ErrorWaitingReasons pod = [].
Proof.
  intros Hinit Hrun. unfold PodStatusToString, PodStatusErrorMessages. cbv zeta.
  rewrite Hinit. unfold isPodStillInitializing in Hinit.
  rewrite (initReason_finished _ _ _ _ Hinit).
  assert (Hrev : ∀ c, c ∈ reverse (corev1.ContainerStatuses pod) →
                      corev1.Waiting (corev1.State c) = None
                      ∧ corev1.Terminated (corev1.State c) = None).
  { intros c Hc. apply Hrun. by apply elem_of_reverse. }
  clear Hrun. generalize dependent (reverse (corev1.ContainerStatuses pod)).
  intros l Hl. split.
  - generalize (if decide (corev1.Reason pod ≠ "") then corev1.Reason pod
                else corev1.Phase pod) as reason.
    induction l as [|c l IH]; intros reason; [done |]. cbn [foldl].
    destruct (Hl c) as [Hw Ht]; [by left |].
    unfold containerReason at 2. cbv zeta. rewrite Hw, Ht.
    apply IH. intros c' Hc'. apply Hl. by right.
  - induction l as [|c l IH]; [done |]. cbn [foldl].
    destruct (Hl c) as [Hw Ht]; [by left |].
    unfold containerStatusErrorMessages at 2. cbv zeta. rewrite Hw, Ht.
    apply IH. intros c' Hc'. apply Hl. by right.
Qed.

End PodStatusProperties.

(** ** The further properties at concrete inputs *)

Section FurtherInstances.

Lemma set_order_canonical_ok : k8swatch.set_order_ok k8swatch.set_order_canonical.
Proof. intros s. reflexivity. Qed.

(** Pod [P1] is observed before the deployment of [foo] is known. *)
Lemma pod_replay_witness :
  k8swatch.mkPodChangeAction (fixtures.observedPod "P1" 0) "foo" "U-deploy"
  ∈ (k8swatch.podSetupNewUIDs range_canonical k8swatch.set_order_canonical
       (k8swatch.triagePodTree
          (k8swatch.upsertPod fixtures.emptyWatcher (fixtures.observedPod "P1" 0))
          (fixtures.observedPod "P1" 0) (fixtures.chainOf "uid-P1")).1
       {["U-deploy" := "foo"]}).2.
Proof.
  apply (pod_observed_before_deploy_is_replayed range_canonical
           k8swatch.set_order_canonical range_canonical_ok set_order_canonical_ok).
  - cbn. by repeat constructor.
  - discriminate.
  - reflexivity.
  - reflexivity.
Defined.

Lemma pod_deployed_directly_witness :
  (k8swatch.podSetupNewUIDs range_canonical k8swatch.set_order_canonical
     (k8swatch.upsertPod fixtures.emptyWatcher (fixtures.observedPod "P1" 0))
     {["uid-P1" := "foo"]}).2
  = [k8swatch.mkPodChangeAction (fixtures.observedPod "P1" 0) "foo" "uid-P1"].
Proof.
  apply (podSetupNewUIDs_deployed_pod range_canonical k8swatch.set_order_canonical
           range_canonical_ok).
  reflexivity.
Defined.

(** Pod [P1] is observed after the deployment of [foo] became known. *)
Lemma pod_after_deploy_witness :
  (k8swatch.dispatchPodChange
     (k8swatch.podSetupNewUIDs range_canonical k8swatch.set_order_canonical
        (k8swatch.upsertPod fixtures.emptyWatcher (fixtures.observedPod "P1" 0))
        {["U-deploy" := "foo"]}).1
     (fixtures.observedPod "P1" 0) (inl (fixtures.chainOf "uid-P1"))).1.2
  = [k8swatch.mkPodChangeAction (fixtures.observedPod "P1" 0) "foo" "U-deploy"].
Proof.
  apply (pod_observed_after_deploy_is_dispatched range_canonical
           k8swatch.set_order_canonical range_canonical_ok
           (k8swatch.upsertPod fixtures.emptyWatcher (fixtures.observedPod "P1" 0))
           {["U-deploy" := "foo"]} (fixtures.observedPod "P1" 0)
           (fixtures.observedPod "P1" 0) (fixtures.chainOf "uid-P1")
           ["uid-P1"; "U-rs"] [] "U-deploy" "foo").
  - reflexivity.
  - discriminate.
  - reflexivity.
  - intros b [->|[->|Hb]%elem_of_cons]%elem_of_cons; [by split.. |]. inversion Hb.
  - reflexivity.
Defined.

Lemma event_replay_witness :
  k8swatch.mkK8sEventAction fixtures.backOff "foo"
  ∈ (k8swatch.eventSetupNewUIDs range_canonical k8swatch.set_order_canonical
       (k8swatch.triageEventUpdate fixtures.emptyManager fixtures.backOff
          (fixtures.chainOf "uid-P1")).1
       {["U-deploy" := "foo"]}).2.
Proof.
  apply (event_observed_before_deploy_is_replayed range_canonical
           k8swatch.set_order_canonical range_canonical_ok set_order_canonical_ok
           fixtures.emptyManager fixtures.backOff (fixtures.chainOf "uid-P1")
           {["U-deploy" := "foo"]} "U-deploy" "foo").
  - cbn. by repeat constructor.
  - reflexivity.
Defined.

Lemma maybeTrackPod_tracked_record_witness :
  Pods (RuntimeState
          (maybeTrackPod fixtures.api (State (fixtures.fooTarget {["U1"]} ∅))
             (k8swatch.mkPodChangeAction (fixtures.observedPod "P2" 0) "foo" "U1")).1.1)
    !! "P2"
  = Some (newPod "P2").
Proof.
  refine (proj1 (maybeTrackPod_returns_tracked_record fixtures.api
                   (State (fixtures.fooTarget {["U1"]} ∅)) _
                   (k8swatch.mkPodChangeAction (fixtures.observedPod "P2" 0) "foo" "U1")
                   (newPod "P2") true _)).
  reflexivity.
Defined.

Lemma prunePods_keeps_live_pods_witness :
  Pods (RuntimeState (prunePods fixtures.api range_canonical fixtures.rollout))
    !! "web-3"
  = Some (fixtures.runningPod "web-3" 3).
Proof.
  apply (proj1 (proj2 (prunePods_keeps_live_pods fixtures.api range_canonical
                         range_canonical_ok fixtures.rollout "web-3"
                         (fixtures.runningPod "web-3" 3))));
    reflexivity.
Defined.

Lemma deleting_pod_witness :
  spec.trackedPod
    (handlePodChangeAction fixtures.api range_canonical 0
       (fixtures.fooState {["U1"]})
       (k8swatch.mkPodChangeAction fixtures.deletedPod "foo" "U1")).1
    "foo" "P1"
  = None.
Proof.
  apply (handlePodChangeAction_untracks_deleting_pod fixtures.api range_canonical 0
           range_canonical_ok (fixtures.fooState {["U1"]})
           (k8swatch.mkPodChangeAction fixtures.deletedPod "foo" "U1")
           (fixtures.fooTarget {["U1"]} ∅) 5);
    [reflexivity | reflexivity | discriminate].
Defined.

Lemma mutateStatus_witness :
  let mutated :=
    runtimelog.mutateStatus
      (runtimelog.ensureStatus ∅ fixtures.webStream [fixtures.appContainer])
      fixtures.webStream "app" runtimelog.markActive in
  mutated !! fixtures.webStream
  = Some (runtimelog.mkPodLogStreamStatus
            [runtimelog.mkContainerLogStreamStatus "app" true false ""])
  ∧ runtimelog.ensureStatus mutated fixtures.webStream [fixtures.appContainer]
    = mutated.
Proof.
  split; [reflexivity |].
  apply (proj2 (proj2 (mutateStatus_survives_ensureStatus ∅ fixtures.webStream
                         [fixtures.appContainer] "app" runtimelog.markActive
                         (λ cs, eq_refl)))).
Defined.

(** The succeeded pod [job-2] is observed for resource [foo], which tracks
    the running pod [P1]. *)
Lemma handlePodChangeAction_keeps_one_terminated_pod_witness :
  (size (filter (λ kv : PodID * Pod, spec.terminated kv.2)
           (spec.trackedPods
              (handlePodChangeAction fixtures.apiByCreation range_canonical 0
                 (fixtures.fooState {["U1"]})
                 (k8swatch.mkPodChangeAction
                    (fixtures.observedAt "job-2" 2 PodSucceeded) "foo" "U1")).1
              "foo")) ≤ 1)%nat.
Proof.
  apply (handlePodChangeAction_keeps_one_terminated_pod fixtures.apiByCreation
           range_canonical 0 range_canonical_ok fixtures.createdAfter
           createdAfter_asym createdAfter_created MostRecentByCreation_recent
           (fixtures.fooState {["U1"]})).
  - change (spec.keyedByID {["P1" := fixtures.trackedP1]}).
    by intros k p [<- <-]%lookup_singleton_Some.
  - change (spec.terminatedAreMostRecent fixtures.createdAfter
              {["P1" := fixtures.trackedP1]}).
    intros k p [<- <-]%lookup_singleton_Some [H | H]; discriminate H.
Defined.

Lemma consumeLogs_open_error_witness :
  runtimelog.OpenFails ∈ [runtimelog.OpenFails].
Proof.
  apply (proj2 (proj2 consumeLogs_records_only_open_errors) 0).
  rewrite list_elem_of_In. vm_compute. tauto.
Defined.

Lemma populatePortForwards_witness :
  ∃ f, f ∈ [fixtures.forwardFrom 8000]
       ∧ 8000 = model.LocalPort f
       ∧ "localhost" = model.Host f
       ∧ "" = model.Name f
       ∧ ((model.ContainerPort f ≠ 0
           ∧ model.mkPortForward 8080 8000 "localhost" "" "" = f)
          ∨ (model.ContainerPort f = 0 ∧ 8080 ∈ [8080])).
Proof.
  apply (populatePortForwards_ports_are_exposed fixtures.api
           (model.mkManifest "foo" [fixtures.forwardFrom 8000])
           (fixtures.runningPod "web-3" 3)
           (model.mkPortForward 8080 8000 "localhost" "" "")).
  cbn. by left.
Defined.

Lemma diff_active_witness :
  is_Some (portforward.activeForwards
             (portforward.diff fixtures.api range_canonical fixtures.idle
                fixtures.distinctPodIDs).1 !! "web-0").
Proof.
  apply (proj1 (diff_active_is_desired fixtures.api range_canonical
                  range_canonical_ok fixtures.idle fixtures.distinctPodIDs "web-0")).
  apply elem_of_desiredPods.
  exists (fixtures.targetWithPod "frontend" "ns-a" "web-0" 8000),
         [model.mkPortForward 8080 8000 "localhost" "" ""].
  split; [| reflexivity].
  change (Targets fixtures.api fixtures.distinctPodIDs)
    with [fixtures.targetWithPod "frontend" "ns-a" "web-0" 8000;
          fixtures.targetWithPod "backend" "ns-b" "db-0" 9000].
  by left.
Defined.

Lemma PodStatusToString_initializing_witness :
  String.prefix "Init:" (k8swatch.PodStatusToString fixtures.itoa fixtures.initializingPod)
  = true.
Proof.
  apply (PodStatusToString_initializing fixtures.itoa fixtures.initializingPod).
  reflexivity.
Defined.

Lemma PodStatusToString_crash_loop_witness :
  k8swatch.PodStatusToString fixtures.itoa fixtures.crashingPod = "CrashLoopBackOff".
Proof.
  apply (PodStatusToString_first_container_wins fixtures.itoa fixtures.crashingPod
           (fixtures.containerIn (fixtures.waitingState "CrashLoopBackOff"))
           [fixtures.containerIn fixtures.runningState]
           (corev1.mkWaiting "CrashLoopBackOff" ""));
    [reflexivity | reflexivity | reflexivity | discriminate].
Defined.

Lemma PodStatus_of_running_pod_witness :
  k8swatch.PodStatusToString fixtures.itoa fixtures.healthyPod = "Running"
  ∧ k8swatch.PodStatusErrorMessages (λ _, false) fixtures.healthyPod = [].
Proof.
  apply (PodStatus_of_running_pod fixtures.itoa (λ _, false) fixtures.healthyPod);
    [reflexivity |].
  intros c [->|[->|Hc]%elem_of_cons]%elem_of_cons; [by split.. |]. inversion Hc.
Defined.

End FurtherInstances.

(** ** Further runs of the embedded code *)

Section FurtherExamples.

Example ShouldLogEvent_run :
  k8swatch.ShouldLogEvent fixtures.backOff = true
  ∧ k8swatch.ShouldLogEvent (v1.mkEvent "e" "u" "Normal" "Pulled") = true
  ∧ k8swatch.ShouldLogEvent (v1.mkEvent "e" "u" "Normal" "Scheduled") = false.
Proof. done. Qed.

Example PodStatusToString_init_waiting :
  k8swatch.PodStatusToString fixtures.itoa fixtures.initializingPod = "Init:1/2".
Proof. reflexivity. Qed.

Example PodStatusToString_exit_code :
  k8swatch.PodStatusToString fixtures.itoa
    (corev1.mkPod "Running" "" []
       [fixtures.containerIn fixtures.runningState;
        fixtures.containerIn (fixtures.exitedState 137)] 0)
  = "ExitCode:137".
Proof. reflexivity. Qed.

Example PodStatusErrorMessages_run :
  k8swatch.PodStatusErrorMessages (λ reason, bool_decide (reason = "ErrImagePull"))
    (corev1.mkPod "Pending" "" []
       [corev1.mkContainerStatus
          (corev1.mkContainerState
             (Some (corev1.mkWaiting "ErrImagePull" "pull access denied")) None)
          (corev1.mkContainerState None
             (Some (corev1.mkTerminated 1 0 "Error" "exited with 1")))] 0)
  = ["exited with 1"; "pull access denied"].
Proof. reflexivity. Qed.

Example filterContainers_only_wins :
  runtimelog.filterContainers (runtimelog.mkPodLogStreamSpec ["app"] ["app"])
    [fixtures.appContainer;
     mkContainer "sidecar" "c-2" [] true true false 0]
  = [fixtures.appContainer].
Proof. vm_compute. reflexivity. Qed.

(** A reset requested at two visible restarts, applied when the pod shows
    three: one restart stays visible. *)
Example handlePodResetRestartsAction_run :
  let restarted := withContainers [mkContainer "app" "c-1" [] true true false 3]
                     fixtures.trackedP1 in
  let state := withTarget "foo"
                 (withState (storePod "P1" restarted
                               (State (fixtures.fooTarget {["U1"]} ∅)))
                    (fixtures.fooTarget {["U1"]} ∅))
                 (fixtures.fooState {["U1"]}) in
  BaselineRestarts
  <$> spec.trackedPod
        (handlePodResetRestartsAction fixtures.api
           (λ p, fixtures.AllContainerRestarts p - BaselineRestarts p)
           state (mkPodResetRestartsAction "P1" "foo" 2))
        "foo" "P1"
  = Some 2.
Proof. vm_compute. reflexivity. Qed.

End FurtherExamples.
